(** * st1201: floating point to integer mapping (MISB ST 1201.3)

    A shallow embedding of [fpencoder.go] and the properties of its
    encoder and decoder.

    [float64] is Rocq's primitive [float] (IEEE 754 binary64, every
    operation rounded to nearest even), so the definitions below compute the
    very values the Go program computes; Go's [int] is a 64-bit two's
    complement integer held in [Z], byte slices are [list byte]. *)

From Stdlib Require Import ZArith List Bool Lia Floats QArith Qabs Qpower Lqa.
From Stdlib.Strings Require Import Byte.
Import ListNotations.

#[local] Open Scope Z_scope.

(** ** Go's numeric conversions *)

(** The integer types the package converts floats to. *)
Inductive int_type := Int | Uint8 | Uint16 | Uint32 | Uint64.

Definition int_min (t : int_type) : Z :=
  match t with Int => - 2 ^ 63 | _ => 0 end.

Definition int_max (t : int_type) : Z :=
  match t with
  | Int => 2 ^ 63 - 1
  | Uint8 => 2 ^ 8 - 1
  | Uint16 => 2 ^ 16 - 1
  | Uint32 => 2 ^ 32 - 1
  | Uint64 => 2 ^ 64 - 1
  end.

Definition in_range (t : int_type) (z : Z) : bool :=
  (int_min t <=? z) && (z <=? int_max t).

(** Wrap-around of integer arithmetic, and of an arbitrary integer into the
    values of a type. *)
Definition wrap (t : int_type) (z : Z) : Z :=
  let span := int_max t - int_min t + 1 in
  (z - int_min t) mod span + int_min t.

(** [float64(n)] for an integer [n]: the nearest float, ties to even. *)
Definition float_of_Z (z : Z) : float :=
  SF2Prim (binary_normalize prec emax z 0 false).

(** The integer part of a finite float, rounded toward zero; [None] for a
    NaN or an infinity. *)
Definition SFtrunc (x : spec_float) : option Z :=
  match x with
  | S754_zero _ => Some 0
  | S754_finite s m e =>
      let q := Z.shiftl (Zpos m) e in
      Some (if s then - q else q)
  | S754_infinity _ | S754_nan => None
  end.

Definition Ztrunc (x : float) : option Z := SFtrunc (Prim2SF x).

(** The greatest integer less than or equal to a finite float. *)
Definition SFfloor (x : spec_float) : option Z :=
  match x with
  | S754_zero _ => Some 0
  | S754_finite s m e => Some (Z.shiftl (cond_Zopp s (Zpos m)) e)
  | S754_infinity _ | S754_nan => None
  end.

(** ** The standard library functions the package calls (package math)

    These are Go's own, not this repository's; they are written here after
    the portable implementations of the Go distribution so that the
    constants of a codec can be computed. *)
Module GoMath.

#[local] Open Scope float_scope.

Definition Inf (sign : Z) : float :=
  if (0 <=? sign)%Z then infinity else neg_infinity.

Definition NaN : float := nan.

Definition IsNaN (f : float) : bool := is_nan f.

Definition IsInf (f : float) (sign : Z) : bool :=
  ((0 <=? sign)%Z && (f =? infinity)) || ((sign <=? 0)%Z && (f =? neg_infinity)).

Definition Abs (x : float) : float := abs x.

Definition Signbit (x : float) : bool := get_sign x.

(** [Modf f] is the integer and the fractional part of [f], both with the
    sign of [f]. *)
Definition Modf_ge1 (f : float) : float * float :=
  match Ztrunc f with
  | Some z => let i := float_of_Z z in (i, f - i)
  | None => (f, f - f)
  end.

Definition Modf (f : float) : float * float :=
  if f <? 1 then
    if f <? 0 then
      let '(i, fr) :=
        if (- f) <? 1 then (0, - f) else Modf_ge1 (- f) in
      (- i, - fr)
    else if f =? 0 then (f, f)
    else (0, f)
  else Modf_ge1 f.

(** [Floor x] is the greatest integer value less than or equal to [x];
    zeros, infinities and NaN are returned as they are. *)
Definition Floor (x : float) : float :=
  if (x =? 0) || IsNaN x || IsInf x 0 then x
  else
    match SFfloor (Prim2SF x) with
    | Some z => float_of_Z z
    | None => x
    end.

Definition Ceil (x : float) : float := - Floor (- x).

(** [Frexp f] is [(frac, exp)] with [f = frac * 2^exp] and
    [1/2 <= |frac| < 1]; zeros, infinities and NaN come back with [exp = 0]. *)
Definition Frexp (f : float) : float * Z :=
  if (f =? 0) || IsInf f 0 || IsNaN f then (f, 0%Z) else Z.frexp f.

Definition Ldexp (frac : float) (exp : Z) : float := Z.ldexp frac exp.

Definition Sqrt2 : float := 0x1.6a09e667f3bcdp+0.

Definition Log (x : float) : float :=
  let Ln2Hi := 0x1.62e42fee00000p-1 in
  let Ln2Lo := 0x1.a39ef35793c76p-33 in
  let L1 := 0x1.5555555555593p-1 in
  let L2 := 0x1.999999997fa04p-2 in
  let L3 := 0x1.2492494229359p-2 in
  let L4 := 0x1.c71c51d8e78afp-3 in
  let L5 := 0x1.7466496cb03dep-3 in
  let L6 := 0x1.39a09d078c69fp-3 in
  let L7 := 0x1.2f112df3e5244p-3 in
  if IsNaN x || IsInf x 1 then x
  else if x <? 0 then NaN
  else if x =? 0 then Inf (-1)
  else
    let '(f1, ki) := Frexp x in
    let '(f1, ki) := if f1 <? Sqrt2 / 2 then (f1 * 2, (ki - 1)%Z) else (f1, ki) in
    let f := f1 - 1 in
    let k := float_of_Z ki in
    let s := f / (2 + f) in
    let s2 := s * s in
    let s4 := s2 * s2 in
    let t1 := s2 * (L1 + s4 * (L3 + s4 * (L5 + s4 * L7))) in
    let t2 := s4 * (L2 + s4 * (L4 + s4 * L6)) in
    let R := t1 + t2 in
    let hfsq := 0.5 * f * f in
    k * Ln2Hi - ((hfsq - (s * (hfsq + R) + k * Ln2Lo)) - f).

Definition expmulti (hi lo : float) (k : Z) : float :=
  let P1 := 0x1.5555555555555p-3 in
  let P2 := -0x1.6c16c16bebd93p-9 in
  let P3 := 0x1.1566aaf25de2cp-14 in
  let P4 := -0x1.bbd41c5d26bf1p-20 in
  let P5 := 0x1.6376972bea4d0p-25 in
  let r := hi - lo in
  let t := r * r in
  let c := r - t * (P1 + t * (P2 + t * (P3 + t * (P4 + t * P5)))) in
  let y := 1 - ((lo - (r * c) / (2 - c)) - hi) in
  Ldexp y k.

Definition Exp (x : float) : float :=
  let Ln2Hi := 0x1.62e42fee00000p-1 in
  let Ln2Lo := 0x1.a39ef35793c76p-33 in
  let Log2e := 0x1.71547652b82fep+0 in
  let Overflow := 0x1.62e42fefa39efp+9 in
  let Underflow := -0x1.74910d52d3051p+9 in
  let NearZero := 0x1p-28 in
  if IsNaN x || IsInf x 1 then x
  else if IsInf x (-1) then 0
  else if Overflow <? x then Inf 1
  else if x <? Underflow then 0
  else if (- NearZero <? x) && (x <? NearZero) then 1 + x
  else
    let k :=
      if x <? 0 then Ztrunc (Log2e * x - 0.5)
      else if 0 <? x then Ztrunc (Log2e * x + 0.5)
      else Some 0%Z in
    let k := match k with Some z => z | None => 0%Z end in
    let hi := x - float_of_Z k * Ln2Hi in
    let lo := float_of_Z k * Ln2Lo in
    expmulti hi lo k.

Definition isOddInt (x : float) : bool :=
  if 0x1p53 <=? Abs x then false
  else
    let '(xi, xf) := Modf x in
    (xf =? 0) && match Ztrunc xi with Some z => Z.odd z | None => false end.

(** The loop of [Pow] over the bits of the integer part of the exponent,
    least significant first: [ans = a1 * 2^ae] is multiplied by
    [(x1 * 2^xe)^i]. *)
Fixpoint pow_loop (i : positive) (x1 : float) (xe : Z) (a1 : float) (ae : Z)
  : float * Z :=
  if (xe <? - 2 ^ 12)%Z || (2 ^ 12 <? xe)%Z then (a1, (ae + xe)%Z)
  else
    let '(a1, ae) :=
      match i with
      | xO _ => (a1, ae)
      | _ => (a1 * x1, (ae + xe)%Z)
      end in
    let x1 := x1 * x1 in
    let xe := (2 * xe)%Z in
    let '(x1, xe) := if x1 <? 0.5 then (x1 + x1, (xe - 1)%Z) else (x1, xe) in
    match i with
    | xH => (a1, ae)
    | xO p | xI p => pow_loop p x1 xe a1 ae
    end.

(** [Pow x y] where [x] is a zero. *)
Definition pow_zero (x y : float) : float :=
  if y <? 0 then
    if Signbit x && isOddInt y then (if Signbit x then neg_infinity else infinity)
    else Inf 1
  else if 0 <? y then
    if Signbit x && isOddInt y then x else 0
  else NaN.

Definition pow_finite (x y : float) : float :=
  let '(yi, yf) := Modf (Abs y) in
  if negb (yf =? 0) && (x <? 0) then NaN
  else if 0x1p63 <=? yi then
    if x =? -1 then 1
    else if Bool.eqb (Abs x <? 1) (0 <? y) then 0
    else Inf 1
  else
    let '(a1, yi) :=
      if negb (yf =? 0) then
        let '(yf, yi) := if 0.5 <? yf then (yf - 1, yi + 1) else (yf, yi) in
        (Exp (yf * Log x), yi)
      else (1, yi) in
    let '(x1, xe) := Frexp x in
    let '(a1, ae) :=
      match Ztrunc yi with
      | Some (Zpos i) => pow_loop i x1 xe a1 0%Z
      | _ => (a1, 0%Z)
      end in
    let '(a1, ae) := if y <? 0 then (1 / a1, (- ae)%Z) else (a1, ae) in
    Ldexp a1 ae.

Definition Pow (x y : float) : float :=
  if (y =? 0) || (x =? 1) then 1
  else if y =? 1 then x
  else if IsNaN x || IsNaN y then NaN
  else if x =? 0 then pow_zero x y
  else if IsInf y 0 then
    if x =? -1 then 1
    else if Bool.eqb (Abs x <? 1) (IsInf y 1) then 0
    else Inf 1
  else if IsInf x 0 then
    if IsInf x (-1) then
      (* Pow(1/x, -y), that is Pow(-0, -y) *)
      if - y =? 1 then 1 / x else pow_zero (1 / x) (- y)
    else if y <? 0 then 0
    else if 0 <? y then Inf 1
    else NaN
  else if y =? 0.5 then sqrt x
  else if y =? -0.5 then 1 / sqrt x
  else pow_finite x y.

End GoMath.

(** ** Bytes and package encoding/binary *)

Definition byte_of_Z (z : Z) : byte :=
  match Byte.of_N (Z.to_N (z mod 256)) with
  | Some b => b
  | None => x00
  end.

Definition Z_of_byte (b : byte) : Z := Z.of_N (Byte.to_N b).

(** A byte slice read as an unsigned integer, most significant byte first. *)
Definition be_value (bs : list byte) : Z :=
  fold_left (fun acc b => acc * 256 + Z_of_byte b) bs 0.

Module BigEndian.

(** [binary.Write(b, binary.BigEndian, v)] for [v] a [uint16], [uint32] or
    [uint64]: the bytes appended to the buffer. *)
Definition PutUint16 (v : Z) : list byte :=
  [byte_of_Z (Z.shiftr v 8); byte_of_Z v].

Definition PutUint32 (v : Z) : list byte :=
  [byte_of_Z (Z.shiftr v 24); byte_of_Z (Z.shiftr v 16);
   byte_of_Z (Z.shiftr v 8); byte_of_Z v].

Definition PutUint64 (v : Z) : list byte :=
  [byte_of_Z (Z.shiftr v 56); byte_of_Z (Z.shiftr v 48);
   byte_of_Z (Z.shiftr v 40); byte_of_Z (Z.shiftr v 32);
   byte_of_Z (Z.shiftr v 24); byte_of_Z (Z.shiftr v 16);
   byte_of_Z (Z.shiftr v 8); byte_of_Z v].

(** [binary.BigEndian.UintN(b)]; [None] is the index-out-of-range panic on a
    slice that is too short. *)
Definition Uint16 (b : list byte) : option Z :=
  match b with
  | b0 :: b1 :: _ => Some (Z.lor (Z_of_byte b1) (Z.shiftl (Z_of_byte b0) 8))
  | _ => None
  end.

Definition Uint32 (b : list byte) : option Z :=
  match b with
  | b0 :: b1 :: b2 :: b3 :: _ =>
      Some (Z.lor (Z.lor (Z.lor (Z_of_byte b3) (Z.shiftl (Z_of_byte b2) 8))
                         (Z.shiftl (Z_of_byte b1) 16))
                  (Z.shiftl (Z_of_byte b0) 24))
  | _ => None
  end.

Definition Uint64 (b : list byte) : option Z :=
  match b with
  | b0 :: b1 :: b2 :: b3 :: b4 :: b5 :: b6 :: b7 :: _ =>
      Some (Z.lor (Z.lor (Z.lor (Z.lor (Z.lor (Z.lor (Z.lor
              (Z_of_byte b7) (Z.shiftl (Z_of_byte b6) 8))
              (Z.shiftl (Z_of_byte b5) 16)) (Z.shiftl (Z_of_byte b4) 24))
              (Z.shiftl (Z_of_byte b3) 32)) (Z.shiftl (Z_of_byte b2) 40))
              (Z.shiftl (Z_of_byte b1) 48)) (Z.shiftl (Z_of_byte b0) 56))
  | _ => None
  end.

End BigEndian.

(** ** The encoder *)

(** The errors the package returns, one per [fmt.Errorf] of the source. *)
Inductive error :=
  | ErrFieldLength
    (* "Only 1, 2, 4, and 8 are valid field lengths" *)
  | ErrPrecision
    (* "The specified range and precision cannot be represented using a
       64-bit integer" *)
  | ErrValueRange (a b : float)
    (* "Value must be in range [ %v, %v]" *)
  | ErrArrayLength
    (* "Array length does not match expected field length" *)
  | ErrDecodeRange.
    (* "Error decoding floating point value; out of range" *)

(** Run-time panics of the Go program. *)
Inductive panic :=
  | IndexOutOfRange (index len : Z)
  | MakesliceLenOutOfRange.

(** What a call comes to: a value with a nil error, an error, or a panic. *)
Inductive result (A : Type) :=
  | Ok (v : A)
  | Err (e : error)
  | Panic (p : panic).

Arguments Ok {A} v.
Arguments Err {A} e.
Arguments Panic {A} p.

Record FPEncoder := mkFPEncoder {
  a : float;
  b : float;
  bPow : float;
  dPow : float;
  sF : float;
  sR : float;
  zOffset : float;
  fieldLength : Z
}.

(** [new(FPEncoder)]: every field zero. *)
Definition newFPEncoder : FPEncoder :=
  mkFPEncoder 0 0 0 0 0 0 0 0.

Section Codec.

(** The Go specification leaves open what converting a float to an integer
    type gives when the type cannot represent the value (a NaN, an infinity,
    a value out of range): "the conversion succeeds but the result value is
    implementation-dependent".  [cvt_unrep] stands for what the
    implementation at hand gives. *)
Variable cvt_unrep : int_type -> float -> Z.

(** [T(d)] for a float [d] and an integer type [T]. *)
Definition float_to (t : int_type) (d : float) : Z :=
  match Ztrunc d with
  | Some z => if in_range t z then z else wrap t (cvt_unrep t d)
  | None => wrap t (cvt_unrep t d)
  end.

#[local] Open Scope float_scope.

Definition logOf2 : float := GoMath.Log 2.

Definition log2 (val : float) : float := GoMath.Log val / logOf2.

(** Section 8.9: the constants used for encoding and decoding. *)
Definition preCompute (fpe : FPEncoder) (min max : float) (length : Z)
  : FPEncoder :=
  let fieldLength := length in
  let a := min in
  let b := max in
  let bPow := GoMath.Ceil (log2 (b - a)) in
  let dPow := float_of_Z (wrap Int (wrap Int (8 * fieldLength) - 1)) in
  let sF := GoMath.Pow 2 (dPow - bPow) in
  let sR := GoMath.Pow 2 (bPow - dPow) in
  let zOffset :=
    if (a <? 0) && (0 <? b) then sF * a - GoMath.Floor (sF * a)
    else zOffset fpe in
  mkFPEncoder a b bPow dPow sF sR zOffset fieldLength.

Definition NewFPEncoderWithLength (min max : float) (length : Z)
  : result FPEncoder :=
  let fpe := newFPEncoder in
  if (length =? 1)%Z || (length =? 2)%Z || (length =? 4)%Z || (length =? 8)%Z
  then Ok (preCompute fpe min max length)
  else Err ErrFieldLength.

Definition NewFPEncoderWithPrecision (min max precision : float)
  : result FPEncoder :=
  let fpe := newFPEncoder in
  let bits := GoMath.Ceil (log2 ((max - min) / precision) + 1) in
  let length := GoMath.Ceil (bits / 8) in
  if length <=? 2 then Ok (preCompute fpe min max (float_to Int length))
  else if length <=? 4 then Ok (preCompute fpe min max 4)
  else if length <=? 8 then Ok (preCompute fpe min max 8)
  else Err ErrPrecision.

(** [make([]byte, n)] *)
Definition make_bytes (n : Z) : result (list byte) :=
  if (n <? 0)%Z then Panic MakesliceLenOutOfRange
  else Ok (repeat x00 (Z.to_nat n)).

(** [encoded[0] = c] *)
Definition set_first (encoded : list byte) (c : byte) : result (list byte) :=
  match encoded with
  | [] => Panic (IndexOutOfRange 0 0)
  | _ :: rest => Ok (c :: rest)
  end.

Definition Encode (fpe : FPEncoder) (val : float) : result (list byte) :=
  match make_bytes (fieldLength fpe) with
  | Ok encoded =>
      if val =? GoMath.Inf 0 then set_first encoded xc8
      else if val =? GoMath.Inf (-1) then set_first encoded xe8
      else if GoMath.IsNaN val then set_first encoded xd0
      else if (val <? a fpe) || (b fpe <? val) then
        Err (ErrValueRange (a fpe) (b fpe))
      else
        let d := GoMath.Floor (sF fpe * (val - a fpe) + zOffset fpe) in
        Ok (match fieldLength fpe with
            | 1%Z => [byte_of_Z (float_to Uint8 d)]
            | 2%Z => BigEndian.PutUint16 (float_to Uint16 d)
            | 4%Z => BigEndian.PutUint32 (float_to Uint32 d)
            | 8%Z => BigEndian.PutUint64 (float_to Uint64 d)
            | _ => []
            end)
  | Err e => Err e
  | Panic p => Panic p
  end.

Definition Decode (fpe : FPEncoder) (bytes : list byte) : result float :=
  if negb (Z.of_nat (length bytes) =? fieldLength fpe)%Z then Err ErrArrayLength
  else
    match bytes with
    | [] => Panic (IndexOutOfRange 0 0)
    | b0 :: _ =>
        if Byte.eqb b0 xc8 then Ok (GoMath.Inf 0)
        else if Byte.eqb b0 xe8 then Ok (GoMath.Inf (-1))
        else if Byte.eqb b0 xd0 then Ok GoMath.NaN
        else
          let l :=
            match fieldLength fpe with
            | 1%Z => Some (float_of_Z (Z_of_byte b0))
            | 2%Z => option_map float_of_Z (BigEndian.Uint16 bytes)
            | 4%Z => option_map float_of_Z (BigEndian.Uint32 bytes)
            | 8%Z => option_map float_of_Z (BigEndian.Uint64 bytes)
            | _ => Some 0
            end in
          match l with
          | Some l =>
              let val := sR fpe * (l - zOffset fpe) + a fpe in
              if (val <? a fpe) || (b fpe <? val) then Err ErrDecodeRange
              else Ok val
          | None => Panic (IndexOutOfRange 0 (Z.of_nat (length bytes)))
          end
    end.

End Codec.

(** A codec built by [NewFPEncoderWithLength]: what the constructor's
    comment calls a field length of 1, 2, 4 or 8 bytes. *)
Definition valid_length (n : Z) : Prop := n = 1 \/ n = 2 \/ n = 4 \/ n = 8.

(** One implementation of the unrepresentable conversions: saturation, a NaN
    giving 0. *)
Definition cvt_saturate (t : int_type) (d : float) : Z :=
  if is_nan d then 0
  else if (d <? 0)%float then int_min t
  else int_max t.

(** ** The exact value of a float *)

Definition SF2Q (x : spec_float) : Q :=
  match x with
  | S754_finite s m e => inject_Z (cond_Zopp s (Zpos m)) * Qpower 2 e
  | _ => 0
  end.

(** The rational number a finite float stands for (0 for the others). *)
Definition F2Q (x : float) : Q := SF2Q (Prim2SF x).

(** ** Round trips *)



(** The float64 nearest to 3.14159, the value of the package's test and
    example. *)
Definition pi_5 : float := 0x1.921f9f01b866ep+1.

(** The integer [Decode] reads from a slice of the codec's length. *)
Definition Decode_integer (fpe : FPEncoder) (bytes : list byte) : option float :=
  match bytes with
  | [] => None
  | b0 :: _ =>
      match fieldLength fpe with
      | 1 => Some (float_of_Z (Z_of_byte b0))
      | 2 => option_map float_of_Z (BigEndian.Uint16 bytes)
      | 4 => option_map float_of_Z (BigEndian.Uint32 bytes)
      | 8 => option_map float_of_Z (BigEndian.Uint64 bytes)
      | _ => Some 0%float
      end
  end.

(** ** Codecs whose range fits the field *)

(** The number of bits of a field that hold data, [8*fieldLength - 1]. *)
Definition data_bits (fpe : FPEncoder) : Z := 8 * fieldLength fpe - 1.

(** The code [C0 00 .. 00], half as much again as [2^data_bits]. *)
Definition code_limit (fpe : FPEncoder) : Z := 3 * 2 ^ (data_bits fpe - 1).

(** The code [C2 00 .. 00], still below the markers [C8], [D0] and [E8]. *)
Definition code_top (fpe : FPEncoder) : Z := 97 * 2 ^ (data_bits fpe - 6).

(** The bounds are finite, the forward scale is a positive finite number and
    the scaled range [sF * (b - a)] is at most [code_limit]: it is at most
    [2^data_bits] when [2^bPow >= b - a], as the data model has it, and the
    codes of the range fit the field and stay below the markers. *)
Definition range_fits_field (fpe : FPEncoder) : bool :=
  is_finite (a fpe) && is_finite (b fpe)
  && is_finite (sF fpe) && (0 <? sF fpe)%float
  && (sF fpe * (b fpe - a fpe) <=? float_of_Z (code_limit fpe))%float.

(** The forward and the reverse scale are reciprocal: their product is
    exactly 1. *)
Definition reciprocal_scales (fpe : FPEncoder) : bool :=
  Qeq_bool (F2Q (sF fpe) * F2Q (sR fpe)) 1.

(** The float [Encode] turns into an integer for an ordinary value. *)
Definition Encode_code (fpe : FPEncoder) (val : float) : float :=
  GoMath.Floor (sF fpe * (val - a fpe) + zOffset fpe)%float.

(** The error a round trip stays within: one step [sR] of the reverse scale,
    and [2^-48] of the magnitudes involved, for the eight roundings from
    [val] to the decoded value. *)
Definition roundtrip_bound (fpe : FPEncoder) : Q :=
  (F2Q (sR fpe)
   + (1 # 281474976710656)
     * (inject_Z (2 ^ data_bits fpe) * F2Q (sR fpe)
        + Qabs (F2Q (a fpe)) + Qabs (F2Q (b fpe))))%Q.


(** * Binary64 arithmetic: definitions *)

Definition rne (m n : Z) : Z :=
  let q := m / 2 ^ n in
  let rem2 := 2 * m - 2 ^ (n + 1) * q in
  if rem2 <? 2 ^ n then q
  else if 2 ^ n <? rem2 then q + 1
  else if Z.even q then q else q + 1.

Definition b2z (b : bool) : Z := if b then 1 else 0.

(** The state after [k] steps of [shr_1] from [(m, false, false)]. *)
Definition shr_state (m k : Z) (r : shr_record) : Prop :=
  0 <= shr_m r
  /\ exists sp, 2 * m = 2 ^ k * (2 * shr_m r + b2z (shr_r r)) + sp
                /\ 0 <= sp < 2 ^ k /\ shr_s r = negb (sp =? 0).

Definition fexp64 (e : Z) : Z := Z.max (e - 53) (-1074).

(** The float of mantissa [q] and exponent [E], where [q <= 2^53]. *)
Definition canon (s : bool) (q E : Z) : spec_float :=
  match q with
  | Z0 => S754_zero s
  | Zpos p =>
      if q =? 2 ^ 53 then
        if E + 1 <=? 971 then S754_finite s (2 ^ 52) (E + 1) else S754_infinity s
      else
        if E <=? 971 then S754_finite s p E else S754_infinity s
  | Zneg _ => S754_nan
  end.

Definition round_mantissa (m : positive) (e : Z) : Z :=
  let E := fexp64 (Zpos (digits2_pos m) + e) in
  if E <=? e then Zpos m * 2 ^ (e - E) else rne (Zpos m) (E - e).

Definition round_dyadic (s : bool) (m : positive) (e : Z) : spec_float :=
  canon s (round_mantissa m e) (fexp64 (Zpos (digits2_pos m) + e)).

Definition pow2 (e : Z) : Q := (2 ^ e)%Q.

(** [dval N e] is the number [N * 2^e]. *)
Definition dval (N e : Z) : Q := (inject_Z N * pow2 e)%Q.

Definition rexp (m : positive) (e : Z) : Z := fexp64 (Zpos (digits2_pos m) + e).

(** The rounded value of the positive dyadic [m * 2^e]. *)
Definition rvalue (m : positive) (e : Z) : Q :=
  dval (round_mantissa m e) (rexp m e).

(** The value, with the infinities standing at [2^1024] and [-2^1024]:
    beyond every finite float. *)
Definition SFX (x : spec_float) : Q :=
  match x with
  | S754_infinity false => pow2 1024
  | S754_infinity true => (- pow2 1024)%Q
  | _ => SF2Q x
  end.

Definition SFnotnan (x : spec_float) : bool :=
  match x with S754_nan => false | _ => true end.

Definition SFfinite (x : spec_float) : bool :=
  match x with S754_zero _ | S754_finite _ _ _ => true | _ => false end.

(** What [round_mantissa] and [rexp] give: a mantissa of at most 53 bits,
    of exactly 53 bits (or the power of two above) off the least exponent. *)
Definition precanonical (q E : Z) : Prop :=
  0 <= q <= 2 ^ 53 /\ -1074 <= E /\ (-1074 < E -> 2 ^ 52 <= q).

(** A value, cut at [2^1024]. *)
Definition clamp (v : Q) : Q :=
  if Qlt_le_dec v (pow2 1024) then v else pow2 1024.

Definition rndX (N e : Z) : Q :=
  match N with
  | Z0 => 0%Q
  | Zpos m => clamp (rvalue m e)
  | Zneg m => (- clamp (rvalue m e))%Q
  end.

(** [Rounds uf v r]: the float [r] is the number [v], a dyadic, rounded to
    nearest even; with [uf = true] the dyadic has no bit below the least
    subnormal, so that only a normal result is inexact. *)
Definition Rounds (uf : bool) (v : Q) (r : spec_float) : Prop :=
  valid_binary r = true /\ SFnotnan r = true
  /\ exists N e, (dval N e == v)%Q /\ (SFX r == rndX N e)%Q
                 /\ (uf = true -> -1074 <= e).

(** The same on primitive floats. *)
Definition FX (x : float) : Q := SFX (Prim2SF x).

Definition FRounds (uf : bool) (v : Q) (x : float) : Prop :=
  Rounds uf v (Prim2SF x).

(** * Binary64 arithmetic: lemmas *)

(** ** Digits *)

Lemma digits2_pos_bounds (m : positive) :
  2 ^ (Zpos (digits2_pos m) - 1) <= Zpos m < 2 ^ Zpos (digits2_pos m).
Proof.
  induction m as [p IH | p IH |]; simpl digits2_pos.
  - rewrite Pos2Z.inj_succ.
    replace (Z.succ (Zpos (digits2_pos p)) - 1) with (Z.succ (Zpos (digits2_pos p) - 1)) by lia.
    rewrite !Z.pow_succ_r by lia. lia.
  - rewrite Pos2Z.inj_succ.
    replace (Z.succ (Zpos (digits2_pos p)) - 1) with (Z.succ (Zpos (digits2_pos p) - 1)) by lia.
    rewrite !Z.pow_succ_r by lia. lia.
  - simpl. lia.
Qed.

Lemma digits2_pos_unique (m : positive) (k : Z) :
  2 ^ (k - 1) <= Zpos m < 2 ^ k -> Zpos (digits2_pos m) = k.
Proof.
  intros [H1 H2]. pose proof (digits2_pos_bounds m) as [H3 H4].
  assert (0 < k).
  { destruct (Z.lt_ge_cases 0 k); [assumption|].
    destruct (Z.eq_dec k 0) as [-> | ]; [simpl in H2; lia|].
    rewrite Z.pow_neg_r in H2 by lia. lia. }
  destruct (Z.lt_trichotomy (Zpos (digits2_pos m)) k) as [Hlt | [Heq | Hgt]];
    [exfalso | assumption | exfalso].
  - assert (2 ^ Zpos (digits2_pos m) <= 2 ^ (k - 1)) by (apply Z.pow_le_mono_r; lia).
    lia.
  - assert (2 ^ k <= 2 ^ (Zpos (digits2_pos m) - 1)) by (apply Z.pow_le_mono_r; lia).
    lia.
Qed.

Lemma pow2_S (n : Z) : 0 <= n -> 2 ^ (n + 1) = 2 * 2 ^ n.
Proof. intros. rewrite Z.pow_add_r by lia. lia. Qed.

Lemma pow2_pos (n : Z) : 0 <= n -> 0 < 2 ^ n.
Proof. intros. apply Z.pow_pos_nonneg; lia. Qed.

(** ** Rounding an integer to nearest, ties to even, after a right shift *)

Lemma rne_bounds (m n : Z) :
  0 <= n -> m / 2 ^ n <= rne m n <= m / 2 ^ n + 1.
Proof.
  intros Hn. unfold rne.
  destruct (_ <? _); [lia|]. destruct (_ <? _); [lia|]. destruct (Z.even _); lia.
Qed.

Lemma rne_error (m n : Z) :
  0 <= n -> Z.abs (2 ^ (n + 1) * rne m n - 2 * m) <= 2 ^ n.
Proof.
  intros Hn. unfold rne.
  assert (Hp : 0 < 2 ^ n) by (apply Z.pow_pos_nonneg; lia).
  rewrite pow2_S by lia.
  pose proof (Z.div_mod m (2 ^ n) ltac:(lia)) as Hdm.
  pose proof (Z.mod_pos_bound m (2 ^ n) Hp) as Hmod.
  set (q := m / 2 ^ n) in *. set (r := m mod 2 ^ n) in *.
  destruct (Z.ltb_spec (2 * m - 2 * 2 ^ n * q) (2 ^ n)); [lia|].
  destruct (Z.ltb_spec (2 ^ n) (2 * m - 2 * 2 ^ n * q)); [nia|].
  destruct (Z.even q); nia.
Qed.

Lemma rne_exact (m n : Z) : 0 <= n -> rne (m * 2 ^ n) n = m.
Proof.
  intros Hn. unfold rne.
  assert (Hp : 0 < 2 ^ n) by (apply Z.pow_pos_nonneg; lia).
  rewrite Z.div_mul by lia. rewrite pow2_S by lia.
  destruct (Z.ltb_spec (2 * (m * 2 ^ n) - 2 * 2 ^ n * m) (2 ^ n)); [reflexivity|lia].
Qed.

Lemma rne_mono (m1 m2 n : Z) :
  0 <= n -> m1 <= m2 -> rne m1 n <= rne m2 n.
Proof.
  intros Hn Hle.
  assert (Hp : 0 < 2 ^ n) by (apply Z.pow_pos_nonneg; lia).
  assert (Hq : m1 / 2 ^ n <= m2 / 2 ^ n) by (apply Z.div_le_mono; lia).
  destruct (Z.eq_dec (m1 / 2 ^ n) (m2 / 2 ^ n)) as [He | Hne].
  - unfold rne. rewrite <- He. rewrite pow2_S by lia.
    set (q := m1 / 2 ^ n) in *.
    destruct (Z.ltb_spec (2 * m1 - 2 * 2 ^ n * q) (2 ^ n));
    destruct (Z.ltb_spec (2 * m2 - 2 * 2 ^ n * q) (2 ^ n)); try lia.
    + destruct (Z.ltb_spec (2 ^ n) (2 * m2 - 2 * 2 ^ n * q)); [lia|].
      destruct (Z.even q); lia.
    + destruct (Z.ltb_spec (2 ^ n) (2 * m1 - 2 * 2 ^ n * q));
      destruct (Z.ltb_spec (2 ^ n) (2 * m2 - 2 * 2 ^ n * q)); try lia;
      destruct (Z.even q); lia.
  - pose proof (rne_bounds m1 n Hn). pose proof (rne_bounds m2 n Hn). lia.
Qed.

(** Shifting the integer left and cutting that much more changes nothing. *)
Lemma rne_shift (m n j : Z) :
  0 <= n -> 0 <= j -> rne (m * 2 ^ j) (n + j) = rne m n.
Proof.
  intros Hn Hj. unfold rne.
  assert (Hpn : 0 < 2 ^ n) by (apply Z.pow_pos_nonneg; lia).
  assert (Hpj : 0 < 2 ^ j) by (apply Z.pow_pos_nonneg; lia).
  rewrite (Z.pow_add_r 2 n j) by lia.
  rewrite Z.div_mul_cancel_r by lia.
  replace (n + j + 1) with ((n + 1) + j) by lia.
  rewrite (Z.pow_add_r 2 (n + 1) j) by lia.
  set (q := m / 2 ^ n).
  replace (2 * (m * 2 ^ j) - 2 ^ (n + 1) * 2 ^ j * q)
    with ((2 * m - 2 ^ (n + 1) * q) * 2 ^ j) by ring.
  set (r := 2 * m - 2 ^ (n + 1) * q).
  assert (H1 : (r * 2 ^ j <? 2 ^ n * 2 ^ j) = (r <? 2 ^ n)).
  { destruct (Z.ltb_spec r (2 ^ n)); destruct (Z.ltb_spec (r * 2 ^ j) (2 ^ n * 2 ^ j)); try reflexivity; nia. }
  assert (H2 : (2 ^ n * 2 ^ j <? r * 2 ^ j) = (2 ^ n <? r)).
  { destruct (Z.ltb_spec (2 ^ n) r); destruct (Z.ltb_spec (2 ^ n * 2 ^ j) (r * 2 ^ j)); try reflexivity; nia. }
  rewrite H1, H2. reflexivity.
Qed.

(** ** The shift-right of SpecFloat *)

Lemma iter_pos_nat {A : Type} (f : A -> A) (p : positive) (x : A) :
  SpecFloat.iter_pos f p x = Nat.iter (Pos.to_nat p) f x.
Proof.
  revert x. induction p as [p IH | p IH |]; intros x; simpl SpecFloat.iter_pos.
  - rewrite !IH, Pos2Nat.inj_xI.
    replace (S (2 * Pos.to_nat p))%nat with (Pos.to_nat p + S (Pos.to_nat p))%nat by lia.
    rewrite Nat.iter_add. simpl Nat.iter. rewrite Nat.iter_swap. reflexivity.
  - rewrite !IH, Pos2Nat.inj_xO.
    replace (2 * Pos.to_nat p)%nat with (Pos.to_nat p + Pos.to_nat p)%nat by lia.
    rewrite Nat.iter_add. reflexivity.
  - reflexivity.
Qed.

Lemma shr_state_init (m : Z) :
  0 <= m -> shr_state m 0 (Build_shr_record m false false).
Proof.
  intros Hm. split; [exact Hm|]. exists 0.
  cbn [shr_m shr_r shr_s b2z]. rewrite Z.pow_0_r.
  split; [lia|]. split; [lia | reflexivity].
Qed.

Lemma shr_state_step (m k : Z) (r : shr_record) :
  0 <= k -> shr_state m k r -> shr_state m (k + 1) (shr_1 r).
Proof.
  intros Hk [Hm (sp & Heq & Hsp & Hs)].
  pose proof (pow2_pos k Hk) as Hp.
  destruct r as [M rb sb]. cbn [shr_m shr_r shr_s] in *.
  assert (Hgen : forall M' b',
            M = 2 * M' + b2z b' -> 0 <= M' ->
            shr_state m (k + 1) (Build_shr_record M' b' (rb || sb))).
  { intros M' b' HM HM'. split; [exact HM'|].
    exists (2 ^ k * b2z rb + sp). cbn [shr_m shr_r shr_s].
    rewrite pow2_S by lia. subst sb.
    destruct rb; cbn [b2z orb] in *.
    - split; [nia|]. split; [lia|]. symmetry. apply negb_true_iff, Z.eqb_neq. lia.
    - split; [nia|]. split; [lia|]. f_equal. f_equal. lia. }
  destruct M as [|p|p]; [| |lia].
  - apply (Hgen 0 false); cbn [b2z]; lia.
  - destruct p as [p|p|].
    + apply (Hgen (Zpos p) true); cbn [b2z]; lia.
    + apply (Hgen (Zpos p) false); cbn [b2z]; lia.
    + apply (Hgen 0 true); cbn [b2z]; lia.
Qed.

Lemma shr_state_iter (m : Z) (n : nat) :
  0 <= m ->
  shr_state m (Z.of_nat n) (Nat.iter n shr_1 (Build_shr_record m false false)).
Proof.
  intros Hm. induction n as [|n IH].
  - apply shr_state_init, Hm.
  - rewrite Nat2Z.inj_succ. simpl Nat.iter.
    replace (Z.succ (Z.of_nat n)) with (Z.of_nat n + 1) by lia.
    apply shr_state_step; [lia | exact IH].
Qed.

Lemma shr_state_rne (m k : Z) (r : shr_record) :
  0 <= k -> shr_state m k r ->
  shr_m r = m / 2 ^ k
  /\ round_nearest_even (shr_m r) (loc_of_shr_record r) = rne m k.
Proof.
  intros Hk [Hm (sp & Heq & Hsp & Hs)].
  pose proof (pow2_pos k Hk) as Hp.
  destruct r as [M rb sb]. cbn [shr_m shr_r shr_s] in *.
  assert (HM : M = m / 2 ^ k).
  { apply (Z.div_unique_pos m (2 ^ k) M (m - 2 ^ k * M)); [|lia].
    destruct rb; cbn [b2z] in *; lia. }
  split; [exact HM|].
  unfold rne. rewrite <- HM, pow2_S by lia.
  replace (2 * m - 2 * 2 ^ k * M) with (2 ^ k * b2z rb + sp) by lia.
  subst sb.
  destruct rb; cbn [b2z loc_of_shr_record round_nearest_even].
  - destruct (Z.eqb_spec sp 0) as [-> | Hne]; cbn [negb].
    + destruct (Z.ltb_spec (2 ^ k * 1 + 0) (2 ^ k)); [lia|].
      destruct (Z.ltb_spec (2 ^ k) (2 ^ k * 1 + 0)); [lia|]. reflexivity.
    + destruct (Z.ltb_spec (2 ^ k * 1 + sp) (2 ^ k)); [lia|].
      destruct (Z.ltb_spec (2 ^ k) (2 ^ k * 1 + sp)); [reflexivity|lia].
  - destruct (Z.ltb_spec (2 ^ k * 0 + sp) (2 ^ k)); [|lia].
    destruct (sp =? 0); reflexivity.
Qed.

(** [shr] by [n >= 0] places, then [round_nearest_even], is [rne]. *)
Lemma shr_rne (m e n : Z) :
  0 <= m -> 0 <= n ->
  let '(r, e') := shr (Build_shr_record m false false) e n in
  e' = e + n
  /\ shr_m r = m / 2 ^ n
  /\ round_nearest_even (shr_m r) (loc_of_shr_record r) = rne m n.
Proof.
  intros Hm Hn. unfold shr.
  destruct n as [|p|p]; [| |lia].
  - split; [lia|]. cbn [shr_m loc_of_shr_record round_nearest_even].
    rewrite Z.pow_0_r, Z.div_1_r. split; [reflexivity|].
    unfold rne. rewrite Z.pow_0_r, Z.div_1_r. change (2 ^ (0 + 1)) with 2.
    destruct (Z.ltb_spec (2 * m - 2 * m) 1); [reflexivity|lia].
  - split; [reflexivity|]. rewrite iter_pos_nat.
    pose proof (shr_state_iter m (Pos.to_nat p) Hm) as Hst.
    rewrite positive_nat_Z in Hst.
    apply shr_state_rne; [lia | exact Hst].
Qed.

(** ** Rounding a dyadic number to binary64 *)

Lemma fexp_fexp64 (e : Z) : fexp prec emax e = fexp64 e.
Proof. reflexivity. Qed.

Lemma Pos_iter_xO (m d : positive) :
  Zpos (Pos.iter xO m d) = Zpos m * 2 ^ Zpos d.
Proof.
  rewrite Pos2Nat.inj_iter, <- (positive_nat_Z d).
  induction (Pos.to_nat d) as [|n IH].
  - cbn [Nat.iter nat_rect]. rewrite Z.pow_0_r. lia.
  - rewrite Nat2Z.inj_succ, Z.pow_succ_r by lia.
    cbn [Nat.iter nat_rect] in *. rewrite Pos2Z.inj_xO, IH. ring.
Qed.

Lemma digits2_shift (m : positive) (j : Z) (p : positive) :
  0 <= j -> Zpos p = Zpos m * 2 ^ j ->
  Zpos (digits2_pos p) = Zpos (digits2_pos m) + j.
Proof.
  intros Hj Hp. apply digits2_pos_unique. rewrite Hp.
  pose proof (digits2_pos_bounds m) as [H1 H2].
  pose proof (pow2_pos j Hj).
  replace (Zpos (digits2_pos m) + j - 1) with ((Zpos (digits2_pos m) - 1) + j) by lia.
  rewrite !Z.pow_add_r by lia. nia.
Qed.

Lemma rne_upper (m : positive) (n : Z) :
  0 <= n -> rne (Zpos m) n <= 2 ^ Z.max (Zpos (digits2_pos m) - n) 0.
Proof.
  intros Hn. pose proof (digits2_pos_bounds m) as [_ H2].
  destruct (Z.le_ge_cases n (Zpos (digits2_pos m))) as [Hle | Hge].
  - rewrite Z.max_l by lia.
    rewrite <- (rne_exact (2 ^ (Zpos (digits2_pos m) - n)) n Hn).
    apply rne_mono; [lia|].
    rewrite <- Z.pow_add_r by lia.
    replace (Zpos (digits2_pos m) - n + n) with (Zpos (digits2_pos m)) by lia. lia.
  - rewrite Z.max_r by lia. rewrite Z.pow_0_r.
    rewrite <- (rne_exact 1 n Hn). apply rne_mono; [lia|].
    assert (2 ^ Zpos (digits2_pos m) <= 2 ^ n) by (apply Z.pow_le_mono_r; lia).
    lia.
Qed.

Lemma rne_lower (m : positive) (n : Z) :
  0 <= n <= Zpos (digits2_pos m) - 1 ->
  2 ^ (Zpos (digits2_pos m) - 1 - n) <= rne (Zpos m) n.
Proof.
  intros Hn. pose proof (digits2_pos_bounds m) as [H1 _].
  rewrite <- (rne_exact (2 ^ (Zpos (digits2_pos m) - 1 - n)) n) by lia.
  apply rne_mono; [lia|].
  rewrite <- Z.pow_add_r by lia.
  replace (Zpos (digits2_pos m) - 1 - n + n) with (Zpos (digits2_pos m) - 1) by lia.
  exact H1.
Qed.

Lemma rne_nonneg (m n : Z) : 0 <= m -> 0 <= n -> 0 <= rne m n.
Proof.
  intros Hm Hn. pose proof (rne_bounds m n Hn).
  assert (0 <= m / 2 ^ n) by (apply Z.div_pos; [lia | apply pow2_pos; lia]).
  lia.
Qed.

Lemma binary_round_aux_noshift (s : bool) (p : positive) (E : Z) :
  fexp64 (Zpos (digits2_pos p) + E) = E ->
  binary_round_aux prec emax s (Zpos p) E loc_Exact
  = if E <=? 971 then S754_finite s p E else S754_infinity s.
Proof.
  intros HE. unfold binary_round_aux, shr_fexp.
  cbn [Zdigits2 shr_record_of_loc]. rewrite fexp_fexp64, HE, Z.sub_diag.
  cbn [shr shr_m loc_of_shr_record round_nearest_even Zdigits2].
  rewrite fexp_fexp64, HE, Z.sub_diag.
  cbn [shr shr_m]. reflexivity.
Qed.

Lemma binary_round_aux_shift (s : bool) (m : positive) (e : Z) :
  e <= fexp64 (Zpos (digits2_pos m) + e) ->
  binary_round_aux prec emax s (Zpos m) e loc_Exact
  = canon s (rne (Zpos m) (fexp64 (Zpos (digits2_pos m) + e) - e))
            (fexp64 (Zpos (digits2_pos m) + e)).
Proof.
  intros Hle. set (E := fexp64 (Zpos (digits2_pos m) + e)) in *.
  set (n := E - e). assert (Hn : 0 <= n) by (unfold n; lia).
  pose proof (shr_rne (Zpos m) e n ltac:(lia) Hn) as Hshr.
  unfold binary_round_aux, shr_fexp.
  cbn [Zdigits2 shr_record_of_loc]. rewrite fexp_fexp64. fold E. fold n.
  destruct (shr (Build_shr_record (Zpos m) false false) e n) as [r e'].
  destruct Hshr as (-> & _ & Hq). rewrite Hq.
  replace (e + n) with E by (unfold n; lia).
  set (q := rne (Zpos m) n) in *.
  pose proof (rne_nonneg (Zpos m) n ltac:(lia) Hn) as Hq0. fold q in Hq0.
  pose proof (rne_upper m n Hn) as Hqu. fold q in Hqu.
  pose proof (digits2_pos_bounds m) as [Hd1 Hd2].
  assert (HE : E = Zpos (digits2_pos m) + e - 53 \/
               (E = -1074 /\ Zpos (digits2_pos m) + e - 53 < -1074)).
  { unfold E, fexp64. lia. }
  assert (HEge : -1074 <= E) by (unfold E, fexp64; lia).
  cbn [shr_record_of_loc].
  destruct q as [|p|p] eqn:Eq; [| |lia].
  - (* zero *)
    cbn [Zdigits2]. rewrite fexp_fexp64.
    assert (Hz : fexp64 (0 + E) - E <= 0) by (unfold fexp64; lia).
    unfold shr. destruct (fexp64 (0 + E) - E) as [|z|z] eqn:Ez; [| lia |];
      reflexivity.
  - cbn [Zdigits2]. rewrite fexp_fexp64.
    pose proof (digits2_pos_bounds p) as [Hp1 Hp2].
    destruct (Z.eqb_spec (Zpos p) (2 ^ 53)) as [H53 | H53].
    + (* the mantissa was rounded up to 2^53 *)
      assert (Hdp : Zpos (digits2_pos p) = 54).
      { apply digits2_pos_unique. rewrite H53. simpl. lia. }
      assert (HE1 : fexp64 (Zpos (digits2_pos p) + E) - E = 1).
      { rewrite Hdp. unfold fexp64. unfold E, fexp64. lia. }
      rewrite HE1. unfold canon. rewrite H53. rewrite Z.eqb_refl.
      assert (Hp : p = (2 ^ 53)%positive) by (apply Pos2Z.inj; rewrite H53; reflexivity).
      subst p. reflexivity.
    + assert (Hlt : Zpos p < 2 ^ 53).
      { destruct HE as [HE | [HE Hs]].
        - assert (Zpos (digits2_pos m) - n = 53) by (unfold n; lia).
          rewrite Z.max_l in Hqu by lia.
          replace (Zpos (digits2_pos m) - n) with 53 in Hqu by lia. lia.
        - assert (Hmx : Z.max (Zpos (digits2_pos m) - n) 0 <= 52) by (unfold n; lia).
          assert (2 ^ Z.max (Zpos (digits2_pos m) - n) 0 <= 2 ^ 52)
            by (apply Z.pow_le_mono_r; lia).
          assert (2 ^ 52 < 2 ^ 53) by (simpl; lia). lia. }
      assert (Hdp : Zpos (digits2_pos p) <= 53).
      { destruct (Z.le_gt_cases (Zpos (digits2_pos p)) 53) as [|Hgt]; [assumption|].
        assert (2 ^ 53 <= 2 ^ (Zpos (digits2_pos p) - 1)) by (apply Z.pow_le_mono_r; lia).
        lia. }
      assert (HE0 : fexp64 (Zpos (digits2_pos p) + E) - E = 0).
      { destruct HE as [HE | [HE Hs]].
        - assert (Hdn : Zpos (digits2_pos m) - 1 - n = 52) by (unfold n; lia).
          pose proof (rne_lower m n ltac:(unfold n; lia)) as Hl. fold q in Hl.
          rewrite Eq, Hdn in Hl.
          assert (Zpos (digits2_pos p) = 53).
          { apply digits2_pos_unique. simpl Z.sub. lia. }
          unfold fexp64. unfold E, fexp64 in *. lia.
        - unfold fexp64. lia. }
      rewrite HE0. cbn [shr shr_m]. unfold canon.
      destruct (Z.eqb_spec (Zpos p) (2 ^ 53)); [contradiction|]. reflexivity.
Qed.

Lemma binary_round_eq (s : bool) (m : positive) (e : Z) :
  binary_round prec emax s m e = round_dyadic s m e.
Proof.
  unfold binary_round, round_dyadic, round_mantissa.
  rewrite fexp_fexp64. set (E := fexp64 (Zpos (digits2_pos m) + e)).
  unfold shl_align.
  destruct (Z.leb_spec E e) as [Hle | Hgt].
  - destruct (E - e) as [|d|d] eqn:Ed.
    + assert (E = e) by lia.
      rewrite binary_round_aux_shift; fold E; [|lia].
      replace (E - e) with 0 by lia. replace (e - E) with 0 by lia.
      rewrite Z.pow_0_r, Z.mul_1_r.
      rewrite <- (rne_exact (Zpos m) 0) at 2 by lia. rewrite Z.pow_0_r, Z.mul_1_r.
      reflexivity.
    + lia.
    + (* the mantissa is shifted left *)
      assert (Hd : e - E = Zpos d) by lia.
      rewrite Hd. pose proof (Pos_iter_xO m d) as Hmz.
      set (mz := Pos.iter xO m d) in *.
      pose proof (digits2_shift m (Zpos d) mz ltac:(lia) Hmz) as Hdz.
      assert (HEz : fexp64 (Zpos (digits2_pos mz) + E) = E).
      { rewrite Hdz. replace (Zpos (digits2_pos m) + Zpos d + E)
          with (Zpos (digits2_pos m) + e) by lia. reflexivity. }
      rewrite binary_round_aux_noshift by exact HEz.
      rewrite <- Hmz. unfold canon.
      assert (Hlt : Zpos mz < 2 ^ 53).
      { pose proof (digits2_pos_bounds mz) as [_ H2].
        assert (Zpos (digits2_pos mz) <= 53).
        { rewrite Hdz. unfold E, fexp64 in *. lia. }
        assert (2 ^ Zpos (digits2_pos mz) <= 2 ^ 53) by (apply Z.pow_le_mono_r; lia).
        lia. }
      destruct (Z.eqb_spec (Zpos mz) (2 ^ 53)); [lia|]. reflexivity.
  - destruct (E - e) as [|d|d] eqn:Ed; try lia.
    rewrite binary_round_aux_shift; fold E; [|lia].
    rewrite Ed. reflexivity.
Qed.

(** ** Powers of two and dyadic numbers in Q *)

Lemma pow2_gt0 (e : Z) : (0 < pow2 e)%Q.
Proof. apply Qpower_0_lt. reflexivity. Qed.

Lemma pow2_add (x y : Z) : (pow2 (x + y) == pow2 x * pow2 y)%Q.
Proof. apply Qpower_plus. discriminate. Qed.

Lemma pow2_le (x y : Z) : x <= y -> (pow2 x <= pow2 y)%Q.
Proof. intros H. apply Qpower_le_compat_l; [exact H | discriminate]. Qed.

Lemma pow2_lt (x y : Z) : x < y -> (pow2 x < pow2 y)%Q.
Proof. intros H. apply Qpower_lt_compat_l; [exact H | reflexivity]. Qed.

Lemma pow2_lt_inv (x y : Z) : (pow2 x < pow2 y)%Q -> x < y.
Proof. intros H. apply (Qpower_lt_compat_l_inv 2); [exact H | reflexivity]. Qed.

Lemma pow2_le_inv (x y : Z) : (pow2 x <= pow2 y)%Q -> x <= y.
Proof. intros H. apply (Qpower_le_compat_l_inv 2); [exact H | reflexivity]. Qed.

Lemma pow2_Z (n : Z) : 0 <= n -> (inject_Z (2 ^ n) == pow2 n)%Q.
Proof. intros H. apply (Zpower_Qpower 2 n H). Qed.

Lemma pow2_0 : (pow2 0 == 1)%Q.
Proof. reflexivity. Qed.

Lemma pow2_S_Q (e : Z) : (pow2 (e + 1) == 2 * pow2 e)%Q.
Proof. rewrite pow2_add. change (pow2 1) with 2%Q. ring. Qed.

Lemma pow2_pred (e : Z) : (pow2 (e - 1) == pow2 e / 2)%Q.
Proof.
  replace e with ((e - 1) + 1) at 2 by lia.
  rewrite pow2_S_Q. field.
Qed.

Lemma dval_shift (N e j : Z) : 0 <= j -> (dval (N * 2 ^ j) (e - j) == dval N e)%Q.
Proof.
  intros Hj. unfold dval.
  rewrite inject_Z_mult, (pow2_Z j Hj).
  replace e with ((e - j) + j) at 2 by lia. rewrite (pow2_add (e - j) j). ring.
Qed.

Lemma dval_le (N1 N2 e : Z) : (dval N1 e <= dval N2 e)%Q <-> N1 <= N2.
Proof.
  unfold dval. rewrite Zle_Qle. apply Qmult_le_r, pow2_gt0.
Qed.

Lemma dval_lt (N1 N2 e : Z) : (dval N1 e < dval N2 e)%Q <-> N1 < N2.
Proof.
  unfold dval. rewrite Zlt_Qlt. apply Qmult_lt_r, pow2_gt0.
Qed.

Lemma dval_0 (e : Z) : (dval 0 e == 0)%Q.
Proof. unfold dval. ring. Qed.

Lemma dval_pow2 (n e : Z) : 0 <= n -> (dval (2 ^ n) e == pow2 (n + e))%Q.
Proof. intros Hn. unfold dval. rewrite (pow2_Z n Hn), pow2_add. reflexivity. Qed.

(** A positive dyadic lies in the binade its digits give. *)
Lemma dval_binade (m : positive) (e : Z) :
  (pow2 (Zpos (digits2_pos m) + e - 1) <= dval (Zpos m) e
   /\ dval (Zpos m) e < pow2 (Zpos (digits2_pos m) + e))%Q.
Proof.
  pose proof (digits2_pos_bounds m) as [H1 H2].
  split.
  - replace (Zpos (digits2_pos m) + e - 1) with ((Zpos (digits2_pos m) - 1) + e) by lia.
    rewrite <- dval_pow2 by lia. apply dval_le. exact H1.
  - rewrite <- dval_pow2 by lia. apply dval_lt. exact H2.
Qed.

(** ** The value of a rounded dyadic *)

Lemma rexp_cases (m : positive) (e : Z) :
  rexp m e = Zpos (digits2_pos m) + e - 53 /\ -1074 <= rexp m e
  \/ rexp m e = -1074 /\ Zpos (digits2_pos m) + e - 53 < -1074.
Proof. unfold rexp, fexp64. lia. Qed.

Lemma round_mantissa_rne (m : positive) (e e0 : Z) :
  e0 <= e -> e0 <= rexp m e ->
  round_mantissa m e = rne (Zpos m * 2 ^ (e - e0)) (rexp m e - e0).
Proof.
  intros H1 H2. unfold round_mantissa. fold (rexp m e).
  destruct (Z.leb_spec (rexp m e) e) as [Hle | Hgt].
  - replace (Zpos m * 2 ^ (e - e0))
      with (Zpos m * 2 ^ (e - rexp m e) * 2 ^ (rexp m e - e0)).
    + rewrite rne_exact by lia. reflexivity.
    + rewrite <- Z.mul_assoc, <- Z.pow_add_r by lia. f_equal. f_equal. lia.
  - replace (rexp m e - e0) with ((rexp m e - e) + (e - e0)) by lia.
    rewrite rne_shift by lia. reflexivity.
Qed.

Lemma round_mantissa_range (m : positive) (e : Z) :
  0 <= round_mantissa m e <= 2 ^ 53
  /\ (-1074 < rexp m e -> 2 ^ 52 <= round_mantissa m e).
Proof.
  pose proof (digits2_pos_bounds m) as [Hd1 Hd2].
  pose proof (rexp_cases m e) as HE.
  unfold round_mantissa. fold (rexp m e).
  destruct (Z.leb_spec (rexp m e) e) as [Hle | Hgt].
  - pose proof (pow2_pos (e - rexp m e) ltac:(lia)) as Hp.
    assert (Hub : Zpos m * 2 ^ (e - rexp m e) < 2 ^ 53).
    { apply Z.lt_le_trans with (2 ^ Zpos (digits2_pos m) * 2 ^ (e - rexp m e)); [nia|].
      rewrite <- Z.pow_add_r by lia. apply Z.pow_le_mono_r; lia. }
    split; [nia|]. intros Hn.
    assert (Hx : rexp m e = Zpos (digits2_pos m) + e - 53) by lia.
    apply Z.le_trans with (2 ^ (Zpos (digits2_pos m) - 1) * 2 ^ (e - rexp m e)); [|nia].
    rewrite <- Z.pow_add_r by lia. apply Z.pow_le_mono_r; lia.
  - pose proof (rne_nonneg (Zpos m) (rexp m e - e) ltac:(lia) ltac:(lia)).
    pose proof (rne_upper m (rexp m e - e) ltac:(lia)) as Hu.
    assert (2 ^ Z.max (Zpos (digits2_pos m) - (rexp m e - e)) 0 <= 2 ^ 53)
      by (apply Z.pow_le_mono_r; lia).
    split; [lia|]. intros Hn.
    assert (Hx : rexp m e = Zpos (digits2_pos m) + e - 53) by lia.
    pose proof (rne_lower m (rexp m e - e) ltac:(lia)) as Hl.
    replace (Zpos (digits2_pos m) - 1 - (rexp m e - e)) with 52 in Hl by lia.
    exact Hl.
Qed.

Lemma rvalue_exact (m : positive) (e : Z) :
  rexp m e <= e -> (rvalue m e == dval (Zpos m) e)%Q.
Proof.
  intros Hle. unfold rvalue, round_mantissa. fold (rexp m e).
  destruct (Z.leb_spec (rexp m e) e); [|lia].
  rewrite <- (dval_shift (Zpos m) e (e - rexp m e)) by lia.
  replace (e - (e - rexp m e)) with (rexp m e) by lia. reflexivity.
Qed.

Lemma rvalue_error (m : positive) (e : Z) :
  (Qabs (rvalue m e - dval (Zpos m) e) <= pow2 (rexp m e - 1))%Q.
Proof.
  destruct (Z.le_gt_cases (rexp m e) e) as [Hle | Hgt].
  - rewrite (rvalue_exact m e Hle).
    setoid_replace (dval (Zpos m) e - dval (Zpos m) e)%Q with 0%Q by ring.
    simpl Qabs. apply Qlt_le_weak, pow2_gt0.
  - unfold rvalue, round_mantissa. fold (rexp m e).
    destruct (Z.leb_spec (rexp m e) e); [lia|].
    set (n := rexp m e - e). assert (Hn : 0 <= n) by (unfold n; lia).
    pose proof (rne_error (Zpos m) n Hn) as Herr.
    set (q := rne (Zpos m) n) in *.
    assert (Hq : (dval q (rexp m e) == dval (2 ^ (n + 1) * q) (e - 1))%Q).
    { rewrite <- (dval_shift q (rexp m e) (n + 1)) by lia.
      replace (rexp m e - (n + 1)) with (e - 1) by (unfold n; lia).
      rewrite Z.mul_comm. reflexivity. }
    assert (Hm : (dval (Zpos m) e == dval (2 * Zpos m) (e - 1))%Q).
    { rewrite <- (dval_shift (Zpos m) e 1) by lia.
      rewrite Z.mul_comm. reflexivity. }
    assert (Hp : (pow2 (rexp m e - 1) == dval (2 ^ n) (e - 1))%Q).
    { rewrite dval_pow2 by lia. replace (n + (e - 1)) with (rexp m e - 1) by (unfold n; lia).
      reflexivity. }
    rewrite Hq, Hm, Hp.
    apply Qabs_Qle_condition. split.
    + assert (H1 : (dval (2 * Zpos m + - 2 ^ n) (e - 1) <= dval (2 ^ (n + 1) * q) (e - 1))%Q)
        by (apply dval_le; lia).
      unfold dval in *. rewrite inject_Z_plus, inject_Z_opp in H1. lra.
    + assert (H1 : (dval (2 ^ (n + 1) * q) (e - 1) <= dval (2 * Zpos m + 2 ^ n) (e - 1))%Q)
        by (apply dval_le; lia).
      unfold dval in *. rewrite inject_Z_plus in H1. lra.
Qed.

Lemma rvalue_mono (m1 m2 : positive) (e1 e2 : Z) :
  (dval (Zpos m1) e1 <= dval (Zpos m2) e2)%Q -> (rvalue m1 e1 <= rvalue m2 e2)%Q.
Proof.
  intros Hle.
  pose proof (dval_binade m1 e1) as [Hb1 _].
  pose proof (dval_binade m2 e2) as [_ Hb2].
  assert (HD : Zpos (digits2_pos m1) + e1 <= Zpos (digits2_pos m2) + e2).
  { assert (Hlt : (pow2 (Zpos (digits2_pos m1) + e1 - 1)
                   < pow2 (Zpos (digits2_pos m2) + e2))%Q) by lra.
    apply pow2_lt_inv in Hlt. lia. }
  assert (HE : rexp m1 e1 <= rexp m2 e2) by (unfold rexp, fexp64; lia).
  pose proof (round_mantissa_range m1 e1) as [[_ Hu1] _].
  pose proof (round_mantissa_range m2 e2) as [_ Hl2].
  unfold rvalue.
  destruct (Z.eq_dec (rexp m1 e1) (rexp m2 e2)) as [Heq | Hne].
  - set (e0 := Z.min (Z.min e1 e2) (rexp m1 e1)).
    rewrite (round_mantissa_rne m1 e1 e0) by (unfold e0; lia).
    rewrite (round_mantissa_rne m2 e2 e0) by (unfold e0; lia).
    rewrite <- Heq. apply dval_le. apply rne_mono; [unfold e0; lia|].
    apply (dval_le _ _ e0).
    rewrite <- (dval_shift (Zpos m1) e1 (e1 - e0)) in Hle by (unfold e0; lia).
    rewrite <- (dval_shift (Zpos m2) e2 (e2 - e0)) in Hle by (unfold e0; lia).
    replace (e1 - (e1 - e0)) with e0 in Hle by lia.
    replace (e2 - (e2 - e0)) with e0 in Hle by lia.
    exact Hle.
  - assert (Hlt : rexp m1 e1 < rexp m2 e2) by lia.
    pose proof (rexp_cases m1 e1) as H1.
    specialize (Hl2 ltac:(lia)).
    apply Qle_trans with (dval (2 ^ 53) (rexp m1 e1)); [apply dval_le; exact Hu1|].
    apply Qle_trans with (dval (2 ^ 52) (rexp m2 e2)); [|apply dval_le; exact Hl2].
    rewrite !dval_pow2 by lia. apply pow2_le. lia.
Qed.

(** ** Order and values of spec floats *)

Lemma SF2Q_finite (s : bool) (m : positive) (e : Z) :
  SF2Q (S754_finite s m e) = dval (cond_Zopp s (Zpos m)) e.
Proof. reflexivity. Qed.

Lemma bounded_canonical (m : positive) (e : Z) :
  bounded prec emax m e = true ->
  Zpos (digits2_pos m) <= 53 /\ -1074 <= e <= 971
  /\ (e = -1074 \/ Zpos (digits2_pos m) = 53).
Proof.
  unfold bounded, canonical_mantissa. rewrite fexp_fexp64.
  intros H. apply andb_true_iff in H as [H1 H2].
  apply Z.eqb_eq in H1. apply Z.leb_le in H2.
  change (emax - prec) with 971 in H2. unfold fexp64 in H1. lia.
Qed.

Lemma bounded_value (m : positive) (e : Z) :
  bounded prec emax m e = true ->
  (0 < dval (Zpos m) e /\ dval (Zpos m) e < pow2 1024)%Q.
Proof.
  intros H. apply bounded_canonical in H as (Hd & He & _).
  pose proof (dval_binade m e) as [H1 H2]. split.
  - pose proof (pow2_gt0 (Zpos (digits2_pos m) + e - 1)). lra.
  - apply Qlt_le_trans with (pow2 (Zpos (digits2_pos m) + e)); [exact H2|].
    apply pow2_le. lia.
Qed.

Lemma dval_opp (N e : Z) : (dval (- N) e == - dval N e)%Q.
Proof. unfold dval. rewrite inject_Z_opp. ring. Qed.

Lemma Qcompare_Lt (x y : Q) : (x < y)%Q -> Qcompare x y = Lt.
Proof. apply (proj1 (Qlt_alt x y)). Qed.

Lemma Qcompare_Gt (x y : Q) : (y < x)%Q -> Qcompare x y = Gt.
Proof. apply (proj1 (Qgt_alt x y)). Qed.

Lemma Qcompare_Eq (x y : Q) : (x == y)%Q -> Qcompare x y = Eq.
Proof. apply (proj1 (Qeq_alt x y)). Qed.

(** Two canonical positive floats compare as their exponents, then their
    mantissas. *)
Lemma bounded_compare (m1 m2 : positive) (e1 e2 : Z) :
  bounded prec emax m1 e1 = true -> bounded prec emax m2 e2 = true ->
  match Z.compare e1 e2 with
  | Lt => Lt
  | Gt => Gt
  | Eq => Pos.compare_cont Eq m1 m2
  end = Qcompare (dval (Zpos m1) e1) (dval (Zpos m2) e2).
Proof.
  intros H1 H2.
  apply bounded_canonical in H1 as (Hd1 & He1 & Hc1).
  apply bounded_canonical in H2 as (Hd2 & He2 & Hc2).
  pose proof (dval_binade m1 e1) as [Hl1 Hu1].
  pose proof (dval_binade m2 e2) as [Hl2 Hu2].
  destruct (Z.compare_spec e1 e2) as [Heq | Hlt | Hgt]; symmetry.
  - subst e2. change (Pos.compare_cont Eq m1 m2) with (Pos.compare m1 m2).
    destruct (Pos.compare_spec m1 m2) as [-> | Hm | Hm].
    + apply Qcompare_Eq. reflexivity.
    + apply Qcompare_Lt. apply dval_lt. lia.
    + apply Qcompare_Gt. apply dval_lt. lia.
  - apply Qcompare_Lt.
    apply Qlt_le_trans with (pow2 (Zpos (digits2_pos m1) + e1)); [exact Hu1|].
    apply Qle_trans with (pow2 (Zpos (digits2_pos m2) + e2 - 1)); [|exact Hl2].
    apply pow2_le. lia.
  - apply Qcompare_Gt.
    apply Qlt_le_trans with (pow2 (Zpos (digits2_pos m2) + e2)); [exact Hu2|].
    apply Qle_trans with (pow2 (Zpos (digits2_pos m1) + e1 - 1)); [|exact Hl1].
    apply pow2_le. lia.
Qed.

Lemma Qcompare_opp (x y : Q) : Qcompare (- x) (- y) = CompOpp (Qcompare x y).
Proof.
  destruct (Qcompare_spec x y) as [H | H | H]; cbn [CompOpp].
  - apply Qcompare_Eq. rewrite H. reflexivity.
  - apply Qcompare_Gt. lra.
  - apply Qcompare_Lt. lra.
Qed.

Ltac cmp_solve :=
  f_equal; symmetry;
  first [ apply Qcompare_Eq; reflexivity
        | apply Qcompare_Lt; lra
        | apply Qcompare_Gt; lra ].

Theorem SFcompare_SFX (x y : spec_float) :
  valid_binary x = true -> valid_binary y = true ->
  SFnotnan x = true -> SFnotnan y = true ->
  SFcompare x y = Some (Qcompare (SFX x) (SFX y)).
Proof.
  intros Vx Vy Nx Ny.
  pose proof (pow2_gt0 1024) as Hbig.
  destruct x as [sx | sx | | sx mx ex]; [| | discriminate |];
  destruct y as [sy | sy | | sy my ey]; try discriminate;
  cbn [SFcompare SFX valid_binary] in *; rewrite ?SF2Q_finite; cbn [SF2Q];
  try (pose proof (bounded_value _ _ Vx) as [Hx0 Hx1]);
  try (pose proof (bounded_value _ _ Vy) as [Hy0 Hy1]);
  try destruct sx; try destruct sy; cbn [cond_Zopp];
  try change (Z.opp (Zpos mx)) with (- Zpos mx);
  try change (Z.opp (Zpos my)) with (- Zpos my);
  rewrite ?dval_opp; try cmp_solve.
  - rewrite Qcompare_opp, <- bounded_compare by assumption.
    destruct (ex ?= ey); reflexivity.
  - f_equal. apply bounded_compare; assumption.
Qed.

(** ** The float a rounded mantissa gives *)

Lemma round_precanonical (m : positive) (e : Z) :
  precanonical (round_mantissa m e) (rexp m e).
Proof.
  pose proof (round_mantissa_range m e) as [H1 H2].
  pose proof (rexp_cases m e). unfold precanonical. lia.
Qed.

Lemma digits2_pos_le53 (p : positive) :
  Zpos p < 2 ^ 53 -> Zpos (digits2_pos p) <= 53.
Proof.
  intros Hlt. pose proof (digits2_pos_bounds p) as [H1 _].
  destruct (Z.le_gt_cases (Zpos (digits2_pos p)) 53) as [|Hgt]; [assumption|].
  assert (2 ^ 53 <= 2 ^ (Zpos (digits2_pos p) - 1)) by (apply Z.pow_le_mono_r; lia).
  lia.
Qed.

Lemma digits2_pos_eq53 (p : positive) :
  2 ^ 52 <= Zpos p < 2 ^ 53 -> Zpos (digits2_pos p) = 53.
Proof. intros H. apply digits2_pos_unique. exact H. Qed.

Lemma bounded_intro (p : positive) (E : Z) :
  Zpos p < 2 ^ 53 -> -1074 <= E <= 971 -> (-1074 < E -> 2 ^ 52 <= Zpos p) ->
  bounded prec emax p E = true.
Proof.
  intros Hlt HE Hn. unfold bounded, canonical_mantissa. rewrite fexp_fexp64.
  apply andb_true_iff. split; [|apply Z.leb_le; change (emax - prec) with 971; lia].
  apply Z.eqb_eq. pose proof (digits2_pos_le53 p Hlt).
  unfold fexp64. destruct (Z.eq_dec E (-1074)) as [-> | Hne]; [lia|].
  rewrite (digits2_pos_eq53 p) by lia. lia.
Qed.

Lemma canon_valid (s : bool) (q E : Z) :
  precanonical q E -> valid_binary (canon s q E) = true.
Proof.
  intros (Hq & HE & Hn). unfold canon.
  destruct q as [|p|p]; [reflexivity | | lia].
  destruct (Z.eqb_spec (Zpos p) (2 ^ 53)) as [H53 | H53].
  - destruct (Z.leb_spec (E + 1) 971); [|reflexivity].
    cbn [valid_binary]. apply bounded_intro; [reflexivity | lia | reflexivity].
  - destruct (Z.leb_spec E 971); [|reflexivity].
    cbn [valid_binary]. apply bounded_intro; lia.
Qed.

Lemma canon_notnan (s : bool) (q E : Z) :
  0 <= q -> SFnotnan (canon s q E) = true.
Proof.
  intros Hq. unfold canon. destruct q as [|p|p]; [reflexivity | | lia].
  destruct (_ =? _); destruct (_ <=? _); reflexivity.
Qed.

Lemma clamp_mono (v w : Q) : (v <= w)%Q -> (clamp v <= clamp w)%Q.
Proof.
  intros H. unfold clamp.
  destruct (Qlt_le_dec v (pow2 1024)); destruct (Qlt_le_dec w (pow2 1024)); lra.
Qed.

#[global] Instance clamp_proper : Proper (Qeq ==> Qeq) clamp.
Proof.
  intros v w H. unfold clamp.
  destruct (Qlt_le_dec v (pow2 1024)); destruct (Qlt_le_dec w (pow2 1024)); lra.
Qed.

Lemma clamp_small (v : Q) : (v < pow2 1024)%Q -> (clamp v == v)%Q.
Proof.
  intros H. unfold clamp. destruct (Qlt_le_dec v (pow2 1024)); [reflexivity | lra].
Qed.

Lemma clamp_big (v : Q) : (pow2 1024 <= v)%Q -> (clamp v == pow2 1024)%Q.
Proof.
  intros H. unfold clamp. destruct (Qlt_le_dec v (pow2 1024)); [lra | reflexivity].
Qed.

Lemma canon_SFX_pos (q E : Z) :
  precanonical q E -> (SFX (canon false q E) == clamp (dval q E))%Q.
Proof.
  intros (Hq & HE & Hn). unfold canon.
  destruct q as [|p|p]; [| | lia].
  - cbn [SFX SF2Q]. rewrite dval_0. pose proof (pow2_gt0 1024).
    rewrite clamp_small by lra. reflexivity.
  - destruct (Z.eqb_spec (Zpos p) (2 ^ 53)) as [H53 | H53].
    + rewrite H53.
      assert (Hv : (dval (2 ^ 53) E == pow2 (53 + E))%Q) by (apply dval_pow2; lia).
      rewrite Hv.
      destruct (Z.leb_spec (E + 1) 971) as [Hle | Hgt].
      * cbn [SFX]. rewrite SF2Q_finite. cbn [cond_Zopp].
        change (Zpos (2 ^ 52)) with (2 ^ 52). rewrite dval_pow2 by lia.
        replace (52 + (E + 1)) with (53 + E) by lia.
        rewrite clamp_small by (apply pow2_lt; lia). reflexivity.
      * rewrite clamp_big by (apply pow2_le; lia). reflexivity.
    + destruct (Z.leb_spec E 971) as [Hle | Hgt].
      * cbn [SFX]. rewrite SF2Q_finite. cbn [cond_Zopp].
        assert (Hb : bounded prec emax p E = true) by (apply bounded_intro; lia).
        apply bounded_value in Hb as [_ Hb].
        rewrite clamp_small by exact Hb. reflexivity.
      * rewrite clamp_big; [reflexivity|].
        apply Qle_trans with (dval (2 ^ 52) E); [|apply dval_le; lia].
        rewrite dval_pow2 by lia. apply pow2_le. lia.
Qed.

Lemma canon_opp (q E : Z) : canon true q E = SFopp (canon false q E).
Proof.
  unfold canon. destruct q; try reflexivity.
  destruct (_ =? _); destruct (_ <=? _); reflexivity.
Qed.

Lemma SFX_opp (x : spec_float) : (SFX (SFopp x) == - SFX x)%Q.
Proof.
  destruct x as [s | s | | s m e]; cbn [SFopp SFX]; rewrite ?SF2Q_finite;
    try destruct s; cbn [negb cond_Zopp SF2Q]; try ring.
  - change (Z.opp (Zpos m)) with (- Zpos m). rewrite dval_opp. ring.
  - change (Z.opp (Zpos m)) with (- Zpos m). rewrite dval_opp. ring.
Qed.

Lemma canon_SFX_neg (q E : Z) :
  precanonical q E -> (SFX (canon true q E) == - clamp (dval q E))%Q.
Proof.
  intros H. rewrite canon_opp, SFX_opp, canon_SFX_pos by exact H. reflexivity.
Qed.

(** ** Rounding a signed dyadic: [binary_normalize] *)

Lemma round_dyadic_SFX (s : bool) (m : positive) (e : Z) :
  (SFX (round_dyadic s m e)
   == if s then - clamp (rvalue m e) else clamp (rvalue m e))%Q.
Proof.
  unfold round_dyadic. fold (rexp m e). unfold rvalue.
  destruct s; [apply canon_SFX_neg | apply canon_SFX_pos]; apply round_precanonical.
Qed.

Lemma round_dyadic_valid (s : bool) (m : positive) (e : Z) :
  valid_binary (round_dyadic s m e) = true
  /\ SFnotnan (round_dyadic s m e) = true.
Proof.
  unfold round_dyadic. fold (rexp m e).
  pose proof (round_precanonical m e) as H. split.
  - apply canon_valid, H.
  - apply canon_notnan. destruct H as [[H _] _]. exact H.
Qed.

Lemma binary_normalize_SFX (N e : Z) (sz : bool) :
  (SFX (binary_normalize prec emax N e sz) == rndX N e)%Q.
Proof.
  unfold binary_normalize, rndX. destruct N as [|m|m].
  - reflexivity.
  - rewrite binary_round_eq. apply (round_dyadic_SFX false).
  - rewrite binary_round_eq. apply (round_dyadic_SFX true).
Qed.

Lemma binary_normalize_valid (N e : Z) (sz : bool) :
  valid_binary (binary_normalize prec emax N e sz) = true
  /\ SFnotnan (binary_normalize prec emax N e sz) = true.
Proof.
  unfold binary_normalize. destruct N as [|m|m].
  - split; reflexivity.
  - rewrite binary_round_eq. apply round_dyadic_valid.
  - rewrite binary_round_eq. apply round_dyadic_valid.
Qed.

Lemma rvalue_nonneg (m : positive) (e : Z) : (0 <= rvalue m e)%Q.
Proof.
  unfold rvalue. pose proof (round_precanonical m e) as [[H _] _].
  rewrite <- (dval_0 (rexp m e)). apply dval_le. exact H.
Qed.

Lemma clamp_nonneg (v : Q) : (0 <= v)%Q -> (0 <= clamp v)%Q.
Proof.
  intros H. unfold clamp. pose proof (pow2_gt0 1024).
  destruct (Qlt_le_dec v (pow2 1024)); lra.
Qed.

Lemma dval_pos (m : positive) (e : Z) : (0 < dval (Zpos m) e)%Q.
Proof. rewrite <- (dval_0 e). apply dval_lt. lia. Qed.

Lemma dval_neg (m : positive) (e : Z) : (dval (Zneg m) e == - dval (Zpos m) e)%Q.
Proof. change (Zneg m) with (- Zpos m). apply dval_opp. Qed.

Theorem rndX_mono (N1 N2 e1 e2 : Z) :
  (dval N1 e1 <= dval N2 e2)%Q -> (rndX N1 e1 <= rndX N2 e2)%Q.
Proof.
  intros H. unfold rndX.
  destruct N1 as [|m1|m1]; destruct N2 as [|m2|m2];
    rewrite ?dval_neg, ?dval_0 in H;
    try pose proof (dval_pos m1 e1); try pose proof (dval_pos m2 e2);
    try pose proof (clamp_nonneg _ (rvalue_nonneg m1 e1));
    try pose proof (clamp_nonneg _ (rvalue_nonneg m2 e2));
    try lra.
  - apply clamp_mono, rvalue_mono. exact H.
  - assert (H' : (clamp (rvalue m2 e2) <= clamp (rvalue m1 e1))%Q)
      by (apply clamp_mono, rvalue_mono; lra).
    lra.
Qed.

(** The error of a rounding that does not overflow: at most [2^-53] of the
    number rounded, or half the least subnormal where the dyadic has bits
    below it. *)
Theorem rndX_error (N e : Z) :
  (Qabs (rndX N e) < pow2 1024)%Q ->
  (Qabs (rndX N e - dval N e)
   <= Qabs (dval N e) * pow2 (-53)
      + (if -1074 <=? e then 0 else pow2 (-1075)))%Q.
Proof.
  assert (Hpos : forall m : positive,
    (clamp (rvalue m e) < pow2 1024)%Q ->
    (Qabs (rvalue m e - dval (Zpos m) e)
     <= dval (Zpos m) e * pow2 (-53)
        + (if -1074 <=? e then 0 else pow2 (-1075)))%Q
    /\ (clamp (rvalue m e) == rvalue m e)%Q).
  { intros m Hc.
    assert (Hr : (rvalue m e < pow2 1024)%Q).
    { unfold clamp in Hc. destruct (Qlt_le_dec (rvalue m e) (pow2 1024)); lra. }
    split; [|apply clamp_small; exact Hr].
    pose proof (dval_pos m e) as Hx.
    pose proof (pow2_gt0 (-53)) as H53. pose proof (pow2_gt0 (-1075)) as H1075.
    assert (Hxp : (0 <= dval (Zpos m) e * pow2 (-53))%Q)
      by (apply Qmult_le_0_compat; lra).
    destruct (Z.le_gt_cases (rexp m e) e) as [Hle | Hgt].
    - rewrite (rvalue_exact m e Hle).
      setoid_replace (dval (Zpos m) e - dval (Zpos m) e)%Q with 0%Q by ring.
      simpl Qabs. destruct (-1074 <=? e); lra.
    - pose proof (rvalue_error m e) as Herr.
      destruct (rexp_cases m e) as [[HE _] | [HE Hs]].
      + pose proof (dval_binade m e) as [Hl _].
        assert (Hp : (pow2 (rexp m e - 1)
                      == pow2 (Zpos (digits2_pos m) + e - 1) * pow2 (-53))%Q).
        { rewrite <- pow2_add. replace (Zpos (digits2_pos m) + e - 1 + -53)
            with (rexp m e - 1) by lia. reflexivity. }
        assert (Hm : (pow2 (Zpos (digits2_pos m) + e - 1) * pow2 (-53)
                      <= dval (Zpos m) e * pow2 (-53))%Q)
          by (apply Qmult_le_compat_r; lra).
        destruct (-1074 <=? e); lra.
      + destruct (Z.leb_spec (-1074) e); [lia|].
        rewrite HE in Herr. change (-1074 - 1) with (-1075) in Herr. lra. }
  intros Hc. unfold rndX in *. destruct N as [|m|m].
  - rewrite dval_0. setoid_replace (0 - 0)%Q with 0%Q by ring. simpl Qabs.
    pose proof (pow2_gt0 (-1075)).
    setoid_replace (0 * pow2 (-53))%Q with 0%Q by ring.
    destruct (-1074 <=? e); lra.
  - pose proof (clamp_nonneg _ (rvalue_nonneg m e)) as Hn.
    rewrite (Qabs_pos _ Hn) in Hc. destruct (Hpos m Hc) as [He Hcl].
    rewrite Hcl. rewrite (Qabs_pos (dval (Zpos m) e)) by (pose proof (dval_pos m e); lra).
    exact He.
  - pose proof (clamp_nonneg _ (rvalue_nonneg m e)) as Hn.
    rewrite Qabs_opp, (Qabs_pos _ Hn) in Hc. destruct (Hpos m Hc) as [He Hcl].
    rewrite Hcl, dval_neg.
    setoid_replace (- rvalue m e - - dval (Zpos m) e)%Q
      with (- (rvalue m e - dval (Zpos m) e))%Q by ring.
    rewrite !Qabs_opp.
    rewrite (Qabs_pos (dval (Zpos m) e)) by (pose proof (dval_pos m e); lra).
    exact He.
Qed.

(** ** Correctly rounded results *)

Lemma Rounds_mono (u1 u2 : bool) (v1 v2 : Q) (r1 r2 : spec_float) :
  Rounds u1 v1 r1 -> Rounds u2 v2 r2 -> (v1 <= v2)%Q -> (SFX r1 <= SFX r2)%Q.
Proof.
  intros (_ & _ & N1 & e1 & Hv1 & Hr1 & _) (_ & _ & N2 & e2 & Hv2 & Hr2 & _) Hle.
  rewrite Hr1, Hr2. apply rndX_mono. rewrite Hv1, Hv2. exact Hle.
Qed.

Lemma SFleb_SFX (x y : spec_float) :
  valid_binary x = true -> valid_binary y = true ->
  SFnotnan x = true -> SFnotnan y = true ->
  SFleb x y = true <-> (SFX x <= SFX y)%Q.
Proof.
  intros Vx Vy Nx Ny. unfold SFleb. rewrite (SFcompare_SFX x y Vx Vy Nx Ny).
  destruct (Qcompare_spec (SFX x) (SFX y)) as [H | H | H]; split; intros H';
    try reflexivity; try discriminate; lra.
Qed.

Lemma SFltb_SFX (x y : spec_float) :
  valid_binary x = true -> valid_binary y = true ->
  SFnotnan x = true -> SFnotnan y = true ->
  SFltb x y = true <-> (SFX x < SFX y)%Q.
Proof.
  intros Vx Vy Nx Ny. unfold SFltb. rewrite (SFcompare_SFX x y Vx Vy Nx Ny).
  destruct (Qcompare_spec (SFX x) (SFX y)) as [H | H | H]; split; intros H';
    try reflexivity; try discriminate; lra.
Qed.

Lemma SFeqb_SFX (x y : spec_float) :
  valid_binary x = true -> valid_binary y = true ->
  SFnotnan x = true -> SFnotnan y = true ->
  SFeqb x y = true <-> (SFX x == SFX y)%Q.
Proof.
  intros Vx Vy Nx Ny. unfold SFeqb. rewrite (SFcompare_SFX x y Vx Vy Nx Ny).
  destruct (Qcompare_spec (SFX x) (SFX y)) as [H | H | H]; split; intros H';
    try reflexivity; try discriminate; lra.
Qed.

Lemma SFX_finite (x : spec_float) : SFfinite x = true -> SFX x = SF2Q x.
Proof. destruct x; try discriminate; reflexivity. Qed.

Lemma SFX_bound (x : spec_float) :
  valid_binary x = true -> SFnotnan x = true ->
  (Qabs (SFX x) <= pow2 1024)%Q
  /\ (SFfinite x = true <-> (Qabs (SFX x) < pow2 1024)%Q).
Proof.
  intros V N. pose proof (pow2_gt0 1024) as Hbig.
  destruct x as [s | s | | s m e]; [| | discriminate |]; cbn [SFX SFfinite SF2Q].
  - simpl Qabs. split; [lra|]. split; [intros _; lra | reflexivity].
  - destruct s; rewrite ?Qabs_opp, (Qabs_pos (pow2 1024)) by lra;
      (split; [lra|]; split; [discriminate | lra]).
  - fold (SF2Q (S754_finite s m e)). rewrite SF2Q_finite.
    pose proof (bounded_value m e V) as [H0 H1].
    assert (Ha : (Qabs (dval (cond_Zopp s (Zpos m)) e) == dval (Zpos m) e)%Q).
    { destruct s; cbn [cond_Zopp].
      - change (Z.opp (Zpos m)) with (Zneg m).
        rewrite dval_neg, Qabs_opp, Qabs_pos; lra.
      - rewrite Qabs_pos; lra. }
    rewrite Ha. split; [lra|]. split; [intros _; exact H1 | reflexivity].
Qed.

Theorem Rounds_error (uf : bool) (v : Q) (r : spec_float) :
  Rounds uf v r -> SFfinite r = true ->
  (Qabs (SF2Q r - v)
   <= Qabs v * pow2 (-53) + (if uf then 0 else pow2 (-1075)))%Q.
Proof.
  intros (V & Nn & N & e & Hv & Hr & Hu) Hf.
  rewrite <- (SFX_finite r Hf).
  apply (SFX_bound r V Nn) in Hf. rewrite Hr in Hf.
  pose proof (rndX_error N e Hf) as Herr. rewrite Hr, <- Hv.
  destruct uf.
  - specialize (Hu eq_refl). destruct (Z.leb_spec (-1074) e); [exact Herr | lia].
  - pose proof (pow2_gt0 (-1075)). destruct (-1074 <=? e); lra.
Qed.

Lemma Rounds_self (x : spec_float) :
  valid_binary x = true -> SFfinite x = true -> Rounds true (SF2Q x) x.
Proof.
  intros V F. split; [exact V|]. split; [destruct x; try discriminate; reflexivity|].
  destruct x as [s | s | | s m e]; try discriminate.
  - exists 0, 0. split; [apply dval_0|]. split; [reflexivity | lia].
  - exists (cond_Zopp s (Zpos m)), e. cbn [valid_binary] in V.
    pose proof (bounded_canonical m e V) as (Hd & He & Hc).
    pose proof (bounded_value m e V) as [_ Hlt].
    split; [reflexivity|]. split; [|lia].
    assert (Hex : rexp m e <= e) by (unfold rexp, fexp64; lia).
    cbn [SFX]. rewrite SF2Q_finite.
    destruct s; cbn [cond_Zopp]; try change (Z.opp (Zpos m)) with (Zneg m);
      cbn [rndX];
      rewrite (clamp_proper _ _ (rvalue_exact m e Hex)), clamp_small by exact Hlt.
    + apply dval_neg.
    + reflexivity.
Qed.

(** A representable number rounds to itself. *)
Lemma Rounds_exact (uf : bool) (v : Q) (r x : spec_float) :
  Rounds uf v r -> valid_binary x = true -> SFfinite x = true ->
  (v == SF2Q x)%Q -> (SFX r == SF2Q x)%Q /\ SFfinite r = true.
Proof.
  intros Hr V F Hv. pose proof (Rounds_self x V F) as Hx.
  pose proof (Rounds_mono _ _ _ _ _ _ Hr Hx ltac:(lra)) as H1.
  pose proof (Rounds_mono _ _ _ _ _ _ Hx Hr ltac:(lra)) as H2.
  rewrite (SFX_finite x F) in H1, H2.
  assert (He : (SFX r == SF2Q x)%Q) by lra.
  split; [exact He|].
  destruct Hr as (Vr & Nr & _).
  apply (SFX_bound r Vr Nr). rewrite He, <- (SFX_finite x F).
  apply (SFX_bound x V); [destruct x; try discriminate; reflexivity | exact F].
Qed.

(** ** Addition, subtraction and multiplication *)

Lemma shl_align_fst (mx : positive) (ex ez : Z) :
  ez <= ex -> Zpos (fst (shl_align mx ex ez)) = Zpos mx * 2 ^ (ex - ez).
Proof.
  intros Hle. unfold shl_align.
  destruct (ez - ex) as [|d|d] eqn:Ed; cbn [fst].
  - replace (ex - ez) with 0 by lia. rewrite Z.pow_0_r. lia.
  - lia.
  - rewrite Pos_iter_xO. f_equal. f_equal. lia.
Qed.

Lemma cond_Zopp_mul (s : bool) (x y : Z) : cond_Zopp s x * y = cond_Zopp s (x * y).
Proof. destruct s; cbn [cond_Zopp]; lia. Qed.

Lemma SF2Q_aligned (s : bool) (m : positive) (e ez : Z) :
  ez <= e ->
  (dval (cond_Zopp s (Zpos (fst (shl_align m e ez)))) ez
   == SF2Q (S754_finite s m e))%Q.
Proof.
  intros Hle. rewrite shl_align_fst by exact Hle. rewrite SF2Q_finite.
  rewrite <- cond_Zopp_mul.
  rewrite <- (dval_shift (cond_Zopp s (Zpos m)) e (e - ez)) by lia.
  replace (e - (e - ez)) with ez by lia. reflexivity.
Qed.

Lemma dval_plus (N1 N2 e : Z) : (dval (N1 + N2) e == dval N1 e + dval N2 e)%Q.
Proof. unfold dval. rewrite inject_Z_plus. ring. Qed.

Lemma dval_minus (N1 N2 e : Z) : (dval (N1 - N2) e == dval N1 e - dval N2 e)%Q.
Proof.
  unfold dval, Z.sub. rewrite inject_Z_plus, inject_Z_opp. ring.
Qed.

Lemma Rounds_normalize (N e : Z) (sz : bool) :
  -1074 <= e -> Rounds true (dval N e) (binary_normalize prec emax N e sz).
Proof.
  intros He. pose proof (binary_normalize_valid N e sz) as [V Nn].
  split; [exact V|]. split; [exact Nn|].
  exists N, e. split; [reflexivity|]. split; [apply binary_normalize_SFX | auto].
Qed.

#[global] Instance Rounds_proper (uf : bool) :
  Proper (Qeq ==> eq ==> iff) (Rounds uf).
Proof.
  intros v w H r r' <-. unfold Rounds.
  split; intros (V & Nn & N & e & Hv & Hr & Hu); (split; [exact V|]);
    (split; [exact Nn|]); exists N, e; (split; [lra|]); split; assumption.
Qed.

Lemma valid_exponent (s : bool) (m : positive) (e : Z) :
  valid_binary (S754_finite s m e) = true -> -1074 <= e <= 971.
Proof. intros V. apply bounded_canonical in V. lia. Qed.

Theorem SFadd_Rounds (x y : spec_float) :
  valid_binary x = true -> valid_binary y = true ->
  SFfinite x = true -> SFfinite y = true ->
  Rounds true (SF2Q x + SF2Q y) (SFadd prec emax x y).
Proof.
  intros Vx Vy Fx Fy.
  destruct x as [sx | sx | | sx mx ex]; try discriminate;
  destruct y as [sy | sy | | sy my ey]; try discriminate.
  - assert (H0 : Rounds true (SF2Q (S754_zero sx) + SF2Q (S754_zero sy))
                   (S754_zero false)).
    { apply (Rounds_self (S754_zero false)); reflexivity. }
    cbn [SFadd]. destruct sx, sy; exact H0.
  - cbn [SFadd]. change (SF2Q (S754_zero sx)) with 0%Q.
    rewrite Qplus_0_l. apply Rounds_self; assumption.
  - cbn [SFadd]. change (SF2Q (S754_zero sy)) with 0%Q.
    rewrite Qplus_0_r. apply Rounds_self; assumption.
  - pose proof (valid_exponent _ _ _ Vx). pose proof (valid_exponent _ _ _ Vy).
    cbn [SFadd]. cbv zeta. set (ez := Z.min ex ey).
    rewrite <- (SF2Q_aligned sx mx ex ez), <- (SF2Q_aligned sy my ey ez)
      by (unfold ez; lia).
    rewrite <- dval_plus. apply Rounds_normalize. unfold ez. lia.
Qed.

Theorem SFsub_Rounds (x y : spec_float) :
  valid_binary x = true -> valid_binary y = true ->
  SFfinite x = true -> SFfinite y = true ->
  Rounds true (SF2Q x - SF2Q y) (SFsub prec emax x y).
Proof.
  intros Vx Vy Fx Fy.
  destruct x as [sx | sx | | sx mx ex]; try discriminate;
  destruct y as [sy | sy | | sy my ey]; try discriminate.
  - assert (H0 : Rounds true (SF2Q (S754_zero sx) - SF2Q (S754_zero sy))
                   (S754_zero false)).
    { apply (Rounds_self (S754_zero false)); reflexivity. }
    cbn [SFsub]. destruct sx, sy; exact H0.
  - cbn [SFsub]. change (SF2Q (S754_zero sx)) with 0%Q.
    assert (Hv : (0 - SF2Q (S754_finite sy my ey)
                  == SF2Q (S754_finite (negb sy) my ey))%Q).
    { rewrite !SF2Q_finite. destruct sy; cbn [negb cond_Zopp];
        change (Z.opp (Zpos my)) with (Zneg my); rewrite dval_neg; ring. }
    rewrite Hv. apply Rounds_self; [exact Vy | reflexivity].
  - cbn [SFsub]. change (SF2Q (S754_zero sy)) with 0%Q.
    setoid_replace (SF2Q (S754_finite sx mx ex) - 0)%Q
      with (SF2Q (S754_finite sx mx ex)) by ring.
    apply Rounds_self; assumption.
  - pose proof (valid_exponent _ _ _ Vx). pose proof (valid_exponent _ _ _ Vy).
    cbn [SFsub]. cbv zeta. set (ez := Z.min ex ey).
    rewrite <- (SF2Q_aligned sx mx ex ez), <- (SF2Q_aligned sy my ey ez)
      by (unfold ez; lia).
    rewrite <- dval_minus. apply Rounds_normalize. unfold ez. lia.
Qed.

Lemma binary_round_aux_eq (s : bool) (m : positive) (e : Z) :
  e <= rexp m e ->
  binary_round_aux prec emax s (Zpos m) e loc_Exact = round_dyadic s m e.
Proof.
  intros Hle. rewrite binary_round_aux_shift by exact Hle.
  unfold round_dyadic, round_mantissa. fold (rexp m e).
  destruct (Z.leb_spec (rexp m e) e) as [Hle' | Hgt]; [|reflexivity].
  replace (rexp m e) with e by lia. rewrite Z.sub_diag, Z.pow_0_r, Z.mul_1_r.
  rewrite <- (rne_exact (Zpos m) 0) at 2 by lia.
  rewrite Z.pow_0_r, Z.mul_1_r. reflexivity.
Qed.

Lemma digits2_mul (mx my : positive) :
  Zpos (digits2_pos mx) + Zpos (digits2_pos my) - 1
  <= Zpos (digits2_pos (mx * my)).
Proof.
  pose proof (digits2_pos_bounds mx) as [Hx _].
  pose proof (digits2_pos_bounds my) as [Hy _].
  pose proof (digits2_pos_bounds (mx * my)) as [_ Hp].
  rewrite Pos2Z.inj_mul in Hp.
  assert (Hlow : 2 ^ (Zpos (digits2_pos mx) - 1 + (Zpos (digits2_pos my) - 1))
                 <= Zpos mx * Zpos my).
  { rewrite Z.pow_add_r by lia.
    pose proof (pow2_pos (Zpos (digits2_pos mx) - 1) ltac:(lia)).
    pose proof (pow2_pos (Zpos (digits2_pos my) - 1) ltac:(lia)). nia. }
  assert (Hlt : 2 ^ (Zpos (digits2_pos mx) - 1 + (Zpos (digits2_pos my) - 1))
                < 2 ^ Zpos (digits2_pos (mx * my))) by lia.
  apply Z.pow_lt_mono_r_iff in Hlt; lia.
Qed.

Lemma dval_mul (N1 N2 e1 e2 : Z) :
  (dval (N1 * N2) (e1 + e2) == dval N1 e1 * dval N2 e2)%Q.
Proof. unfold dval. rewrite inject_Z_mult, pow2_add. ring. Qed.

Lemma Rounds_round_dyadic (s : bool) (m : positive) (e : Z) :
  Rounds false (dval (cond_Zopp s (Zpos m)) e) (round_dyadic s m e).
Proof.
  pose proof (round_dyadic_valid s m e) as [V Nn].
  split; [exact V|]. split; [exact Nn|].
  exists (cond_Zopp s (Zpos m)), e. split; [reflexivity|]. split; [|discriminate].
  rewrite round_dyadic_SFX. destruct s; reflexivity.
Qed.

Theorem SFmul_Rounds (x y : spec_float) :
  valid_binary x = true -> valid_binary y = true ->
  SFfinite x = true -> SFfinite y = true ->
  Rounds false (SF2Q x * SF2Q y) (SFmul prec emax x y).
Proof.
  intros Vx Vy Fx Fy.
  assert (H0 : forall v s, (v == 0)%Q -> Rounds false v (S754_zero s)).
  { intros v s Hv. rewrite Hv. split; [reflexivity|]. split; [reflexivity|].
    exists 0, 0. split; [apply dval_0|]. split; [reflexivity | discriminate]. }
  destruct x as [sx | sx | | sx mx ex]; try discriminate;
  destruct y as [sy | sy | | sy my ey]; try discriminate; cbn [SFmul];
    try (apply H0; cbn [SF2Q]; ring).
  cbn [valid_binary] in Vx, Vy.
  pose proof (bounded_canonical mx ex Vx) as (Hdx & Hex & Hcx).
  pose proof (bounded_canonical my ey Vy) as (Hdy & Hey & Hcy).
  pose proof (digits2_mul mx my) as Hd.
  rewrite binary_round_aux_eq by (unfold rexp, fexp64; lia).
  assert (Hv : (SF2Q (S754_finite sx mx ex) * SF2Q (S754_finite sy my ey)
                == dval (cond_Zopp (xorb sx sy) (Zpos (mx * my))) (ex + ey))%Q).
  { rewrite !SF2Q_finite, <- dval_mul.
    destruct sx, sy; cbn [xorb cond_Zopp]; rewrite ?Pos2Z.inj_mul;
      try (apply Qeq_refl);
      match goal with |- (dval ?a _ == dval ?b _)%Q => replace a with b by lia end;
      reflexivity. }
  rewrite Hv. apply Rounds_round_dyadic.
Qed.

(** * The codec *)

(** ** Floats case by case *)

Lemma Prim2SF_infinity : Prim2SF infinity = S754_infinity false.
Proof. reflexivity. Qed.

Lemma Prim2SF_neg_infinity : Prim2SF neg_infinity = S754_infinity true.
Proof. reflexivity. Qed.

Lemma Prim2SF_nan : Prim2SF nan = S754_nan.
Proof. reflexivity. Qed.

Lemma is_nan_spec (x : float) :
  is_nan x = match Prim2SF x with S754_nan => true | _ => false end.
Proof.
  unfold is_nan. rewrite FloatAxioms.eqb_spec.
  destruct (Prim2SF x) as [s|s| |s m e]; try destruct s; try reflexivity;
    unfold SFeqb, SFcompare; rewrite Z.compare_refl, Pos.compare_cont_refl;
    reflexivity.
Qed.

Lemma is_infinity_spec (x : float) :
  is_infinity x = match Prim2SF x with S754_infinity _ => true | _ => false end.
Proof.
  unfold is_infinity. rewrite FloatAxioms.eqb_spec, abs_spec, Prim2SF_infinity.
  destruct (Prim2SF x) as [s|s| |s m e]; reflexivity.
Qed.

Lemma eqb_infinity_spec (x : float) :
  (x =? infinity)%float =
  match Prim2SF x with S754_infinity false => true | _ => false end.
Proof.
  rewrite FloatAxioms.eqb_spec, Prim2SF_infinity.
  destruct (Prim2SF x) as [s|s| |s m e]; try destruct s; reflexivity.
Qed.

Lemma eqb_neg_infinity_spec (x : float) :
  (x =? neg_infinity)%float =
  match Prim2SF x with S754_infinity true => true | _ => false end.
Proof.
  rewrite FloatAxioms.eqb_spec, Prim2SF_neg_infinity.
  destruct (Prim2SF x) as [s|s| |s m e]; try destruct s; reflexivity.
Qed.

(** A float is finite exactly when it is none of the three values [Encode]
    tests for first. *)
Lemma is_finite_sentinels (x : float) :
  is_finite x =
  negb (x =? infinity)%float && negb (x =? neg_infinity)%float
  && negb (is_nan x).
Proof.
  unfold is_finite.
  rewrite eqb_infinity_spec, eqb_neg_infinity_spec, is_nan_spec, is_infinity_spec.
  destruct (Prim2SF x) as [s|s| |s m e]; try destruct s; reflexivity.
Qed.

(** ** The constructors *)

Lemma NewFPEncoderWithLength_Ok (min max : float) (length : Z) (fpe : FPEncoder) :
  NewFPEncoderWithLength min max length = Ok fpe ->
  valid_length length /\ fpe = preCompute newFPEncoder min max length.
Proof.
  unfold NewFPEncoderWithLength, valid_length.
  destruct (Z.eqb_spec length 1); [intros [= <-]; auto|].
  destruct (Z.eqb_spec length 2); [intros [= <-]; auto|].
  destruct (Z.eqb_spec length 4); [intros [= <-]; auto|].
  destruct (Z.eqb_spec length 8); [intros [= <-]; auto 6|].
  discriminate.
Qed.

Lemma valid_codec_fields (min max : float) (length : Z) (fpe : FPEncoder) :
  NewFPEncoderWithLength min max length = Ok fpe ->
  valid_length (fieldLength fpe) /\ fieldLength fpe = length
  /\ a fpe = min /\ b fpe = max.
Proof.
  intros H. apply NewFPEncoderWithLength_Ok in H as [Hl ->]. simpl. auto.
Qed.

(** ** Encode: the special values *)

Lemma nan_not_infinity (val : float) :
  is_nan val = true ->
  (val =? infinity)%float = false /\ (val =? neg_infinity)%float = false.
Proof.
  rewrite is_nan_spec, eqb_infinity_spec, eqb_neg_infinity_spec.
  destruct (Prim2SF val); try discriminate; auto.
Qed.

Lemma Encode_special (cvt : int_type -> float -> Z) (fpe : FPEncoder) (val : float) (c : byte) :
  valid_length (fieldLength fpe) ->
  (val =? infinity)%float = true /\ c = xc8
  \/ (val =? infinity)%float = false /\ (val =? neg_infinity)%float = true /\ c = xe8
  \/ (val =? infinity)%float = false /\ (val =? neg_infinity)%float = false
     /\ is_nan val = true /\ c = xd0 ->
  Encode cvt fpe val = Ok (c :: repeat x00 (Z.to_nat (fieldLength fpe) - 1)).
Proof.
  intros Hl Hc. unfold Encode, GoMath.IsNaN.
  change (GoMath.Inf 0) with infinity.
  change (GoMath.Inf (-1)) with neg_infinity.
  assert (Hm : make_bytes (fieldLength fpe)
               = Ok (x00 :: repeat x00 (Z.to_nat (fieldLength fpe) - 1))).
  { destruct Hl as [-> | [-> | [-> | ->]]]; reflexivity. }
  rewrite Hm.
  destruct Hc as [[-> ->] | [[-> [-> ->]] | [-> [-> [-> ->]]]]]; reflexivity.
Qed.

(** C3: on every codec of a valid field length, whatever its range,
    [Encode] of +Inf, of -Inf and of a NaN succeeds and returns
    [fieldLength] bytes: the marker 0xC8, 0xE8 or 0xD0 first, zeros after. *)
Theorem Encode_sentinels (cvt : int_type -> float -> Z) (min max : float)
    (length : Z) (fpe : FPEncoder) :
  NewFPEncoderWithLength min max length = Ok fpe ->
  Encode cvt fpe infinity = Ok (xc8 :: repeat x00 (Z.to_nat length - 1))
  /\ Encode cvt fpe neg_infinity = Ok (xe8 :: repeat x00 (Z.to_nat length - 1))
  /\ (forall val, is_nan val = true ->
        Encode cvt fpe val = Ok (xd0 :: repeat x00 (Z.to_nat length - 1)))
  /\ Z.of_nat (List.length (x00 :: repeat x00 (Z.to_nat length - 1))) = length.
Proof.
  intros H. apply valid_codec_fields in H as (Hl & <- & _ & _).
  repeat split.
  - apply Encode_special; auto.
  - apply Encode_special; auto.
  - intros val Hn. destruct (nan_not_infinity val Hn) as [H1 H2].
    apply Encode_special; auto 10.
  - destruct Hl as [-> | [-> | [-> | ->]]]; reflexivity.
Qed.

Lemma Encode_sentinels_witness :
  NewFPEncoderWithLength 0 10 2 = Ok (preCompute newFPEncoder 0 10 2)
  /\ Encode cvt_saturate (preCompute newFPEncoder 0 10 2) infinity = Ok [xc8; x00]
  /\ Encode cvt_saturate (preCompute newFPEncoder 0 10 2) neg_infinity = Ok [xe8; x00]
  /\ Encode cvt_saturate (preCompute newFPEncoder 0 10 2) nan = Ok [xd0; x00].
Proof.
  assert (H : NewFPEncoderWithLength 0 10 2 = Ok (preCompute newFPEncoder 0 10 2))
    by reflexivity.
  split; [exact H|].
  destruct (Encode_sentinels cvt_saturate 0 10 2 _ H) as (H1 & H2 & H3 & _).
  split; [exact H1|]. split; [exact H2|]. exact (H3 nan eq_refl).
Defined.

(** ** Decode: the special values *)

(** C4: on every codec of a valid field length, a slice of [fieldLength]
    bytes whose first byte is 0xC8, 0xE8 or 0xD0 decodes to +Inf, -Inf or
    NaN, whatever the other bytes are, and [Decode] returns no error. *)
Theorem Decode_sentinels (min max : float) (length : Z) (fpe : FPEncoder)
    (b0 : byte) (rest : list byte) :
  NewFPEncoderWithLength min max length = Ok fpe ->
  Z.of_nat (List.length (b0 :: rest)) = length ->
  (b0 = xc8 -> Decode fpe (b0 :: rest) = Ok infinity)
  /\ (b0 = xe8 -> Decode fpe (b0 :: rest) = Ok neg_infinity)
  /\ (b0 = xd0 -> Decode fpe (b0 :: rest) = Ok nan /\ is_nan nan = true).
Proof.
  intros H Hlen. apply valid_codec_fields in H as (_ & Hf & _ & _).
  unfold Decode. rewrite Hf, Hlen, Z.eqb_refl. simpl negb. cbv iota.
  split; [|split]; intros ->; try split; reflexivity.
Qed.

Lemma Decode_sentinels_witness :
  NewFPEncoderWithLength 0 10 2 = Ok (preCompute newFPEncoder 0 10 2)
  /\ Z.of_nat (List.length [xc8; x7f]) = 2
  /\ Decode (preCompute newFPEncoder 0 10 2) [xc8; x7f] = Ok infinity.
Proof.
  assert (H : NewFPEncoderWithLength 0 10 2 = Ok (preCompute newFPEncoder 0 10 2))
    by reflexivity.
  split; [exact H|]. split; [reflexivity|].
  exact (proj1 (Decode_sentinels 0 10 2 _ xc8 [x7f] H eq_refl) eq_refl).
Defined.

(** ** Encode: values out of range *)

Lemma make_bytes_valid (n : Z) :
  valid_length n -> make_bytes n = Ok (x00 :: repeat x00 (Z.to_nat n - 1)).
Proof. intros [-> | [-> | [-> | ->]]]; reflexivity. Qed.

(** C5: on every valid codec, [Encode] returns the out-of-range error exactly
    for a finite value (neither NaN nor an infinity) below [min] or above
    [max]; the tests for +Inf, -Inf and NaN come first, so these three never
    give that error, and [Encode] returns no other error and does not panic. *)
Theorem Encode_out_of_range (cvt : int_type -> float -> Z) (min max : float)
    (length : Z) (fpe : FPEncoder) (val : float) :
  NewFPEncoderWithLength min max length = Ok fpe ->
  (Encode cvt fpe val = Err (ErrValueRange min max)
   <-> is_finite val = true
       /\ ((val <? min)%float = true \/ (max <? val)%float = true))
  /\ (forall e, Encode cvt fpe val = Err e -> e = ErrValueRange min max)
  /\ (forall p, Encode cvt fpe val <> Panic p).
Proof.
  intros H. apply valid_codec_fields in H as (Hl & _ & Ha & Hb).
  unfold Encode, GoMath.IsNaN.
  change (GoMath.Inf 0) with infinity.
  change (GoMath.Inf (-1)) with neg_infinity.
  rewrite (make_bytes_valid _ Hl), Ha, Hb, is_finite_sentinels.
  destruct (val =? infinity)%float; [simpl; intuition congruence|].
  destruct (val =? neg_infinity)%float; [simpl; intuition congruence|].
  destruct (is_nan val); [simpl; intuition congruence|].
  destruct (val <? min)%float; [simpl; intuition congruence|].
  destruct (max <? val)%float; simpl; intuition congruence.
Qed.

Lemma Encode_out_of_range_witness :
  NewFPEncoderWithLength 0 10 1 = Ok (preCompute newFPEncoder 0 10 1)
  /\ Encode cvt_saturate (preCompute newFPEncoder 0 10 1) 11
     = Err (ErrValueRange 0 10).
Proof.
  assert (H : NewFPEncoderWithLength 0 10 1 = Ok (preCompute newFPEncoder 0 10 1))
    by reflexivity.
  split; [exact H|].
  apply (proj1 (Encode_out_of_range cvt_saturate 0 10 1 _ 11 H)).
  split; [reflexivity | right; reflexivity].
Defined.

(** ** The constants of a codec *)


(** ** Big-endian integers *)

Lemma Z_of_byte_range (c : byte) : 0 <= Z_of_byte c < 256.
Proof.
  destruct c; cbv; split; easy.
Qed.

Lemma lor_shiftl_add (lo hi n : Z) :
  0 <= n -> 0 <= lo < 2 ^ n -> Z.lor lo (Z.shiftl hi n) = lo + hi * 2 ^ n.
Proof.
  intros Hn Hlo.
  pose proof (Z.add_lor_land lo (Z.shiftl hi n)) as Hadd.
  assert (Hland : Z.land lo (Z.shiftl hi n) = 0).
  { apply Z.bits_inj'. intros i Hi.
    rewrite Z.land_spec, Z.bits_0.
    destruct (Z.lt_ge_cases i n) as [Hlt | Hge].
    - rewrite (Z.shiftl_spec_low hi n i Hlt). apply andb_false_r.
    - destruct (Z.eq_dec lo 0) as [-> | Hne]; [rewrite Z.bits_0; reflexivity|].
      rewrite (Z.bits_above_log2 lo i); [reflexivity | lia |].
      apply Z.log2_lt_pow2; [lia|].
      apply Z.lt_le_trans with (2 ^ n); [lia|].
      apply Z.pow_le_mono_r; lia. }
  rewrite Hland, Z.add_0_r in Hadd. rewrite Hadd.
  rewrite Z.shiftl_mul_pow2 by lia. reflexivity.
Qed.

Ltac byte_bounds :=
  repeat match goal with
  | c : byte |- _ =>
      lazymatch goal with
      | _ : 0 <= Z_of_byte c < 256 |- _ => fail
      | _ => pose proof (Z_of_byte_range c)
      end
  end.

Lemma Uint16_be_value (b0 b1 : byte) :
  BigEndian.Uint16 [b0; b1] = Some (be_value [b0; b1]).
Proof.
  unfold BigEndian.Uint16, be_value. simpl fold_left. byte_bounds.
  rewrite lor_shiftl_add by lia. f_equal. lia.
Qed.

Lemma Uint32_be_value (b0 b1 b2 b3 : byte) :
  BigEndian.Uint32 [b0; b1; b2; b3] = Some (be_value [b0; b1; b2; b3]).
Proof.
  unfold BigEndian.Uint32, be_value. simpl fold_left. byte_bounds.
  rewrite (lor_shiftl_add _ _ 8) by lia.
  rewrite (lor_shiftl_add _ _ 16) by lia.
  rewrite (lor_shiftl_add _ _ 24) by lia.
  f_equal. lia.
Qed.

Lemma Uint64_be_value (b0 b1 b2 b3 b4 b5 b6 b7 : byte) :
  BigEndian.Uint64 [b0; b1; b2; b3; b4; b5; b6; b7]
  = Some (be_value [b0; b1; b2; b3; b4; b5; b6; b7]).
Proof.
  unfold BigEndian.Uint64, be_value. simpl fold_left. byte_bounds.
  rewrite (lor_shiftl_add _ _ 8) by lia.
  rewrite (lor_shiftl_add _ _ 16) by lia.
  rewrite (lor_shiftl_add _ _ 24) by lia.
  rewrite (lor_shiftl_add _ _ 32) by lia.
  rewrite (lor_shiftl_add _ _ 40) by lia.
  rewrite (lor_shiftl_add _ _ 48) by lia.
  rewrite (lor_shiftl_add _ _ 56) by lia.
  f_equal. lia.
Qed.

(** ** Decode *)

Lemma Decode_integer_be_value (fpe : FPEncoder) (bytes : list byte) :
  valid_length (fieldLength fpe) ->
  Z.of_nat (List.length bytes) = fieldLength fpe ->
  Decode_integer fpe bytes = Some (float_of_Z (be_value bytes)).
Proof.
  unfold Decode_integer.
  intros [Hl | [Hl | [Hl | Hl]]] Hlen; rewrite Hl in *.
  - destruct bytes as [|b0 [|]]; simpl List.length in Hlen; try lia.
    reflexivity.
  - destruct bytes as [|b0 [|b1 [|]]]; simpl List.length in Hlen; try lia.
    rewrite Uint16_be_value. reflexivity.
  - destruct bytes as [|b0 [|b1 [|b2 [|b3 [|]]]]];
      simpl List.length in Hlen; try lia.
    rewrite Uint32_be_value. reflexivity.
  - destruct bytes as [|b0 [|b1 [|b2 [|b3 [|b4 [|b5 [|b6 [|b7 [|]]]]]]]]];
      simpl List.length in Hlen; try lia.
    rewrite Uint64_be_value. reflexivity.
Qed.

Lemma Decode_unfold (fpe : FPEncoder) (bytes : list byte) :
  Decode fpe bytes =
  if negb (Z.of_nat (List.length bytes) =? fieldLength fpe) then Err ErrArrayLength
  else
    match bytes with
    | [] => Panic (IndexOutOfRange 0 0)
    | b0 :: _ =>
        if Byte.eqb b0 xc8 then Ok infinity
        else if Byte.eqb b0 xe8 then Ok neg_infinity
        else if Byte.eqb b0 xd0 then Ok nan
        else
          match Decode_integer fpe bytes with
          | Some l =>
              let val := (sR fpe * (l - zOffset fpe) + a fpe)%float in
              if (val <? a fpe)%float || (b fpe <? val)%float
              then Err ErrDecodeRange else Ok val
          | None => Panic (IndexOutOfRange 0 (Z.of_nat (List.length bytes)))
          end
    end.
Proof. destruct bytes; reflexivity. Qed.

(** C8: on every valid codec, [Decode] returns the length error exactly when
    the slice is not [fieldLength] bytes long, whatever its first byte; on a
    slice of that length whose first byte is none of the three markers it
    reads the bytes as a big-endian unsigned integer [l], computes
    [val = sR*(l - zOffset) + min] and returns the out-of-range error exactly
    when [val < min] or [val > max], and [val] otherwise. *)
Theorem Decode_numeric (min max : float) (length : Z) (fpe : FPEncoder)
    (bytes : list byte) :
  NewFPEncoderWithLength min max length = Ok fpe ->
  (Decode fpe bytes = Err ErrArrayLength
   <-> Z.of_nat (List.length bytes) <> length)
  /\ (Z.of_nat (List.length bytes) = length ->
      hd_error bytes <> Some xc8 -> hd_error bytes <> Some xe8 ->
      hd_error bytes <> Some xd0 ->
      let l := float_of_Z (be_value bytes) in
      let val := (sR fpe * (l - zOffset fpe) + min)%float in
      (Decode fpe bytes = Err ErrDecodeRange
       <-> (val <? min)%float = true \/ (max <? val)%float = true)
      /\ (Decode fpe bytes = Ok val
          <-> (val <? min)%float = false /\ (max <? val)%float = false)).
Proof.
  intros H. apply valid_codec_fields in H as (Hl & Hf & Ha & Hb).
  rewrite Decode_unfold, Hf.
  split.
  - destruct (Z.eqb_spec (Z.of_nat (List.length bytes)) length) as [He | Hne].
    + simpl negb. cbv iota. split; [|tauto].
      destruct bytes as [|b0 rest]; [discriminate|].
      destruct (Byte.eqb b0 xc8); [discriminate|].
      destruct (Byte.eqb b0 xe8); [discriminate|].
      destruct (Byte.eqb b0 xd0); [discriminate|].
      destruct (Decode_integer fpe (b0 :: rest)); [|discriminate].
      cbv zeta. destruct (_ || _); discriminate.
    + simpl. tauto.
  - intros Hlen H1 H2 H3 l val.
    pose proof (Decode_integer_be_value fpe bytes Hl) as Hint.
    rewrite Hf in Hint. specialize (Hint Hlen).
    rewrite Hlen, Z.eqb_refl. simpl negb. cbv iota.
    destruct bytes as [|b0 rest].
    { exfalso. subst length. destruct Hl as [? | [? | [? | ?]]]; discriminate. }
    simpl hd_error in *.
    destruct (Byte.eqb b0 xc8) eqn:E1;
      [apply Byte.byte_dec_bl in E1; congruence|].
    destruct (Byte.eqb b0 xe8) eqn:E2;
      [apply Byte.byte_dec_bl in E2; congruence|].
    destruct (Byte.eqb b0 xd0) eqn:E3;
      [apply Byte.byte_dec_bl in E3; congruence|].
    rewrite Hint, Ha, Hb. cbv zeta.
    fold l. fold val.
    destruct (val <? min)%float; [simpl; intuition congruence|].
    destruct (max <? val)%float; simpl; intuition congruence.
Qed.

Lemma Decode_numeric_witness :
  NewFPEncoderWithLength 0 1000000000 8
  = Ok (preCompute newFPEncoder 0 1000000000 8)
  /\ Decode (preCompute newFPEncoder 0 1000000000 8) [x06; x48; x7e]
     = Err ErrArrayLength.
Proof.
  assert (H : NewFPEncoderWithLength 0 1000000000 8
              = Ok (preCompute newFPEncoder 0 1000000000 8)) by reflexivity.
  split; [exact H|].
  apply (proj1 (Decode_numeric 0 1000000000 8 _ [x06; x48; x7e] H)).
  discriminate.
Defined.

(** ** The test vector of the package *)

(** C9: the codec over [0, 1e9] with 8 bytes encodes 3.14159 as
    00 00 00 06 48 7e 7c 06, and these bytes decode to a value within 1e-8
    of 3.14159. *)
Theorem Encode_Decode_pi (cvt : int_type -> float -> Z) :
  exists fpe dec,
    NewFPEncoderWithLength 0 1000000000 8 = Ok fpe
    /\ Encode cvt fpe pi_5 = Ok [x00; x00; x00; x06; x48; x7e; x7c; x06]
    /\ Decode fpe [x00; x00; x00; x06; x48; x7e; x7c; x06] = Ok dec
    /\ (Qabs (F2Q dec - (314159 # 100000)) <= (1 # 100000000))%Q
    /\ (Qabs (F2Q pi_5 - (314159 # 100000)) <= (1 # 1000000000000000))%Q.
Proof.
  eexists. eexists.
  split; [reflexivity|].
  split; [vm_compute; reflexivity|].
  split; [vm_compute; reflexivity|].
  split; vm_compute; discriminate.
Qed.

(** ** Codecs of length zero *)

(** C10: there are bounds [min < max] and a precision [> 0] for which
    [NewFPEncoderWithPrecision] returns, without error, a codec of field
    length 0 (here 0, 1 and precision 4); on any codec of field length 0,
    [Encode] of +Inf, -Inf or NaN indexes byte 0 of an empty slice and
    panics. *)
Theorem zero_length_codec :
  (exists min max precision : float,
     (min <? max)%float = true /\ (0 <? precision)%float = true
     /\ (max - min <? precision / 2)%float = true
     /\ forall cvt, exists fpe,
          NewFPEncoderWithPrecision cvt min max precision = Ok fpe
          /\ fieldLength fpe = 0
          /\ Encode cvt fpe infinity = Panic (IndexOutOfRange 0 0)
          /\ Encode cvt fpe neg_infinity = Panic (IndexOutOfRange 0 0)
          /\ Encode cvt fpe nan = Panic (IndexOutOfRange 0 0))
  /\ (forall cvt fpe val,
        fieldLength fpe = 0 ->
        (val =? infinity)%float = true \/ (val =? neg_infinity)%float = true
        \/ is_nan val = true ->
        Encode cvt fpe val = Panic (IndexOutOfRange 0 0)).
Proof.
  split.
  - exists 0%float, 1%float, 4%float.
    split; [reflexivity|]. split; [reflexivity|]. split; [reflexivity|].
    intros cvt. eexists.
    split; [vm_compute; reflexivity|].
    repeat split.
  - intros cvt fpe val Hl Hv. unfold Encode, GoMath.IsNaN.
    change (GoMath.Inf 0) with infinity.
    change (GoMath.Inf (-1)) with neg_infinity.
    rewrite Hl. simpl make_bytes. cbv iota.
    destruct (val =? infinity)%float; [reflexivity|].
    destruct (val =? neg_infinity)%float; [reflexivity|].
    destruct (is_nan val); [reflexivity|].
    destruct Hv as [Hv | [Hv | Hv]]; discriminate.
Qed.

(** C7, at the inputs where the code departs from it: with bounds 0 and 1
    and precision 4 the byte count computed is (minus) zero and the
    constructor returns a codec of field length 0, on which [Encode] of an
    ordinary value returns no bytes; with precision 1024 the byte count is
    -1, the codec has field length -1 and [Encode] panics in [make]. *)
Theorem NewFPEncoderWithPrecision_bad_length (cvt : int_type -> float -> Z) :
  GoMath.Ceil (log2 ((1 - 0) / 4) + 1) = (-1)%float
  /\ GoMath.Ceil (GoMath.Ceil (log2 ((1 - 0) / 4) + 1) / 8) = (-0)%float
  /\ (exists fpe,
        NewFPEncoderWithPrecision cvt 0 1 4 = Ok fpe
        /\ fieldLength fpe = 0 /\ ~ valid_length (fieldLength fpe)
        /\ Encode cvt fpe 0.5 = Ok [])
  /\ (exists fpe,
        NewFPEncoderWithPrecision cvt 0 1 1024 = Ok fpe
        /\ fieldLength fpe = -1 /\ ~ valid_length (fieldLength fpe)
        /\ Encode cvt fpe 0.5 = Panic MakesliceLenOutOfRange).
Proof.
  split; [reflexivity|]. split; [reflexivity|]. split.
  - eexists. split; [vm_compute; reflexivity|].
    split; [reflexivity|]. split; [|reflexivity].
    unfold valid_length; simpl; lia.
  - eexists. split; [vm_compute; reflexivity|].
    split; [reflexivity|]. split; [|reflexivity].
    unfold valid_length; simpl; lia.
Qed.

(** ** Primitive floats through their specification *)

Lemma is_finite_SF (x : float) : is_finite x = SFfinite (Prim2SF x).
Proof.
  unfold is_finite. rewrite is_nan_spec, is_infinity_spec.
  destruct (Prim2SF x); reflexivity.
Qed.

Lemma is_nan_SF (x : float) : is_nan x = negb (SFnotnan (Prim2SF x)).
Proof. rewrite is_nan_spec. destruct (Prim2SF x); reflexivity. Qed.

Lemma finite_notnan (x : float) : is_finite x = true -> is_nan x = false.
Proof.
  rewrite is_finite_SF, is_nan_SF. destruct (Prim2SF x); try discriminate; reflexivity.
Qed.

Lemma FX_finite (x : float) : is_finite x = true -> FX x = F2Q x.
Proof. rewrite is_finite_SF. apply SFX_finite. Qed.

Lemma FRounds_notnan (uf : bool) (v : Q) (x : float) :
  FRounds uf v x -> is_nan x = false.
Proof. intros (_ & N & _). rewrite is_nan_SF, N. reflexivity. Qed.

Lemma leb_FX (x y : float) :
  is_nan x = false -> is_nan y = false ->
  (x <=? y)%float = true <-> (FX x <= FX y)%Q.
Proof.
  rewrite !is_nan_SF, !negb_false_iff. intros Nx Ny.
  rewrite leb_spec. apply SFleb_SFX; auto using Prim2SF_valid.
Qed.

Lemma ltb_FX (x y : float) :
  is_nan x = false -> is_nan y = false ->
  (x <? y)%float = true <-> (FX x < FX y)%Q.
Proof.
  rewrite !is_nan_SF, !negb_false_iff. intros Nx Ny.
  rewrite ltb_spec. apply SFltb_SFX; auto using Prim2SF_valid.
Qed.

Lemma eqb_FX (x y : float) :
  is_nan x = false -> is_nan y = false ->
  (x =? y)%float = true <-> (FX x == FX y)%Q.
Proof.
  rewrite !is_nan_SF, !negb_false_iff. intros Nx Ny.
  rewrite FloatAxioms.eqb_spec. apply SFeqb_SFX; auto using Prim2SF_valid.
Qed.

Lemma SFcompare_nan_l (y : spec_float) : SFcompare S754_nan y = None.
Proof. destruct y; reflexivity. Qed.

Lemma SFcompare_nan_r (x : spec_float) : SFcompare x S754_nan = None.
Proof. destruct x; reflexivity. Qed.

Lemma compare_notnan (x y : float) (c : comparison) :
  SFcompare (Prim2SF x) (Prim2SF y) = Some c ->
  is_nan x = false /\ is_nan y = false.
Proof.
  rewrite !is_nan_spec. intros H.
  destruct (Prim2SF x); [| | rewrite SFcompare_nan_l in H; discriminate |];
    (destruct (Prim2SF y); [| | rewrite SFcompare_nan_r in H; discriminate |]);
    auto.
Qed.

Lemma leb_notnan (x y : float) :
  (x <=? y)%float = true -> is_nan x = false /\ is_nan y = false.
Proof.
  rewrite leb_spec. unfold SFleb.
  destruct (SFcompare (Prim2SF x) (Prim2SF y)) as [c|] eqn:E; [|discriminate].
  intros _. exact (compare_notnan x y c E).
Qed.

Lemma ltb_notnan (x y : float) :
  (x <? y)%float = true -> is_nan x = false /\ is_nan y = false.
Proof.
  rewrite ltb_spec. unfold SFltb.
  destruct (SFcompare (Prim2SF x) (Prim2SF y)) as [c|] eqn:E; [|discriminate].
  intros _. exact (compare_notnan x y c E).
Qed.

Lemma ltb_false_FX (x y : float) :
  is_nan x = false -> is_nan y = false ->
  (x <? y)%float = false <-> (FX y <= FX x)%Q.
Proof.
  intros Nx Ny. pose proof (ltb_FX x y Nx Ny) as H.
  destruct (x <? y)%float; split; intros H'; try reflexivity; try discriminate.
  - destruct H as [H _]. specialize (H eq_refl). lra.
  - destruct (Qlt_le_dec (FX x) (FX y)) as [Hlt | Hge]; [|exact Hge].
    apply H in Hlt. discriminate.
Qed.

Theorem add_Rounds (x y : float) :
  is_finite x = true -> is_finite y = true ->
  FRounds true (F2Q x + F2Q y) (x + y).
Proof.
  rewrite !is_finite_SF. intros Fx Fy. unfold FRounds, F2Q.
  rewrite add_spec. apply SFadd_Rounds; auto using Prim2SF_valid.
Qed.

Theorem sub_Rounds (x y : float) :
  is_finite x = true -> is_finite y = true ->
  FRounds true (F2Q x - F2Q y) (x - y).
Proof.
  rewrite !is_finite_SF. intros Fx Fy. unfold FRounds, F2Q.
  rewrite sub_spec. apply SFsub_Rounds; auto using Prim2SF_valid.
Qed.

Theorem mul_Rounds (x y : float) :
  is_finite x = true -> is_finite y = true ->
  FRounds false (F2Q x * F2Q y) (x * y).
Proof.
  rewrite !is_finite_SF. intros Fx Fy. unfold FRounds, F2Q.
  rewrite mul_spec. apply SFmul_Rounds; auto using Prim2SF_valid.
Qed.

Lemma FRounds_mono (u1 u2 : bool) (v1 v2 : Q) (r1 r2 : float) :
  FRounds u1 v1 r1 -> FRounds u2 v2 r2 -> (v1 <= v2)%Q -> (FX r1 <= FX r2)%Q.
Proof. apply Rounds_mono. Qed.

Lemma FRounds_self (x : float) : is_finite x = true -> FRounds true (F2Q x) x.
Proof.
  rewrite is_finite_SF. intros F. apply Rounds_self; auto using Prim2SF_valid.
Qed.

Lemma FRounds_exact (uf : bool) (v : Q) (r x : float) :
  FRounds uf v r -> is_finite x = true -> (v == F2Q x)%Q ->
  (F2Q r == F2Q x)%Q /\ is_finite r = true.
Proof.
  intros Hr Fx Hv. rewrite is_finite_SF in *.
  destruct (Rounds_exact uf v (Prim2SF r) (Prim2SF x) Hr (Prim2SF_valid x) Fx Hv)
    as [H1 H2].
  split; [|exact H2]. unfold F2Q. rewrite <- (SFX_finite _ H2). exact H1.
Qed.

Lemma FRounds_error (uf : bool) (v : Q) (r : float) :
  FRounds uf v r -> is_finite r = true ->
  (Qabs (F2Q r - v)
   <= Qabs v * pow2 (-53) + (if uf then 0 else pow2 (-1075)))%Q.
Proof.
  intros Hr F. rewrite is_finite_SF in F. exact (Rounds_error uf v _ Hr F).
Qed.

Lemma FX_bound (x : float) :
  is_nan x = false ->
  (Qabs (FX x) <= pow2 1024)%Q
  /\ (is_finite x = true <-> (Qabs (FX x) < pow2 1024)%Q).
Proof.
  rewrite is_nan_SF, negb_false_iff, is_finite_SF. intros N.
  apply SFX_bound; auto using Prim2SF_valid.
Qed.

(** A non-NaN float between two finite floats is finite. *)
Lemma finite_between (lo x hi : float) :
  is_finite lo = true -> is_finite hi = true -> is_nan x = false ->
  (FX lo <= FX x)%Q -> (FX x <= FX hi)%Q -> is_finite x = true.
Proof.
  intros Fl Fh Nx H1 H2.
  apply (FX_bound x Nx).
  apply (FX_bound lo (finite_notnan lo Fl)) in Fl.
  apply (FX_bound hi (finite_notnan hi Fh)) in Fh.
  apply Qabs_Qlt_condition. apply Qabs_Qlt_condition in Fl, Fh. lra.
Qed.

#[global] Instance FRounds_proper (uf : bool) :
  Proper (Qeq ==> eq ==> iff) (FRounds uf).
Proof. intros v w H r r' <-. unfold FRounds. rewrite H. reflexivity. Qed.

(** ** Integers and floats *)

Lemma dval_Z (z : Z) : (dval z 0 == inject_Z z)%Q.
Proof. unfold dval. rewrite pow2_0. ring. Qed.

Lemma Prim2SF_float_of_Z (z : Z) :
  Prim2SF (float_of_Z z) = binary_normalize prec emax z 0 false.
Proof.
  unfold float_of_Z. apply Prim2SF_SF2Prim. apply binary_normalize_valid.
Qed.

Lemma float_of_Z_Rounds (z : Z) : FRounds true (inject_Z z) (float_of_Z z).
Proof.
  unfold FRounds. rewrite Prim2SF_float_of_Z, <- dval_Z.
  apply Rounds_normalize. lia.
Qed.

(** A dyadic of at most 53 bits within the exponent range is a float, so
    rounding leaves it as it is. *)
Lemma dyadic_exact (N e : Z) (uf : bool) (r : float) :
  Z.abs N < 2 ^ 53 -> -1074 <= e <= 971 ->
  FRounds uf (dval N e) r ->
  (F2Q r == dval N e)%Q /\ is_finite r = true.
Proof.
  intros HN He Hr.
  set (x := SF2Prim (binary_normalize prec emax N e false)).
  pose proof (binary_normalize_valid N e false) as [V Nn].
  assert (Hx : Prim2SF x = binary_normalize prec emax N e false)
    by (apply Prim2SF_SF2Prim; exact V).
  assert (HX : (SFX (Prim2SF x) == dval N e)%Q).
  { rewrite Hx, binary_normalize_SFX. unfold rndX.
    assert (Hpos : forall m : positive, Zpos m < 2 ^ 53 ->
              (clamp (rvalue m e) == dval (Zpos m) e)%Q).
    { intros m Hm. pose proof (digits2_pos_le53 m Hm) as Hd.
      assert (Hex : rexp m e <= e) by (unfold rexp, fexp64; lia).
      rewrite (clamp_proper _ _ (rvalue_exact m e Hex)).
      apply clamp_small.
      apply Qlt_le_trans with (dval (2 ^ 53) e); [apply dval_lt; exact Hm|].
      rewrite dval_pow2 by lia. apply pow2_le. lia. }
    destruct N as [|m|m].
    - rewrite dval_0. reflexivity.
    - apply Hpos. lia.
    - rewrite dval_neg, Hpos by lia. reflexivity. }
  assert (Fx : is_finite x = true).
  { rewrite is_finite_SF. apply (SFX_bound _ (Prim2SF_valid x)).
    - rewrite Hx. exact Nn.
    - rewrite HX. apply Qabs_Qlt_condition.
      assert (H1 : (dval (- 2 ^ 53) e < dval N e)%Q) by (apply dval_lt; lia).
      assert (H2 : (dval N e < dval (2 ^ 53) e)%Q) by (apply dval_lt; lia).
      rewrite dval_opp in H1. rewrite dval_pow2 in H1, H2 by lia.
      assert (H3 : (pow2 (53 + e) <= pow2 1024)%Q) by (apply pow2_le; lia).
      lra. }
  assert (Hv : (dval N e == F2Q x)%Q).
  { rewrite <- (FX_finite x Fx). unfold FX. rewrite HX. reflexivity. }
  destruct (FRounds_exact uf _ r x Hr Fx Hv) as [H1 H2].
  split; [|exact H2]. rewrite H1, <- Hv. reflexivity.
Qed.

Lemma inject_Z_inj (x y : Z) : (inject_Z x == inject_Z y)%Q -> x = y.
Proof. unfold Qeq, inject_Z. simpl. lia. Qed.

(** The integer part of a float whose value is an integer is that integer. *)
Lemma SFtrunc_integer (r : spec_float) (z : Z) :
  SFfinite r = true -> (SF2Q r == inject_Z z)%Q -> SFtrunc r = Some z.
Proof.
  intros F Hv. destruct r as [s | s | | s m e]; try discriminate.
  - cbn [SF2Q] in Hv. cbn [SFtrunc]. f_equal.
    apply inject_Z_inj. rewrite <- Hv. reflexivity.
  - rewrite SF2Q_finite in Hv. cbn [SFtrunc]. cbv zeta. f_equal.
    destruct (Z.le_gt_cases 0 e) as [He | He].
    + rewrite Z.shiftl_mul_pow2 by lia.
      assert (H : cond_Zopp s (Zpos m) * 2 ^ e = z).
      { apply inject_Z_inj. rewrite <- Hv, <- dval_Z.
        rewrite <- (dval_shift (cond_Zopp s (Zpos m)) e e) by lia.
        rewrite Z.sub_diag. reflexivity. }
      rewrite <- H. destruct s; cbn [cond_Zopp]; lia.
    + assert (H : cond_Zopp s (Zpos m) = z * 2 ^ (- e)).
      { assert (H1 : (dval (cond_Zopp s (Zpos m)) e == dval (z * 2 ^ (- e)) e)%Q).
        { rewrite Hv, <- dval_Z.
          rewrite <- (dval_shift z 0 (- e)) by lia.
          replace (0 - - e) with e by lia. reflexivity. }
        apply Z.le_antisymm; apply (dval_le _ _ e); lra. }
      pose proof (pow2_pos (- e) ltac:(lia)) as Hp.
      assert (Hq : Z.shiftl (Zpos m) e = Zpos m / 2 ^ (- e)).
      { rewrite <- (Z.opp_involutive e) at 1.
        rewrite Z.shiftl_opp_r, Z.shiftr_div_pow2 by lia. reflexivity. }
      rewrite Hq.
      destruct s; cbn [cond_Zopp] in *.
      * replace (Zpos m) with ((- z) * 2 ^ (- e)) by lia.
        rewrite Z.div_mul by lia. lia.
      * rewrite H. rewrite Z.div_mul by lia. reflexivity.
Qed.

Lemma Ztrunc_integer (x : float) (z : Z) :
  is_finite x = true -> (F2Q x == inject_Z z)%Q -> Ztrunc x = Some z.
Proof.
  rewrite is_finite_SF. intros F Hv. apply SFtrunc_integer; assumption.
Qed.

Lemma F2Q_zero : F2Q 0%float = 0%Q.
Proof. reflexivity. Qed.

Lemma F2Q_one : (F2Q 1%float == 1)%Q.
Proof. vm_compute. reflexivity. Qed.

Lemma IsInf_0 (x : float) :
  GoMath.IsInf x 0 = (x =? infinity)%float || (x =? neg_infinity)%float.
Proof. reflexivity. Qed.

(** [Floor] of a finite float. *)
Theorem Floor_finite (x : float) :
  is_finite x = true ->
  exists z : Z,
    is_finite (GoMath.Floor x) = true
    /\ (F2Q (GoMath.Floor x) == inject_Z z)%Q
    /\ (inject_Z z <= F2Q x)%Q /\ (F2Q x < inject_Z z + 1)%Q
    /\ Ztrunc (GoMath.Floor x) = Some z.
Proof.
  intros F. pose proof (finite_notnan x F) as Nx.
  pose proof F as F'. rewrite is_finite_SF in F'.
  unfold GoMath.Floor, GoMath.IsNaN. rewrite IsInf_0.
  destruct (x =? 0)%float eqn:E0.
  - apply (eqb_FX x 0 Nx eq_refl) in E0. rewrite (FX_finite x F) in E0.
    change (FX 0) with 0%Q in E0.
    exists 0. cbn [orb]. split; [exact F|]. split; [exact E0|].
    split; [rewrite E0; discriminate|]. split; [rewrite E0; reflexivity|].
    apply Ztrunc_integer; assumption.
  - rewrite Nx. rewrite is_finite_sentinels in F.
    destruct (x =? infinity)%float; [discriminate|].
    destruct (x =? neg_infinity)%float; [discriminate|].
    cbn [orb].
    destruct (Prim2SF x) as [s | s | | s m e] eqn:Ex.
    + exfalso. rewrite FloatAxioms.eqb_spec, Ex in E0.
      destruct s; discriminate.
    + discriminate.
    + discriminate.
    + cbn [SFfloor].
      pose proof (Prim2SF_valid x) as V. rewrite Ex in V.
      pose proof (bounded_canonical m e V) as (Hd & He & _).
      set (N := cond_Zopp s (Zpos m)).
      assert (HN : Z.abs N < 2 ^ 53).
      { pose proof (digits2_pos_bounds m) as [_ H2].
        assert (2 ^ Zpos (digits2_pos m) <= 2 ^ 53) by (apply Z.pow_le_mono_r; lia).
        unfold N. destruct s; cbn [cond_Zopp]; lia. }
      assert (Hx : (F2Q x == dval N e)%Q).
      { unfold F2Q. rewrite Ex. reflexivity. }
      exists (Z.shiftl N e).
      pose proof (float_of_Z_Rounds (Z.shiftl N e)) as Hr.
      destruct (Z.le_gt_cases 0 e) as [Hpos | Hneg].
      * rewrite Z.shiftl_mul_pow2 in * by lia.
        assert (Hv : (inject_Z (N * 2 ^ e) == dval N e)%Q).
        { rewrite <- dval_Z, <- (dval_shift N e e) by lia.
          rewrite Z.sub_diag. reflexivity. }
        rewrite Hv in Hr.
        destruct (dyadic_exact N e true _ HN ltac:(lia) Hr) as [H1 H2].
        split; [exact H2|]. split; [rewrite H1, Hv; reflexivity|].
        split; [rewrite Hx, Hv; apply Qle_refl|].
        split; [rewrite Hx, Hv; lra|].
        apply Ztrunc_integer; [exact H2 | rewrite H1, Hv; reflexivity].
      * pose proof (pow2_pos (- e) ltac:(lia)) as Hp.
        assert (Hsh : Z.shiftl N e = N / 2 ^ (- e)).
        { rewrite <- (Z.opp_involutive e) at 1.
          rewrite Z.shiftl_opp_r, Z.shiftr_div_pow2 by lia. reflexivity. }
        rewrite Hsh in *. set (z := N / 2 ^ (- e)) in *.
        pose proof (Z.div_mod N (2 ^ (- e)) ltac:(lia)) as Hdm.
        pose proof (Z.mod_pos_bound N (2 ^ (- e)) Hp) as Hmod.
        fold z in Hdm.
        assert (Hz : Z.abs z < 2 ^ 53) by nia.
        rewrite <- dval_Z in Hr.
        destruct (dyadic_exact z 0 true _ Hz ltac:(lia) Hr) as [H1 H2].
        rewrite dval_Z in H1.
        assert (Hze : (inject_Z z == dval (z * 2 ^ (- e)) e)%Q).
        { rewrite <- dval_Z, <- (dval_shift z 0 (- e)) by lia.
          replace (0 - - e) with e by lia. reflexivity. }
        assert (Hz1 : (inject_Z z + 1 == dval ((z + 1) * 2 ^ (- e)) e)%Q).
        { change 1%Q with (inject_Z 1).
          rewrite <- inject_Z_plus, <- dval_Z, <- (dval_shift (z + 1) 0 (- e)) by lia.
          replace (0 - - e) with e by lia. reflexivity. }
        split; [exact H2|]. split; [exact H1|].
        split; [rewrite Hx, Hze; apply dval_le; lia|].
        split; [rewrite Hx, Hz1; apply dval_lt; lia|].
        apply Ztrunc_integer; assumption.
Qed.

(** ** Serializing an integer *)

Lemma Z_of_byte_of_Z (z : Z) : Z_of_byte (byte_of_Z z) = z mod 256.
Proof.
  unfold Z_of_byte, byte_of_Z.
  pose proof (Z.mod_pos_bound z 256 ltac:(lia)) as Hb.
  destruct (Byte.of_N (Z.to_N (z mod 256))) as [c|] eqn:E.
  - apply Byte.to_of_N in E. rewrite E. apply Z2N.id. lia.
  - exfalso. apply Byte.of_N_None_iff in E.
    apply N2Z.inj_lt in E. rewrite Z2N.id in E by lia. simpl Z.of_N in E. lia.
Qed.

Lemma be_value_PutUint16 (v : Z) :
  0 <= v < 2 ^ 16 -> be_value (BigEndian.PutUint16 v) = v.
Proof.
  intros Hv. unfold BigEndian.PutUint16, be_value. cbn [fold_left].
  rewrite !Z_of_byte_of_Z, !Z.shiftr_div_pow2 by lia.
  change (2 ^ 16) with 65536 in Hv. change (2 ^ 8) with 256.
  Z.div_mod_to_equations. lia.
Qed.

Lemma be_value_PutUint32 (v : Z) :
  0 <= v < 2 ^ 32 -> be_value (BigEndian.PutUint32 v) = v.
Proof.
  intros Hv. unfold BigEndian.PutUint32, be_value. cbn [fold_left].
  rewrite !Z_of_byte_of_Z, !Z.shiftr_div_pow2 by lia.
  change (2 ^ 32) with 4294967296 in Hv.
  change (2 ^ 8) with 256. change (2 ^ 16) with 65536.
  change (2 ^ 24) with 16777216. Z.div_mod_to_equations. lia.
Qed.

Lemma be_value_PutUint64 (v : Z) :
  0 <= v < 2 ^ 64 -> be_value (BigEndian.PutUint64 v) = v.
Proof.
  intros Hv. unfold BigEndian.PutUint64, be_value. cbn [fold_left].
  rewrite !Z_of_byte_of_Z, !Z.shiftr_div_pow2 by lia.
  change (2 ^ 64) with 18446744073709551616 in Hv.
  change (2 ^ 8) with 256. change (2 ^ 16) with 65536.
  change (2 ^ 24) with 16777216. change (2 ^ 32) with 4294967296.
  change (2 ^ 40) with 1099511627776. change (2 ^ 48) with 281474976710656.
  change (2 ^ 56) with 72057594037927936. Z.div_mod_to_equations. lia.
Qed.

Lemma be_value_byte (v : Z) :
  0 <= v < 2 ^ 8 -> be_value [byte_of_Z v] = v.
Proof.
  intros Hv. unfold be_value. cbn [fold_left]. rewrite Z_of_byte_of_Z.
  change (2 ^ 8) with 256 in Hv. Z.div_mod_to_equations. lia.
Qed.

(** ** Signs *)

Lemma rndX_opp (N e : Z) : (rndX (- N) e == - rndX N e)%Q.
Proof. destruct N; cbn [Z.opp rndX]; ring. Qed.

Lemma Rounds_opp (uf : bool) (v : Q) (r : spec_float) :
  Rounds uf v r -> Rounds uf (- v) (SFopp r).
Proof.
  intros (V & Nn & N & e & Hv & Hr & Hu).
  split; [destruct r; exact V|]. split; [destruct r; exact Nn|].
  exists (- N), e. split; [rewrite dval_opp, Hv; reflexivity|].
  split; [rewrite SFX_opp, Hr, rndX_opp; reflexivity | exact Hu].
Qed.

Lemma FRounds_opp (uf : bool) (v : Q) (r : float) :
  FRounds uf v r -> FRounds uf (- v) (- r).
Proof. unfold FRounds. rewrite opp_spec. apply Rounds_opp. Qed.

Lemma FX_opp (x : float) : (FX (- x) == - FX x)%Q.
Proof. unfold FX. rewrite opp_spec. apply SFX_opp. Qed.

Lemma is_finite_opp (x : float) : is_finite (- x) = is_finite x.
Proof. rewrite !is_finite_SF, opp_spec. destruct (Prim2SF x); reflexivity. Qed.

Lemma F2Q_opp (x : float) : (F2Q (- x) == - F2Q x)%Q.
Proof.
  unfold F2Q. rewrite opp_spec.
  destruct (Prim2SF x) as [s | s | | s m e]; cbn [SFopp SF2Q]; try ring.
  fold (SF2Q (S754_finite (negb s) m e)). fold (SF2Q (S754_finite s m e)).
  rewrite !SF2Q_finite. destruct s; cbn [negb cond_Zopp];
    change (Z.opp (Zpos m)) with (Zneg m); rewrite dval_neg; ring.
Qed.

(** A positive finite float times +Inf is +Inf. *)
Lemma mul_pos_infinity (s x : float) :
  is_finite s = true -> (0 < F2Q s)%Q -> Prim2SF x = S754_infinity false ->
  Prim2SF (s * x) = S754_infinity false.
Proof.
  intros Fs Hs Hx. rewrite mul_spec, Hx. rewrite is_finite_SF in Fs.
  unfold F2Q in Hs.
  destruct (Prim2SF s) as [sg | sg | | sg m e]; try discriminate.
  destruct sg; [|reflexivity]. exfalso.
  rewrite SF2Q_finite in Hs. cbn [cond_Zopp] in Hs.
  change (Z.opp (Zpos m)) with (Zneg m) in Hs. rewrite dval_neg in Hs.
  pose proof (dval_pos m e). lra.
Qed.

Lemma FX_zero : FX 0%float = 0%Q.
Proof. reflexivity. Qed.

Lemma FRounds_zero : FRounds true 0 0%float.
Proof. apply (FRounds_self 0%float). reflexivity. Qed.

Lemma FRounds_nonneg (uf : bool) (v : Q) (r : float) :
  FRounds uf v r -> (0 <= v)%Q -> (0 <= FX r)%Q.
Proof.
  intros Hr Hv. rewrite <- FX_zero.
  exact (FRounds_mono _ _ _ _ _ _ FRounds_zero Hr Hv).
Qed.

Lemma FRounds_nonpos (uf : bool) (v : Q) (r : float) :
  FRounds uf v r -> (v <= 0)%Q -> (FX r <= 0)%Q.
Proof.
  intros Hr Hv. rewrite <- FX_zero.
  exact (FRounds_mono _ _ _ _ _ _ Hr FRounds_zero Hv).
Qed.

(** A float not NaN and not +Inf or -Inf is finite. *)
Lemma notnan_cases (x : float) :
  is_nan x = false ->
  is_finite x = true \/ Prim2SF x = S754_infinity false
  \/ Prim2SF x = S754_infinity true.
Proof.
  rewrite is_nan_spec, is_finite_SF.
  destruct (Prim2SF x) as [s | s | | s m e]; try discriminate; auto.
  destruct s; auto.
Qed.

Lemma float_of_Z_dyadic (N n : Z) :
  Z.abs N < 2 ^ 53 -> 0 <= n <= 971 ->
  is_finite (float_of_Z (N * 2 ^ n)) = true
  /\ (F2Q (float_of_Z (N * 2 ^ n)) == inject_Z (N * 2 ^ n))%Q.
Proof.
  intros HN Hn. pose proof (float_of_Z_Rounds (N * 2 ^ n)) as Hr.
  assert (Hv : (inject_Z (N * 2 ^ n) == dval N n)%Q).
  { unfold dval. rewrite inject_Z_mult, pow2_Z by lia. reflexivity. }
  rewrite Hv in Hr.
  destruct (dyadic_exact N n true _ HN ltac:(lia) Hr) as [H1 H2].
  split; [exact H2|]. rewrite H1, Hv. reflexivity.
Qed.

(** ** The code of a value in range *)

Section RangeFacts.

Variable fpe : FPEncoder.
Hypothesis Hfit : range_fits_field fpe = true.
Hypothesis HL : valid_length (fieldLength fpe).

Lemma data_bits_range : 7 <= data_bits fpe <= 63.
Proof. unfold data_bits. destruct HL as [-> | [-> | [-> | ->]]]; lia. Qed.

Lemma data_span_ge : (128 <= inject_Z (2 ^ data_bits fpe))%Q.
Proof.
  pose proof data_bits_range as H.
  change 128%Q with (inject_Z (2 ^ 7)). rewrite <- Zle_Qle.
  apply Z.pow_le_mono_r; lia.
Qed.

Lemma data_span_split :
  2 ^ data_bits fpe = 2 * 2 ^ (data_bits fpe - 1)
  /\ 2 ^ data_bits fpe = 64 * 2 ^ (data_bits fpe - 6)
  /\ 2 <= 2 ^ (data_bits fpe - 6).
Proof.
  pose proof data_bits_range as H.
  split; [|split].
  - replace (data_bits fpe) with (data_bits fpe - 1 + 1) at 1 by lia.
    rewrite Z.pow_add_r by lia. change (2 ^ 1) with 2. lia.
  - replace (data_bits fpe) with (data_bits fpe - 6 + 6) at 1 by lia.
    rewrite Z.pow_add_r by lia. change (2 ^ 6) with 64. lia.
  - change 2 with (2 ^ 1) at 1. apply Z.pow_le_mono_r; lia.
Qed.

(** The limit and the top are floats. *)
Lemma code_limit_float :
  is_finite (float_of_Z (code_limit fpe)) = true
  /\ (F2Q (float_of_Z (code_limit fpe)) == inject_Z (code_limit fpe))%Q.
Proof.
  pose proof data_bits_range as H.
  apply float_of_Z_dyadic; [simpl; lia | lia].
Qed.

Lemma code_top_float :
  is_finite (float_of_Z (code_top fpe)) = true
  /\ (F2Q (float_of_Z (code_top fpe)) == inject_Z (code_top fpe))%Q.
Proof.
  pose proof data_bits_range as H.
  apply float_of_Z_dyadic; [simpl; lia | lia].
Qed.

Lemma code_limit_top : code_limit fpe + 1 <= code_top fpe < 2 ^ (data_bits fpe + 1).
Proof.
  destruct data_span_split as (H1 & H2 & H3).
  pose proof data_bits_range as H.
  unfold code_limit, code_top. rewrite Z.pow_add_r by lia.
  change (2 ^ 1) with 2. lia.
Qed.

Lemma fits_fields :
  is_finite (a fpe) = true /\ is_finite (b fpe) = true
  /\ is_finite (sF fpe) = true /\ (0 < F2Q (sF fpe))%Q
  /\ is_nan (sF fpe * (b fpe - a fpe)) = false
  /\ (FX (sF fpe * (b fpe - a fpe)) <= inject_Z (code_limit fpe))%Q.
Proof.
  unfold range_fits_field in Hfit.
  apply andb_true_iff in Hfit as [H1 H5]. apply andb_true_iff in H1 as [H1 H4].
  apply andb_true_iff in H1 as [H1 H3]. apply andb_true_iff in H1 as [H1 H2].
  split; [exact H1|]. split; [exact H2|]. split; [exact H3|].
  destruct code_limit_float as [Fp Hp].
  split.
  - apply (ltb_FX 0 (sF fpe) eq_refl (finite_notnan _ H3)) in H4.
    rewrite FX_zero, (FX_finite _ H3) in H4. exact H4.
  - destruct (leb_notnan _ _ H5) as [N1 N2]. split; [exact N1|].
    apply (leb_FX _ _ N1 N2) in H5.
    rewrite (FX_finite _ Fp), Hp in H5. exact H5.
Qed.

(** The width of the range is a finite float. *)
Lemma range_finite :
  (F2Q (a fpe) <= F2Q (b fpe))%Q ->
  is_finite (b fpe - a fpe) = true
  /\ FRounds true (F2Q (b fpe) - F2Q (a fpe)) (b fpe - a fpe)
  /\ (0 <= F2Q (b fpe - a fpe))%Q
  /\ (FX (sF fpe * (b fpe - a fpe)) <= inject_Z (code_limit fpe))%Q.
Proof.
  intros Hab.
  destruct fits_fields as (Fa & Fb & Fs & Hs & Nub & Hub).
  pose proof data_bits_range as HdP.
  pose proof (sub_Rounds (b fpe) (a fpe) Fb Fa) as Rtb.
  set (tb := (b fpe - a fpe)%float) in *.
  pose proof (FRounds_nonneg _ _ _ Rtb ltac:(lra)) as Htb0.
  assert (Ftb : is_finite tb = true).
  { destruct (notnan_cases tb (FRounds_notnan _ _ _ Rtb)) as [H | [H | H]].
    - exact H.
    - exfalso. pose proof (mul_pos_infinity (sF fpe) tb Fs Hs H) as Hinf.
      unfold FX in Hub. rewrite Hinf in Hub. cbn [SFX] in Hub.
      assert (Hlt : (inject_Z (code_limit fpe) < pow2 1024)%Q).
      { apply Qle_lt_trans with (inject_Z (2 ^ (data_bits fpe + 1))).
        - rewrite <- Zle_Qle. pose proof code_limit_top. lia.
        - rewrite pow2_Z by lia. apply pow2_lt. lia. }
      lra.
    - exfalso. unfold FX in Htb0. rewrite H in Htb0. cbn [SFX] in Htb0.
      pose proof (pow2_gt0 1024). lra. }
  rewrite (FX_finite tb Ftb) in Htb0. auto.
Qed.

End RangeFacts.

Section EncodeAnalysis.

Variable fpe : FPEncoder.
Hypothesis Hfit : range_fits_field fpe = true.
Hypothesis HL : valid_length (fieldLength fpe).
Hypothesis Fz : is_finite (zOffset fpe) = true.
Hypothesis Hz : (0 <= F2Q (zOffset fpe) <= 1)%Q.

(** What [Encode] computes on the way to the code of [val]. *)
Theorem encode_steps (val : float) :
  is_finite val = true ->
  (F2Q (a fpe) <= F2Q val)%Q -> (F2Q val <= F2Q (b fpe))%Q ->
  let t := (val - a fpe)%float in
  let u := (sF fpe * t)%float in
  let w := (u + zOffset fpe)%float in
  is_finite t = true /\ is_finite u = true /\ is_finite w = true
  /\ FRounds true (F2Q val - F2Q (a fpe)) t
  /\ FRounds false (F2Q (sF fpe) * F2Q t) u
  /\ FRounds true (F2Q u + F2Q (zOffset fpe)) w
  /\ (0 <= F2Q t)%Q /\ (0 <= F2Q u <= inject_Z (code_limit fpe))%Q
  /\ (0 <= F2Q w)%Q
  /\ exists D : Z,
       Ztrunc (Encode_code fpe val) = Some D
       /\ is_finite (Encode_code fpe val) = true
       /\ (F2Q (Encode_code fpe val) == inject_Z D)%Q
       /\ (inject_Z D <= F2Q w)%Q /\ (F2Q w < inject_Z D + 1)%Q
       /\ 0 <= D <= code_top fpe.
Proof.
  intros Fv Hlo Hhi t u w.
  destruct (fits_fields fpe Hfit HL) as (Fa & Fb & Fs & Hs & Nub & Hub).
  pose proof (data_bits_range fpe HL) as HdP.
  destruct (range_finite fpe Hfit HL ltac:(lra)) as (Ftb & Rtb & Htb0 & _).
  set (tb := (b fpe - a fpe)%float) in *.
  pose proof (mul_Rounds (sF fpe) tb Fs Ftb) as Rub.
  (* t *)
  pose proof (sub_Rounds val (a fpe) Fv Fa) as Rt. fold t in Rt.
  pose proof (FRounds_nonneg _ _ _ Rt ltac:(lra)) as Ht0.
  pose proof (FRounds_mono _ _ _ _ _ _ Rt Rtb ltac:(lra)) as Httb.
  assert (Ft : is_finite t = true).
  { apply (finite_between 0%float t tb);
      [reflexivity | exact Ftb | exact (FRounds_notnan _ _ _ Rt)
      | rewrite FX_zero; exact Ht0 | exact Httb]. }
  rewrite (FX_finite t Ft) in Ht0, Httb. rewrite (FX_finite tb Ftb) in Httb.
  (* u *)
  pose proof (mul_Rounds (sF fpe) t Fs Ft) as Ru. fold u in Ru.
  assert (Hst0 : (0 <= F2Q (sF fpe) * F2Q t)%Q) by (apply Qmult_le_0_compat; lra).
  pose proof (FRounds_nonneg _ _ _ Ru Hst0) as Hu0.
  assert (Hstb : (F2Q (sF fpe) * F2Q t <= F2Q (sF fpe) * F2Q tb)%Q).
  { rewrite !(Qmult_comm (F2Q (sF fpe))). apply Qmult_le_compat_r; lra. }
  pose proof (FRounds_mono _ _ _ _ _ _ Ru Rub Hstb) as Huub.
  destruct (code_limit_float fpe HL) as [Fp Hp].
  assert (Fu : is_finite u = true).
  { apply (finite_between 0%float u (float_of_Z (code_limit fpe)));
      [reflexivity | exact Fp | exact (FRounds_notnan _ _ _ Ru)
      | rewrite FX_zero; exact Hu0
      | rewrite (FX_finite _ Fp), Hp; lra]. }
  rewrite (FX_finite u Fu) in Hu0, Huub.
  (* w *)
  pose proof (add_Rounds u (zOffset fpe) Fu Fz) as Rw. fold w in Rw.
  pose proof (FRounds_nonneg _ _ _ Rw ltac:(lra)) as Hw0.
  destruct (code_top_float fpe HL) as [Fc Hc].
  assert (HcP : (inject_Z (code_limit fpe) + 1
                 <= F2Q (float_of_Z (code_top fpe)))%Q).
  { rewrite Hc. change 1%Q with (inject_Z 1).
    rewrite <- inject_Z_plus, <- Zle_Qle.
    pose proof (code_limit_top fpe HL). lia. }
  pose proof (FRounds_mono _ _ _ _ _ _ Rw (FRounds_self _ Fc) ltac:(lra))
    as Hwc.
  assert (Fw : is_finite w = true).
  { apply (finite_between 0%float w (float_of_Z (code_top fpe)));
      [reflexivity | exact Fc | exact (FRounds_notnan _ _ _ Rw)
      | rewrite FX_zero; exact Hw0 | exact Hwc]. }
  rewrite (FX_finite w Fw) in Hw0, Hwc. rewrite (FX_finite _ Fc) in Hwc.
  (* the code *)
  destruct (Floor_finite w Fw) as (D & Fd & Hd & HD1 & HD2 & HDt).
  do 9 (split; [assumption || lra|]).
  exists D. unfold Encode_code. fold t. fold u. fold w.
  repeat (split; [assumption|]).
  assert (H0 : (inject_Z (-1) < inject_Z D)%Q).
  { change (inject_Z (-1)) with (-1 # 1)%Q. lra. }
  rewrite <- Zlt_Qlt in H0.
  assert (H1 : (inject_Z D <= inject_Z (code_top fpe))%Q) by lra.
  rewrite <- Zle_Qle in H1.
  split; [lia | exact H1].
Qed.

Variable cvt : int_type -> float -> Z.

Lemma float_to_exact (t : int_type) (d : float) (D : Z) :
  Ztrunc d = Some D -> in_range t D = true -> float_to cvt t d = D.
Proof. intros H1 H2. unfold float_to. rewrite H1, H2. reflexivity. Qed.

(** [Encode] of a finite value in range gives the code as [fieldLength]
    big-endian bytes. *)
Theorem Encode_in_range (val : float) :
  is_finite val = true ->
  (F2Q (a fpe) <= F2Q val)%Q -> (F2Q val <= F2Q (b fpe))%Q ->
  exists (bytes : list byte) (D : Z),
    Encode cvt fpe val = Ok bytes
    /\ Z.of_nat (length bytes) = fieldLength fpe
    /\ be_value bytes = D
    /\ Ztrunc (Encode_code fpe val) = Some D
    /\ 0 <= D <= code_top fpe.
Proof.
  intros Fv Hlo Hhi.
  destruct (encode_steps val Fv Hlo Hhi)
    as (_ & _ & _ & _ & _ & _ & _ & _ & _ & D & HD & _ & _ & _ & _ & HDr).
  destruct (fits_fields fpe Hfit HL) as (Fa & Fb & _).
  assert (Hs : (val =? infinity)%float = false
               /\ (val =? neg_infinity)%float = false /\ is_nan val = false).
  { rewrite is_finite_sentinels in Fv.
    apply andb_true_iff in Fv as [Fv F3]. apply andb_true_iff in Fv as [F1 F2].
    rewrite negb_true_iff in F1, F2, F3. auto. }
  destruct Hs as (S1 & S2 & S3).
  assert (R1 : (val <? a fpe)%float = false).
  { apply ltb_false_FX; auto using finite_notnan.
    rewrite !FX_finite by assumption. exact Hlo. }
  assert (R2 : (b fpe <? val)%float = false).
  { apply ltb_false_FX; auto using finite_notnan.
    rewrite !FX_finite by assumption. exact Hhi. }
  unfold Encode. rewrite (make_bytes_valid _ HL).
  change (GoMath.Inf 0) with infinity. change (GoMath.Inf (-1)) with neg_infinity.
  unfold GoMath.IsNaN. rewrite S1, S2, S3, R1, R2. cbn [orb]. cbv zeta.
  change (GoMath.Floor (sF fpe * (val - a fpe) + zOffset fpe))
    with (Encode_code fpe val).
  pose proof (code_limit_top fpe HL) as [_ Htop].
  assert (HD2 : 0 <= D < 2 ^ (data_bits fpe + 1)) by lia.
  eexists. exists D. split; [reflexivity|].
  unfold data_bits in HD2.
  destruct HL as [E | [E | [E | E]]]; rewrite E in HD2 |- *;
    [ change (2 ^ (8 * 1 - 1 + 1)) with (2 ^ 8) in HD2
    | change (2 ^ (8 * 2 - 1 + 1)) with (2 ^ 16) in HD2
    | change (2 ^ (8 * 4 - 1 + 1)) with (2 ^ 32) in HD2
    | change (2 ^ (8 * 8 - 1 + 1)) with (2 ^ 64) in HD2 ].
  - rewrite (float_to_exact Uint8 _ D HD)
      by (unfold in_range; cbn [int_min int_max]; apply andb_true_iff;
          split; apply Z.leb_le; lia).
    split; [reflexivity|]. split; [apply be_value_byte; lia|].
    split; [exact HD | exact HDr].
  - rewrite (float_to_exact Uint16 _ D HD)
      by (unfold in_range; cbn [int_min int_max]; apply andb_true_iff;
          split; apply Z.leb_le; lia).
    split; [reflexivity|]. split; [apply be_value_PutUint16; lia|].
    split; [exact HD | exact HDr].
  - rewrite (float_to_exact Uint32 _ D HD)
      by (unfold in_range; cbn [int_min int_max]; apply andb_true_iff;
          split; apply Z.leb_le; lia).
    split; [reflexivity|]. split; [apply be_value_PutUint32; lia|].
    split; [exact HD | exact HDr].
  - rewrite (float_to_exact Uint64 _ D HD)
      by (unfold in_range; cbn [int_min int_max]; apply andb_true_iff;
          split; apply Z.leb_le; lia).
    split; [reflexivity|]. split; [apply be_value_PutUint64; lia|].
    split; [exact HD | exact HDr].
Qed.

End EncodeAnalysis.

(** ** The code grows with the value *)


(** ** The zero offset of a constructed codec *)

Lemma preCompute_fields (fpe0 : FPEncoder) (min max : float) (length : Z) :
  let fpe := preCompute fpe0 min max length in
  a fpe = min /\ b fpe = max /\ fieldLength fpe = length
  /\ zOffset fpe =
     (if (min <? 0) && (0 <? max)
      then sF fpe * min - GoMath.Floor (sF fpe * min)
      else zOffset fpe0)%float.
Proof. cbv zeta. repeat split. Qed.

Lemma preCompute_zOffset (min max : float) (length : Z) :
  let fpe := preCompute newFPEncoder min max length in
  range_fits_field fpe = true -> valid_length length ->
  is_finite (zOffset fpe) = true /\ (0 <= F2Q (zOffset fpe) <= 1)%Q.
Proof.
  intros fpe Hfit HL.
  destruct (preCompute_fields newFPEncoder min max length)
    as (Ea & Eb & El & Ez). fold fpe in Ea, Eb, El, Ez.
  rewrite <- El in HL.
  destruct (fits_fields fpe Hfit HL) as (Fa & Fb & Fs & Hs & _ & _).
  rewrite Ez. rewrite Ea in Fa. rewrite Eb in Fb.
  destruct ((min <? 0) && (0 <? max))%float eqn:Hc.
  2:{ change (zOffset newFPEncoder) with 0%float.
      split; [reflexivity|]. rewrite F2Q_zero. lra. }
  apply andb_true_iff in Hc as [Hc1 Hc2].
  apply (ltb_FX min 0 (finite_notnan _ Fa) eq_refl) in Hc1.
  apply (ltb_FX 0 max eq_refl (finite_notnan _ Fb)) in Hc2.
  rewrite FX_zero in Hc1, Hc2. rewrite (FX_finite _ Fa) in Hc1.
  rewrite (FX_finite _ Fb) in Hc2.
  destruct (range_finite fpe Hfit HL ltac:(rewrite Ea, Eb; lra))
    as (Ftb & Rtb & Htb0 & Hub).
  rewrite Ea, Eb in Ftb, Rtb, Htb0, Hub.
  (* the scaled lower bound is a finite float between -2^data_bits and 0 *)
  pose proof (mul_Rounds (sF fpe) min Fs Fa) as Rx.
  set (x := (sF fpe * min)%float) in *.
  pose proof (FRounds_opp _ _ _ Rx) as Rnx.
  pose proof (mul_Rounds (sF fpe) (max - min) Fs Ftb) as Rub.
  assert (Hna : (- F2Q min <= F2Q (max - min))%Q).
  { pose proof (FRounds_opp _ _ _ (FRounds_self _ Fa)) as Rna.
    pose proof (FRounds_mono _ _ _ _ _ _ Rna Rtb ltac:(lra)) as H.
    rewrite FX_opp, !FX_finite in H by assumption. exact H. }
  assert (Hle : (- (F2Q (sF fpe) * F2Q min)
                 <= F2Q (sF fpe) * F2Q (max - min))%Q).
  { setoid_replace (- (F2Q (sF fpe) * F2Q min))%Q
      with (- F2Q min * F2Q (sF fpe))%Q by ring.
    rewrite (Qmult_comm (F2Q (sF fpe)) (F2Q (max - min))).
    apply Qmult_le_compat_r; lra. }
  pose proof (FRounds_mono _ _ _ _ _ _ Rnx Rub Hle) as Hnx.
  assert (Hx0 : (F2Q (sF fpe) * F2Q min <= 0)%Q).
  { setoid_replace (F2Q (sF fpe) * F2Q min)%Q
      with (- (F2Q (sF fpe) * - F2Q min))%Q by ring.
    assert (0 <= F2Q (sF fpe) * - F2Q min)%Q by (apply Qmult_le_0_compat; lra).
    lra. }
  pose proof (FRounds_nonneg _ _ _ Rnx ltac:(lra)) as Hnx0.
  pose proof (data_bits_range fpe HL) as HdP.
  destruct (code_limit_float fpe HL) as [Fp Hp].
  assert (Fnx : is_finite (- x) = true).
  { apply (finite_between 0%float (- x) (float_of_Z (code_limit fpe)));
      [reflexivity | exact Fp | exact (FRounds_notnan _ _ _ Rnx)
      | rewrite FX_zero; exact Hnx0
      | rewrite (FX_finite _ Fp), Hp; lra]. }
  assert (Fx : is_finite x = true) by (rewrite <- is_finite_opp; exact Fnx).
  (* its fractional part *)
  destruct (Floor_finite x Fx) as (z & Ff & Hf & Hz1 & Hz2 & _).
  pose proof (sub_Rounds x (GoMath.Floor x) Fx Ff) as Rz.
  pose proof (FRounds_nonneg _ _ _ Rz ltac:(lra)) as Hz0.
  pose proof (FRounds_mono _ _ _ _ _ _ Rz (FRounds_self 1%float eq_refl)
                ltac:(rewrite F2Q_one; lra)) as Hz3.
  assert (Fz : is_finite (x - GoMath.Floor x) = true).
  { apply (finite_between 0%float _ 1%float);
      [reflexivity | reflexivity | exact (FRounds_notnan _ _ _ Rz)
      | rewrite FX_zero; exact Hz0 | exact Hz3]. }
  split; [exact Fz|].
  rewrite (FX_finite _ Fz) in Hz0, Hz3.
  rewrite (FX_finite 1%float eq_refl), F2Q_one in Hz3. lra.
Qed.

(** ** Monotonicity *)



(** ** The arithmetic of a round trip *)

Lemma Qabs_bounds (x e : Q) : (Qabs x <= e -> - e <= x /\ x <= e)%Q.
Proof. intros H. apply Qabs_Qle_condition in H. exact H. Qed.

Lemma Qabs_upper (x q : Q) : (x <= q -> - x <= q -> Qabs x <= q)%Q.
Proof. intros H1 H2. apply Qabs_Qle_condition. split; lra. Qed.

Lemma Qscale_le (r x y : Q) : (0 <= r -> x <= y -> r * x <= r * y)%Q.
Proof. intros. nra. Qed.


(** ** The first byte of a code *)

Lemma be_value_acc (bs : list byte) (acc : Z) :
  fold_left (fun acc b => acc * 256 + Z_of_byte b) bs acc
  = acc * 256 ^ Z.of_nat (List.length bs) + be_value bs.
Proof.
  unfold be_value. revert acc.
  induction bs as [|c bs IH]; intros acc.
  - cbn [fold_left List.length Z.of_nat]. rewrite Z.pow_0_r. lia.
  - cbn [fold_left]. rewrite IH, (IH (0 * 256 + Z_of_byte c)).
    change (List.length (c :: bs)) with (S (List.length bs)).
    rewrite Nat2Z.inj_succ, Z.pow_succ_r by lia. lia.
Qed.

Lemma be_value_nonneg (bs : list byte) : 0 <= be_value bs.
Proof.
  induction bs as [|c bs IH].
  - reflexivity.
  - unfold be_value. cbn [fold_left]. rewrite be_value_acc.
    pose proof (Z_of_byte_range c).
    assert (0 <= 256 ^ Z.of_nat (List.length bs)) by (apply Z.pow_nonneg; lia).
    nia.
Qed.

Lemma be_value_first (c : byte) (bs : list byte) :
  Z_of_byte c * 256 ^ Z.of_nat (List.length bs) <= be_value (c :: bs).
Proof.
  unfold be_value. cbn [fold_left]. rewrite be_value_acc.
  pose proof (be_value_nonneg bs). lia.
Qed.

Lemma code_first_byte (n : Z) (c : byte) (bs : list byte) :
  valid_length n -> Z.of_nat (List.length (c :: bs)) = n ->
  be_value (c :: bs) <= 97 * 2 ^ (8 * n - 1 - 6) ->
  Z_of_byte c < 200.
Proof.
  intros HL Hlen Hv. pose proof (be_value_first c bs) as H.
  change (List.length (c :: bs)) with (S (List.length bs)) in Hlen.
  rewrite Nat2Z.inj_succ in Hlen.
  assert (Hn : Z.of_nat (List.length bs) = n - 1) by lia.
  rewrite Hn in H.
  destruct HL as [E | [E | [E | E]]]; rewrite E in *;
    [ change (2 ^ (8 * 1 - 1 - 6)) with 2 in Hv;
      change (256 ^ (1 - 1)) with 1 in H
    | change (2 ^ (8 * 2 - 1 - 6)) with 512 in Hv;
      change (256 ^ (2 - 1)) with 256 in H
    | change (2 ^ (8 * 4 - 1 - 6)) with 33554432 in Hv;
      change (256 ^ (4 - 1)) with 16777216 in H
    | change (2 ^ (8 * 8 - 1 - 6)) with 144115188075855872 in Hv;
      change (256 ^ (8 - 1)) with 72057594037927936 in H ];
    lia.
Qed.

Lemma not_sentinel (c : byte) :
  Z_of_byte c < 200 ->
  Byte.eqb c xc8 = false /\ Byte.eqb c xe8 = false /\ Byte.eqb c xd0 = false.
Proof.
  intros H.
  repeat split;
    match goal with
    | |- Byte.eqb c ?s = false =>
        destruct (Byte.eqb c s) eqn:E; [|reflexivity];
        apply Byte.byte_dec_bl in E; subst c; vm_compute in H; discriminate
    end.
Qed.

(** [Decode] on the bytes of a code. *)
Lemma Decode_code (fpe : FPEncoder) (bytes : list byte) :
  valid_length (fieldLength fpe) ->
  Z.of_nat (List.length bytes) = fieldLength fpe ->
  be_value bytes <= code_top fpe ->
  Decode fpe bytes =
  let val := (sR fpe * (float_of_Z (be_value bytes) - zOffset fpe)
              + a fpe)%float in
  if (val <? a fpe)%float || (b fpe <? val)%float
  then Err ErrDecodeRange else Ok val.
Proof.
  intros HL Hlen Hv. rewrite Decode_unfold, Hlen, Z.eqb_refl. cbn [negb].
  pose proof (Decode_integer_be_value fpe bytes HL Hlen) as Hint.
  destruct bytes as [|c bs].
  - exfalso. cbn [List.length Z.of_nat] in Hlen.
    destruct HL as [E | [E | [E | E]]]; lia.
  - destruct (not_sentinel c (code_first_byte _ c bs HL Hlen Hv))
      as (E1 & E2 & E3).
    rewrite E1, E2, E3, Hint. reflexivity.
Qed.

(** ** The round trip *)

Lemma pow2_m53 : (pow2 (-53) == 1 # 9007199254740992)%Q.
Proof. reflexivity. Qed.

Lemma FRounds_error_rho (uf : bool) (v : Q) (r : float) :
  FRounds uf v r -> is_finite r = true ->
  (Qabs (F2Q r - v)
   <= Qabs v * (1 # 9007199254740992)
      + (if uf then 0 else pow2 (-1075)))%Q.
Proof. intros H F. rewrite <- pow2_m53. apply FRounds_error; assumption. Qed.

Lemma F2Q_nonzero_finite (x : float) :
  ~ (F2Q x == 0)%Q -> is_finite x = true.
Proof.
  rewrite is_finite_SF. unfold F2Q.
  destruct (Prim2SF x) as [s | s | | s m e]; intros H; try reflexivity;
    exfalso; apply H; reflexivity.
Qed.

Lemma F2Q_minus_one : (F2Q (-1)%float == - 1)%Q.
Proof. vm_compute. reflexivity. Qed.

Lemma add_infinite (y x : float) (s : bool) :
  Prim2SF y = S754_infinity s -> is_finite x = true ->
  Prim2SF (y + x) = S754_infinity s.
Proof.
  intros Hy Fx. rewrite add_spec, Hy. rewrite is_finite_SF in Fx.
  destruct (Prim2SF x) as [s' | s' | | s' m e]; try discriminate; reflexivity.
Qed.

Lemma finite_below_infinity (x : float) :
  is_finite x = true -> (- pow2 1024 < FX x < pow2 1024)%Q.
Proof.
  intros F. apply (FX_bound x (finite_notnan x F)) in F.
  apply Qabs_Qlt_condition in F. exact F.
Qed.

Section RoundTrip.

Variable fpe : FPEncoder.
Hypothesis Hfit : range_fits_field fpe = true.
Hypothesis HL : valid_length (fieldLength fpe).
Hypothesis Fz : is_finite (zOffset fpe) = true.
Hypothesis Hz : (0 <= F2Q (zOffset fpe) <= 1)%Q.
Hypothesis Hrec : reciprocal_scales fpe = true.
Variable cvt : int_type -> float -> Z.

Lemma reverse_scale :
  is_finite (sR fpe) = true
  /\ (F2Q (sF fpe) * F2Q (sR fpe) == 1)%Q
  /\ (pow2 (-1075) <= 4 * (1 # 9007199254740992) * F2Q (sR fpe))%Q.
Proof.
  destruct (fits_fields fpe Hfit HL) as (_ & _ & Fs & Hs & _ & _).
  unfold reciprocal_scales in Hrec. apply Qeq_bool_iff in Hrec.
  assert (Fr : is_finite (sR fpe) = true).
  { apply F2Q_nonzero_finite. intros H0. rewrite H0 in Hrec. lra. }
  split; [exact Fr|]. split; [exact Hrec|].
  pose proof (finite_below_infinity _ Fs) as [_ HS].
  rewrite (FX_finite _ Fs) in HS.
  assert (E1 : (pow2 (-1075) == 4 * (1 # 9007199254740992) * pow2 (-1024))%Q).
  { change (-1075) with (-51 + -1024). rewrite pow2_add.
    apply Qmult_comp; reflexivity. }
  assert (E2 : (pow2 (-1024) * pow2 1024 == 1)%Q).
  { rewrite <- pow2_add. reflexivity. }
  pose proof (pow2_gt0 (-1024)) as Hq.
  rewrite E1.
  set (q := pow2 (-1024)) in *. set (p := pow2 1024) in *.
  set (S := F2Q (sF fpe)) in *. set (R := F2Q (sR fpe)) in *.
  destruct (Qlt_le_dec R q) as [H | H]; [exfalso | lra].
  assert (H1 : (S * R <= S * q)%Q) by (apply Qscale_le; lra).
  assert (H2 : (q * S <= q * p)%Q) by (apply Qscale_le; lra).
  assert (H3 : (S * (q - R) <= 0)%Q) by lra.
  assert (H4 : (0 < S * (q - R))%Q) by (apply Qmult_lt_0_compat; lra).
  lra.
Qed.


End RoundTrip.

(** ** The round-trip error *)




(** * Further properties of the codec *)

(** ** What Encode and Decode return *)

Lemma set_first_length (encoded : list byte) (c : byte) (bytes : list byte) :
  set_first encoded c = Ok bytes -> List.length bytes = List.length encoded.
Proof. destruct encoded; intros [= <-]; reflexivity. Qed.

Lemma Encode_Ok_length (cvt : int_type -> float -> Z) (fpe : FPEncoder)
    (val : float) (bytes : list byte) :
  valid_length (fieldLength fpe) ->
  Encode cvt fpe val = Ok bytes ->
  Z.of_nat (List.length bytes) = fieldLength fpe.
Proof.
  intros HL. unfold Encode. rewrite (make_bytes_valid _ HL).
  assert (Hs : forall c,
            set_first (x00 :: repeat x00 (Z.to_nat (fieldLength fpe) - 1)) c
            = Ok bytes -> Z.of_nat (List.length bytes) = fieldLength fpe).
  { intros c H. apply set_first_length in H. rewrite H.
    destruct HL as [-> | [-> | [-> | ->]]]; reflexivity. }
  destruct (val =? GoMath.Inf 0)%float; [apply Hs|].
  destruct (val =? GoMath.Inf (-1))%float; [apply Hs|].
  destruct (GoMath.IsNaN val); [apply Hs|].
  destruct (_ || _); [discriminate|].
  cbv zeta. intros [= <-].
  destruct HL as [-> | [-> | [-> | ->]]]; reflexivity.
Qed.

(** Every slice [Encode] returns on a codec built by
    [NewFPEncoderWithLength] is [length] bytes long, whatever the value and
    whatever the conversions of the implementation. *)
Theorem Encode_length (cvt : int_type -> float -> Z) (min max : float)
    (length : Z) (fpe : FPEncoder) (val : float) (bytes : list byte) :
  NewFPEncoderWithLength min max length = Ok fpe ->
  Encode cvt fpe val = Ok bytes ->
  Z.of_nat (List.length bytes) = length.
Proof.
  intros Hnew He.
  destruct (valid_codec_fields _ _ _ _ Hnew) as (HL & El & _ & _).
  rewrite <- El. exact (Encode_Ok_length cvt fpe val bytes HL He).
Qed.

Lemma Encode_length_witness :
  Z.of_nat (List.length [x30; xd4; x00; x00]) = 4.
Proof.
  apply (Encode_length cvt_saturate 0 100000 4
           (preCompute newFPEncoder 0 100000 4) 50000);
    vm_compute; reflexivity.
Defined.

Lemma Decode_outcome (fpe : FPEncoder) (bytes : list byte) :
  valid_length (fieldLength fpe) ->
  (Z.of_nat (List.length bytes) <> fieldLength fpe
   /\ Decode fpe bytes = Err ErrArrayLength)
  \/ (Z.of_nat (List.length bytes) = fieldLength fpe
      /\ ((hd_error bytes = Some xc8 /\ Decode fpe bytes = Ok infinity)
          \/ (hd_error bytes = Some xe8 /\ Decode fpe bytes = Ok neg_infinity)
          \/ (hd_error bytes = Some xd0 /\ Decode fpe bytes = Ok nan)
          \/ (hd_error bytes <> Some xc8 /\ hd_error bytes <> Some xe8
              /\ hd_error bytes <> Some xd0
              /\ Decode fpe bytes =
                 let val := (sR fpe * (float_of_Z (be_value bytes)
                                       - zOffset fpe) + a fpe)%float in
                 if (val <? a fpe)%float || (b fpe <? val)%float
                 then Err ErrDecodeRange else Ok val))).
Proof.
  intros HL. rewrite Decode_unfold.
  destruct (Z.eqb_spec (Z.of_nat (List.length bytes)) (fieldLength fpe))
    as [Hlen | Hlen]; [right | left; split; [exact Hlen | reflexivity]].
  split; [exact Hlen|]. cbn [negb].
  pose proof (Decode_integer_be_value fpe bytes HL Hlen) as Hint.
  destruct bytes as [|c bs].
  { exfalso. cbn [List.length Z.of_nat] in Hlen.
    destruct HL as [E | [E | [E | E]]]; lia. }
  cbn [hd_error].
  destruct (Byte.eqb c xc8) eqn:E1.
  { apply Byte.byte_dec_bl in E1. subst c. left. split; reflexivity. }
  destruct (Byte.eqb c xe8) eqn:E2.
  { apply Byte.byte_dec_bl in E2. subst c. right; left. split; reflexivity. }
  destruct (Byte.eqb c xd0) eqn:E3.
  { apply Byte.byte_dec_bl in E3. subst c. right; right; left.
    split; reflexivity. }
  right; right; right. rewrite Hint.
  repeat split; try reflexivity; intros [= ->]; discriminate.
Qed.

(** On a codec built by [NewFPEncoderWithLength], [Decode] never panics,
    whatever the slice (empty, too short, too long): it indexes the slice
    only after the length test.  The only errors it returns are the length
    error and the range error. *)
Theorem Decode_never_panics (min max : float) (length : Z) (fpe : FPEncoder)
    (bytes : list byte) :
  NewFPEncoderWithLength min max length = Ok fpe ->
  (forall p, Decode fpe bytes <> Panic p)
  /\ (forall e, Decode fpe bytes = Err e ->
        e = ErrArrayLength \/ e = ErrDecodeRange).
Proof.
  intros Hnew.
  destruct (valid_codec_fields _ _ _ _ Hnew) as (HL & _ & _ & _).
  destruct (Decode_outcome fpe bytes HL)
    as [[_ H] | [_ [[_ H] | [[_ H] | [[_ H] | (_ & _ & _ & H)]]]]];
    rewrite H; cbv zeta; try destruct (_ || _);
    split; try discriminate; intros e [= <-]; auto.
Qed.

Lemma Decode_never_panics_witness :
  (forall p, Decode (preCompute newFPEncoder 0 10 2) [] <> Panic p)
  /\ (forall e, Decode (preCompute newFPEncoder 0 10 2) [] = Err e ->
        e = ErrArrayLength \/ e = ErrDecodeRange).
Proof.
  apply (Decode_never_panics 0 10 2). reflexivity.
Defined.



(** ** Encode, then Decode *)

Lemma marker_slice_length (n : Z) (c : byte) :
  valid_length n ->
  Z.of_nat (List.length (c :: repeat x00 (Z.to_nat n - 1))) = n.
Proof. intros [-> | [-> | [-> | ->]]]; reflexivity. Qed.

Lemma Decode_marker (fpe : FPEncoder) (c : byte) (rest : list byte) :
  Z.of_nat (List.length (c :: rest)) = fieldLength fpe ->
  Decode fpe (c :: rest) =
  if Byte.eqb c xc8 then Ok infinity
  else if Byte.eqb c xe8 then Ok neg_infinity
  else if Byte.eqb c xd0 then Ok nan
  else Decode fpe (c :: rest).
Proof.
  intros Hlen. rewrite Decode_unfold, Hlen, Z.eqb_refl. cbn [negb].
  destruct (Byte.eqb c xc8); [reflexivity|].
  destruct (Byte.eqb c xe8); [reflexivity|].
  destruct (Byte.eqb c xd0); reflexivity.
Qed.

(** The three special values survive a round trip on every codec built by
    [NewFPEncoderWithLength], whatever its range: +Inf and -Inf come back as
    they are, and a NaN comes back as a NaN. *)
Theorem special_values_roundtrip (cvt : int_type -> float -> Z)
    (min max : float) (length : Z) (fpe : FPEncoder) :
  NewFPEncoderWithLength min max length = Ok fpe ->
  (exists bytes, Encode cvt fpe infinity = Ok bytes
                 /\ Decode fpe bytes = Ok infinity)
  /\ (exists bytes, Encode cvt fpe neg_infinity = Ok bytes
                    /\ Decode fpe bytes = Ok neg_infinity)
  /\ (forall val, is_nan val = true ->
        exists bytes dec, Encode cvt fpe val = Ok bytes
                          /\ Decode fpe bytes = Ok dec
                          /\ is_nan dec = true).
Proof.
  intros Hnew.
  destruct (valid_codec_fields _ _ _ _ Hnew) as (HL & _ & _ & _).
  split; [|split].
  - eexists. split; [apply Encode_special; auto|].
    rewrite Decode_marker by (apply marker_slice_length; exact HL).
    reflexivity.
  - eexists. split; [apply Encode_special; auto|].
    rewrite Decode_marker by (apply marker_slice_length; exact HL).
    reflexivity.
  - intros val Hn. destruct (nan_not_infinity val Hn) as [H1 H2].
    eexists. exists nan. split; [apply Encode_special; auto 10|].
    rewrite Decode_marker by (apply marker_slice_length; exact HL).
    split; reflexivity.
Qed.

Lemma special_values_roundtrip_witness :
  exists bytes,
    Encode cvt_saturate (preCompute newFPEncoder (-1) 1 8) infinity = Ok bytes
    /\ Decode (preCompute newFPEncoder (-1) 1 8) bytes = Ok infinity.
Proof.
  apply (special_values_roundtrip cvt_saturate (-1) 1 8). reflexivity.
Defined.

(** Bytes written by a codec of one field length are refused, with the
    length error, by a codec of another field length, before [Decode] looks
    at any byte. *)
Theorem Decode_other_length (cvt : int_type -> float -> Z)
    (min1 max1 min2 max2 : float) (length1 length2 : Z)
    (fpe1 fpe2 : FPEncoder) (val : float) (bytes : list byte) :
  NewFPEncoderWithLength min1 max1 length1 = Ok fpe1 ->
  NewFPEncoderWithLength min2 max2 length2 = Ok fpe2 ->
  length1 <> length2 ->
  Encode cvt fpe1 val = Ok bytes ->
  Decode fpe2 bytes = Err ErrArrayLength.
Proof.
  intros Hnew1 Hnew2 Hne He.
  destruct (valid_codec_fields _ _ _ _ Hnew1) as (HL1 & El1 & _ & _).
  destruct (valid_codec_fields _ _ _ _ Hnew2) as (HL2 & El2 & _ & _).
  pose proof (Encode_Ok_length cvt fpe1 val bytes HL1 He) as Hlen.
  destruct (Decode_outcome fpe2 bytes HL2) as [[_ H] | [H _]];
    [exact H | exfalso; lia].
Qed.

Lemma Decode_other_length_witness :
  Decode (preCompute newFPEncoder 0 100000 2) [x30; xd4; x00; x00]
  = Err ErrArrayLength.
Proof.
  apply (Decode_other_length cvt_saturate 0 100000 0 100000 4 2
           (preCompute newFPEncoder 0 100000 4) _ 50000);
    [reflexivity | reflexivity | lia | vm_compute; reflexivity].
Defined.

(** ** Codecs without a valid field length *)

(** A codec whose field length is zero or negative (the precision-based
    constructor can return one) never decodes anything: [Decode] panics on
    the empty slice when the length is zero, and returns the length error in
    every other case; when the length is negative, [Encode] panics in [make]
    for every value. *)
Theorem nonpositive_length_codec (cvt : int_type -> float -> Z)
    (fpe : FPEncoder) :
  fieldLength fpe <= 0 ->
  (forall bytes val, Decode fpe bytes <> Ok val)
  /\ (forall bytes,
        Decode fpe bytes =
        if (fieldLength fpe =? 0) && (Z.of_nat (List.length bytes) =? 0)
        then Panic (IndexOutOfRange 0 0) else Err ErrArrayLength)
  /\ (fieldLength fpe < 0 ->
      forall val, Encode cvt fpe val = Panic MakesliceLenOutOfRange).
Proof.
  intros Hl.
  assert (HD : forall bytes,
             Decode fpe bytes =
             if (fieldLength fpe =? 0) && (Z.of_nat (List.length bytes) =? 0)
             then Panic (IndexOutOfRange 0 0) else Err ErrArrayLength).
  { intros bytes. rewrite Decode_unfold.
    destruct bytes as [|c bs].
    - cbn [List.length Z.of_nat]. rewrite (Z.eqb_sym 0).
      destruct (fieldLength fpe =? 0); reflexivity.
    - destruct (Z.eqb_spec (Z.of_nat (List.length (c :: bs))) (fieldLength fpe))
        as [E | E].
      + exfalso. change (List.length (c :: bs)) with (S (List.length bs)) in E.
        lia.
      + cbn [negb]. rewrite andb_false_intro2; [reflexivity|].
        apply Z.eqb_neq. change (List.length (c :: bs)) with (S (List.length bs)).
        lia. }
  split; [|split; [exact HD|]].
  - intros bytes val. rewrite HD. destruct (_ && _); discriminate.
  - intros Hneg val. unfold Encode, make_bytes.
    destruct (Z.ltb_spec (fieldLength fpe) 0); [reflexivity | lia].
Qed.

Lemma nonpositive_length_codec_witness :
  NewFPEncoderWithPrecision cvt_saturate 0 1 4
  = Ok (preCompute newFPEncoder 0 1 0)
  /\ forall bytes val, Decode (preCompute newFPEncoder 0 1 0) bytes <> Ok val.
Proof.
  split; [vm_compute; reflexivity|].
  apply (nonpositive_length_codec cvt_saturate (preCompute newFPEncoder 0 1 0)).
  vm_compute. discriminate.
Defined.

(** ** The codes of a codec whose range fits the field *)

Lemma constructed_codec (min max : float) (length : Z) (fpe : FPEncoder) :
  NewFPEncoderWithLength min max length = Ok fpe ->
  range_fits_field fpe = true ->
  valid_length (fieldLength fpe) /\ a fpe = min /\ b fpe = max
  /\ is_finite min = true /\ is_finite max = true
  /\ is_finite (zOffset fpe) = true /\ (0 <= F2Q (zOffset fpe) <= 1)%Q
  /\ zOffset fpe =
     (if (min <? 0) && (0 <? max)
      then sF fpe * min - GoMath.Floor (sF fpe * min) else 0)%float.
Proof.
  intros Hnew Hfit.
  destruct (valid_codec_fields _ _ _ _ Hnew) as (HL & El & Ea & Eb).
  destruct (NewFPEncoderWithLength_Ok _ _ _ _ Hnew) as [HL' E].
  destruct (fits_fields fpe Hfit HL) as (Fa & Fb & _).
  rewrite Ea in Fa. rewrite Eb in Fb.
  split; [exact HL|]. split; [exact Ea|]. split; [exact Eb|].
  split; [exact Fa|]. split; [exact Fb|].
  rewrite E in Hfit |- *.
  destruct (preCompute_zOffset min max length Hfit HL') as [Fz Hz].
  split; [exact Fz|]. split; [exact Hz|].
  apply (preCompute_fields newFPEncoder min max length).
Qed.

Lemma leb_Q (x y : float) :
  is_finite x = true -> is_finite y = true ->
  (x <=? y)%float = true -> (F2Q x <= F2Q y)%Q.
Proof.
  intros Fx Fy H. apply leb_FX in H; auto using finite_notnan.
  rewrite !FX_finite in H by assumption. exact H.
Qed.

(** The zero offset of a codec whose range fits the field is a float
    between 0 and 1 (1 included: the fractional part [sF*min - Floor(sF*min)]
    of a tiny negative [sF*min] is rounded to 1), and is 0 unless
    [min < 0 < max]. *)
Theorem zOffset_range (min max : float) (length : Z) (fpe : FPEncoder) :
  NewFPEncoderWithLength min max length = Ok fpe ->
  range_fits_field fpe = true ->
  is_finite (zOffset fpe) = true
  /\ (0 <=? zOffset fpe)%float = true /\ (zOffset fpe <=? 1)%float = true
  /\ ((min <? 0)%float && (0 <? max)%float = false -> zOffset fpe = 0%float).
Proof.
  intros Hnew Hfit.
  destruct (constructed_codec _ _ _ _ Hnew Hfit)
    as (_ & _ & _ & _ & _ & Fz & Hz & Ez).
  split; [exact Fz|].
  split; [|split].
  - apply leb_FX; auto using finite_notnan.
    rewrite FX_zero, (FX_finite _ Fz). apply Hz.
  - apply leb_FX; auto using finite_notnan.
    rewrite (FX_finite _ Fz), (FX_finite 1%float eq_refl), F2Q_one. apply Hz.
  - intros Hs. rewrite Ez, Hs. reflexivity.
Qed.

Lemma zOffset_range_witness :
  is_finite (zOffset (preCompute newFPEncoder (-0.01171875) 1 1)) = true
  /\ (0 <=? zOffset (preCompute newFPEncoder (-0.01171875) 1 1))%float = true
  /\ (zOffset (preCompute newFPEncoder (-0.01171875) 1 1) <=? 1)%float = true
  /\ ((-0.01171875 <? 0)%float && (0 <? 1)%float = false ->
      zOffset (preCompute newFPEncoder (-0.01171875) 1 1) = 0%float).
Proof.
  apply (zOffset_range (-0.01171875) 1 1); vm_compute; reflexivity.
Defined.

(** The bytes of a finite value in range never start with one of the
    markers 0xC8, 0xD0, 0xE8: the first byte is at most 0xC2, so that
    [Decode] does not take the code of a number for a special value. *)
Theorem Encode_number_first_byte (cvt : int_type -> float -> Z)
    (min max : float) (length : Z) (fpe : FPEncoder) (val : float) :
  NewFPEncoderWithLength min max length = Ok fpe ->
  range_fits_field fpe = true ->
  is_finite val = true ->
  (min <=? val)%float = true -> (val <=? max)%float = true ->
  exists c rest,
    Encode cvt fpe val = Ok (c :: rest)
    /\ Z_of_byte c < 200
    /\ c <> xc8 /\ c <> xd0 /\ c <> xe8.
Proof.
  intros Hnew Hfit Fv Hlo Hhi.
  destruct (constructed_codec _ _ _ _ Hnew Hfit)
    as (HL & Ea & Eb & Fa & Fb & Fz & Hz & _).
  pose proof (leb_Q _ _ Fa Fv Hlo) as Hlo'.
  pose proof (leb_Q _ _ Fv Fb Hhi) as Hhi'.
  rewrite <- Ea in Hlo'. rewrite <- Eb in Hhi'.
  destruct (Encode_in_range fpe Hfit HL Fz Hz cvt val Fv Hlo' Hhi')
    as (bytes & D & He & Hlen & Hv & _ & HD).
  destruct bytes as [|c rest].
  { exfalso. cbn [List.length Z.of_nat] in Hlen.
    destruct HL as [E | [E | [E | E]]]; lia. }
  exists c, rest. split; [exact He|].
  assert (Hc : Z_of_byte c < 200).
  { apply (code_first_byte (fieldLength fpe) c rest HL Hlen).
    rewrite Hv. apply HD. }
  split; [exact Hc|].
  repeat split; intros ->; vm_compute in Hc; discriminate.
Qed.

Lemma Encode_number_first_byte_witness :
  exists c rest,
    Encode cvt_saturate (preCompute newFPEncoder 0 100000 4) 100000
    = Ok (c :: rest)
    /\ Z_of_byte c < 200 /\ c <> xc8 /\ c <> xd0 /\ c <> xe8.
Proof.
  apply (Encode_number_first_byte cvt_saturate 0 100000 4);
    vm_compute; reflexivity.
Defined.

Lemma Z_of_byte_zero (c : byte) : Z_of_byte c = 0 -> c = x00.
Proof. destruct c; vm_compute; intros H; try discriminate; reflexivity. Qed.

Lemma be_value_zero (bs : list byte) :
  be_value bs = 0 -> bs = repeat x00 (List.length bs).
Proof.
  induction bs as [|c bs IH]; intros H; [reflexivity|].
  pose proof (be_value_first c bs) as H1.
  pose proof (Z_of_byte_range c) as Hc.
  assert (Hp : 0 < 256 ^ Z.of_nat (List.length bs))
    by (apply Z.pow_pos_nonneg; lia).
  assert (Hc0 : Z_of_byte c = 0) by nia.
  unfold be_value in H. cbn [fold_left] in H. rewrite be_value_acc in H.
  rewrite Hc0 in H. cbn [List.length repeat].
  rewrite (Z_of_byte_zero c Hc0). f_equal. apply IH.
  pose proof (be_value_nonneg bs). lia.
Qed.

(** When the range does not straddle zero, the lower bound is encoded as
    the code 0: [fieldLength] zero bytes. *)
Theorem Encode_lower_bound (cvt : int_type -> float -> Z) (min max : float)
    (length : Z) (fpe : FPEncoder) :
  NewFPEncoderWithLength min max length = Ok fpe ->
  range_fits_field fpe = true ->
  (min <? 0)%float && (0 <? max)%float = false ->
  (min <=? max)%float = true ->
  Encode cvt fpe min = Ok (repeat x00 (Z.to_nat length)).
Proof.
  intros Hnew Hfit Hs Hmm.
  destruct (constructed_codec _ _ _ _ Hnew Hfit)
    as (HL & Ea & Eb & Fa & Fb & Fz & Hz & Ez).
  destruct (valid_codec_fields _ _ _ _ Hnew) as (_ & El & _ & _).
  rewrite Hs in Ez.
  pose proof (leb_Q _ _ Fa Fb Hmm) as Hab.
  assert (Hlo : (F2Q (a fpe) <= F2Q min)%Q) by (rewrite Ea; lra).
  assert (Hhi : (F2Q min <= F2Q (b fpe))%Q) by (rewrite Eb; exact Hab).
  destruct (Encode_in_range fpe Hfit HL Fz Hz cvt min Fa Hlo Hhi)
    as (bytes & D & He & Hlen & Hv & Ht & _).
  destruct (encode_steps fpe Hfit HL Fz Hz min Fa Hlo Hhi)
    as (Ft & Fu & Fw & Rt & Ru & Rw & _ & _ & _
        & D' & Ht' & _ & _ & HW1 & HW2 & _).
  assert (ED : D' = D) by congruence. subst D'.
  rewrite Ea in Rt, Ru.
  destruct (FRounds_exact _ _ _ 0%float Rt eq_refl
              ltac:(rewrite F2Q_zero; ring)) as [Et _].
  rewrite F2Q_zero in Et.
  destruct (FRounds_exact _ _ _ 0%float Ru eq_refl
              ltac:(rewrite Et, F2Q_zero; ring)) as [Eu _].
  rewrite F2Q_zero in Eu.
  rewrite Ea in Rw. rewrite Ez in Rw.
  destruct (FRounds_exact _ _ _ 0%float Rw eq_refl
              ltac:(rewrite Eu, F2Q_zero; ring)) as [Ew _].
  rewrite F2Q_zero in Ew.
  rewrite Ea, Ez, Ew in HW1, HW2.
  assert (HD : D = 0).
  { assert (H1 : (inject_Z D <= inject_Z 0)%Q) by exact HW1.
    assert (H2 : (inject_Z (-1) < inject_Z D)%Q).
    { change (inject_Z (-1)) with (-1 # 1)%Q. lra. }
    rewrite <- Zle_Qle in H1. rewrite <- Zlt_Qlt in H2. lia. }
  rewrite HD in Hv. apply be_value_zero in Hv.
  rewrite He, Hv. f_equal. f_equal. lia.
Qed.

Lemma Encode_lower_bound_witness :
  Encode cvt_saturate (preCompute newFPEncoder 1 100000 4) 1
  = Ok (repeat x00 (Z.to_nat 4)).
Proof.
  apply (Encode_lower_bound cvt_saturate 1 100000 4); vm_compute; reflexivity.
Defined.

(** ** The value of a code *)

Lemma be_value_upper (bs : list byte) :
  be_value bs < 256 ^ Z.of_nat (List.length bs).
Proof.
  induction bs as [|c bs IH].
  - reflexivity.
  - unfold be_value. cbn [fold_left]. rewrite be_value_acc.
    change (List.length (c :: bs)) with (S (List.length bs)).
    rewrite Nat2Z.inj_succ, Z.pow_succ_r by lia.
    pose proof (Z_of_byte_range c). nia.
Qed.

Lemma be_value_field (n : Z) (bs : list byte) :
  valid_length n -> Z.of_nat (List.length bs) = n ->
  0 <= be_value bs < 2 ^ 64.
Proof.
  intros HL Hlen. pose proof (be_value_upper bs) as H.
  pose proof (be_value_nonneg bs) as H0. rewrite Hlen in H.
  split; [exact H0|].
  apply Z.lt_le_trans with (1 := H).
  destruct HL as [-> | [-> | [-> | ->]]]; vm_compute; discriminate.
Qed.

Section DecodeSteps.

Variable fpe : FPEncoder.
Hypothesis Hfit : range_fits_field fpe = true.
Hypothesis HL : valid_length (fieldLength fpe).
Hypothesis Fz : is_finite (zOffset fpe) = true.
Hypothesis Hz : (0 <= F2Q (zOffset fpe) <= 1)%Q.
Hypothesis Fr : is_finite (sR fpe) = true.

(** What [Decode] computes from the integer [D] it has read. *)
Lemma decode_steps (D : Z) :
  0 <= D < 2 ^ 64 ->
  let l := float_of_Z D in
  let x := (l - zOffset fpe)%float in
  let y := (sR fpe * x)%float in
  let dec := (y + a fpe)%float in
  is_finite l = true /\ is_finite x = true
  /\ FRounds true (inject_Z D) l
  /\ FRounds true (F2Q l - F2Q (zOffset fpe)) x
  /\ FRounds false (F2Q (sR fpe) * F2Q x) y
  /\ ((dec <? a fpe)%float || (b fpe <? dec)%float = false ->
      is_finite y = true /\ is_finite dec = true
      /\ FRounds true (F2Q y + F2Q (a fpe)) dec
      /\ (F2Q (a fpe) <= F2Q dec <= F2Q (b fpe))%Q).
Proof.
  intros HD l x y dec.
  destruct (fits_fields fpe Hfit HL) as (Fa & Fb & _).
  pose proof (float_of_Z_Rounds D) as Rl. fold l in Rl.
  destruct (float_of_Z_dyadic 1 64 ltac:(simpl; lia) ltac:(lia)) as [Fc Hc].
  rewrite Z.mul_1_l in Fc, Hc.
  set (c := float_of_Z (2 ^ 64)) in *.
  assert (HD0 : (0 <= inject_Z D)%Q).
  { change 0%Q with (inject_Z 0). rewrite <- Zle_Qle. lia. }
  assert (HDc : (inject_Z D <= F2Q c)%Q).
  { rewrite Hc, <- Zle_Qle. lia. }
  pose proof (FRounds_nonneg _ _ _ Rl HD0) as Hl0.
  pose proof (FRounds_mono _ _ _ _ _ _ Rl (FRounds_self c Fc) HDc) as Hlc.
  assert (Fl : is_finite l = true).
  { apply (finite_between 0%float l c);
      [reflexivity | exact Fc | exact (FRounds_notnan _ _ _ Rl)
      | rewrite FX_zero; exact Hl0 | exact Hlc]. }
  rewrite (FX_finite l Fl) in Hl0, Hlc.
  pose proof (sub_Rounds l (zOffset fpe) Fl Fz) as Rx. fold x in Rx.
  pose proof (FRounds_mono _ _ _ _ _ _ (FRounds_self (-1)%float eq_refl) Rx
                ltac:(rewrite F2Q_minus_one; lra)) as Hx1.
  pose proof (FRounds_mono _ _ _ _ _ _ Rx (FRounds_self l Fl) ltac:(lra))
    as Hx2.
  assert (Fx : is_finite x = true).
  { apply (finite_between (-1)%float x l);
      [reflexivity | exact Fl | exact (FRounds_notnan _ _ _ Rx)
      | exact Hx1 | exact Hx2]. }
  pose proof (mul_Rounds (sR fpe) x Fr Fx) as Ry. fold y in Ry.
  do 5 (split; [assumption|]).
  intros Hrange. apply orb_false_iff in Hrange as [Hr1 Hr2].
  assert (Fy : is_finite y = true).
  { destruct (notnan_cases y (FRounds_notnan _ _ _ Ry)) as [H | [H | H]];
      [exact H | exfalso | exfalso].
    - pose proof (add_infinite y (a fpe) false H Fa) as Hi. fold dec in Hi.
      assert (Hn : is_nan dec = false) by (rewrite is_nan_SF, Hi; reflexivity).
      apply (ltb_false_FX _ _ (finite_notnan _ Fb) Hn) in Hr2.
      unfold FX at 1 in Hr2. rewrite Hi in Hr2. cbn [SFX] in Hr2.
      pose proof (finite_below_infinity _ Fb). lra.
    - pose proof (add_infinite y (a fpe) true H Fa) as Hi. fold dec in Hi.
      assert (Hn : is_nan dec = false) by (rewrite is_nan_SF, Hi; reflexivity).
      apply (ltb_false_FX _ _ Hn (finite_notnan _ Fa)) in Hr1.
      unfold FX at 2 in Hr1. rewrite Hi in Hr1. cbn [SFX] in Hr1.
      pose proof (finite_below_infinity _ Fa). lra. }
  pose proof (add_Rounds y (a fpe) Fy Fa) as Rdec. fold dec in Rdec.
  pose proof (FRounds_notnan _ _ _ Rdec) as Ndec.
  apply (ltb_false_FX _ _ Ndec (finite_notnan _ Fa)) in Hr1.
  apply (ltb_false_FX _ _ (finite_notnan _ Fb) Ndec) in Hr2.
  assert (Fdec : is_finite dec = true).
  { apply (finite_between (a fpe) dec (b fpe)); assumption. }
  rewrite (FX_finite _ Fdec), (FX_finite _ Fa) in Hr1.
  rewrite (FX_finite _ Fdec), (FX_finite _ Fb) in Hr2.
  auto.
Qed.

(** A greater code has a greater or equal value, when the reverse scale is
    not negative. *)
Lemma decode_steps_monotone (D1 D2 : Z) :
  (0 <= F2Q (sR fpe))%Q ->
  0 <= D1 <= D2 -> D2 < 2 ^ 64 ->
  let dec D := (sR fpe * (float_of_Z D - zOffset fpe) + a fpe)%float in
  (dec D1 <? a fpe)%float || (b fpe <? dec D1)%float = false ->
  (dec D2 <? a fpe)%float || (b fpe <? dec D2)%float = false ->
  (dec D1 <=? dec D2)%float = true.
Proof.
  intros HR HD1 HD2 dec Hr1 Hr2.
  destruct (decode_steps D1 ltac:(lia))
    as (Fl1 & Fx1 & Rl1 & Rx1 & Ry1 & H1).
  destruct (decode_steps D2 ltac:(lia))
    as (Fl2 & Fx2 & Rl2 & Rx2 & Ry2 & H2).
  destruct (H1 Hr1) as (Fy1 & Fd1 & Rd1 & _).
  destruct (H2 Hr2) as (Fy2 & Fd2 & Rd2 & _).
  assert (HD : (inject_Z D1 <= inject_Z D2)%Q) by (rewrite <- Zle_Qle; lia).
  pose proof (FRounds_mono _ _ _ _ _ _ Rl1 Rl2 HD) as Hl.
  rewrite !FX_finite in Hl by assumption.
  pose proof (FRounds_mono _ _ _ _ _ _ Rx1 Rx2 ltac:(lra)) as Hx.
  rewrite !FX_finite in Hx by assumption.
  pose proof (FRounds_mono _ _ _ _ _ _ Ry1 Ry2
                ltac:(apply Qscale_le; assumption)) as Hy.
  rewrite !FX_finite in Hy by assumption.
  pose proof (FRounds_mono _ _ _ _ _ _ Rd1 Rd2 ltac:(lra)) as Hd.
  apply leb_FX; auto using finite_notnan.
Qed.

End DecodeSteps.

(** [Decode] keeps the order of the codes: of two slices that it decodes as
    numbers, the one that is greater as a big-endian unsigned integer has
    the greater or equal value. *)
Theorem Decode_monotone (min max : float) (length : Z) (fpe : FPEncoder)
    (bs1 bs2 : list byte) (d1 d2 : float) :
  NewFPEncoderWithLength min max length = Ok fpe ->
  range_fits_field fpe = true -> reciprocal_scales fpe = true ->
  Decode fpe bs1 = Ok d1 -> Decode fpe bs2 = Ok d2 ->
  is_finite d1 = true -> is_finite d2 = true ->
  be_value bs1 <= be_value bs2 ->
  (d1 <=? d2)%float = true.
Proof.
  intros Hnew Hfit Hrec Hd1 Hd2 F1 F2 Hle.
  destruct (constructed_codec _ _ _ _ Hnew Hfit)
    as (HL & _ & _ & _ & _ & Fz & Hz & _).
  destruct (reverse_scale fpe Hfit HL Hrec) as (Fr & Hsr & _).
  destruct (fits_fields fpe Hfit HL) as (_ & _ & _ & Hs & _).
  assert (HR : (0 <= F2Q (sR fpe))%Q).
  { destruct (Qlt_le_dec (F2Q (sR fpe)) 0) as [H | H]; [exfalso | exact H].
    assert (F2Q (sF fpe) * F2Q (sR fpe) <= F2Q (sF fpe) * 0)%Q
      by (apply Qscale_le; lra).
    lra. }
  assert (Hnum : forall bs d, Decode fpe bs = Ok d -> is_finite d = true ->
            Z.of_nat (List.length bs) = fieldLength fpe
            /\ d = (sR fpe * (float_of_Z (be_value bs) - zOffset fpe)
                    + a fpe)%float
            /\ (d <? a fpe)%float || (b fpe <? d)%float = false).
  { intros bs d Hd Fd.
    destruct (Decode_outcome fpe bs HL)
      as [[_ H] | [Hlen [[_ H] | [[_ H] | [[_ H] | (_ & _ & _ & H)]]]]];
      rewrite H in Hd; try discriminate;
      try (injection Hd as <-; discriminate).
    cbv zeta in Hd. split; [exact Hlen|].
    destruct (_ || _) eqn:Hr in Hd; [discriminate|].
    injection Hd as Hv. rewrite Hv in Hr. auto. }
  destruct (Hnum bs1 d1 Hd1 F1) as (Hlen1 & E1 & Hr1).
  destruct (Hnum bs2 d2 Hd2 F2) as (Hlen2 & E2 & Hr2).
  pose proof (be_value_field _ bs1 HL Hlen1) as Hb1.
  pose proof (be_value_field _ bs2 HL Hlen2) as Hb2.
  rewrite E1 in Hr1 |- *. rewrite E2 in Hr2 |- *.
  apply (decode_steps_monotone fpe Hfit HL Fz Hz Fr _ _ HR); try lia;
    assumption.
Qed.

Lemma Decode_monotone_witness :
  (0.25 <=? 9.5)%float = true.
Proof.
  apply (Decode_monotone 0 10 2 (preCompute newFPEncoder 0 10 2)
           [x02; x00] [x4c; x00]);
    vm_compute; try reflexivity; discriminate.
Defined.

(** ** Which way the decoded value errs *)

(** The same values, the two sides apart: the decoded value is below the
    value by at most one step and the roundings, and above it by the
    roundings only. *)
Lemma roundtrip_arith_sided (V A B S R Z T U W D Lf X Y DEC P eta : Q) :
  (let rho := 1 # 9007199254740992 in
  0 < S -> S * R == 1 ->
  0 <= Z <= 1 -> 128 <= P -> A <= V <= B -> A <= DEC <= B ->
  0 <= eta -> eta <= rho -> eta <= 4 * rho * R ->
  0 <= T -> 0 <= U <= (3 # 2) * P -> 0 <= D <= (97 # 64) * P ->
  D <= W < D + 1 ->
  Qabs (T - (V - A)) <= Qabs (V - A) * rho + 0 ->
  Qabs (U - S * T) <= Qabs (S * T) * rho + eta ->
  Qabs (W - (U + Z)) <= Qabs (U + Z) * rho + 0 ->
  Qabs (Lf - D) <= Qabs D * rho + 0 ->
  Qabs (X - (Lf - Z)) <= Qabs (Lf - Z) * rho + 0 ->
  Qabs (Y - R * X) <= Qabs (R * X) * rho + eta ->
  Qabs (DEC - (Y + A)) <= Qabs (Y + A) * rho + 0 ->
  - (R + (1 # 281474976710656) * (P * R + Qabs A + Qabs B)) <= DEC - V
  /\ DEC - V <= (1 # 281474976710656) * (P * R + Qabs A + Qabs B))%Q.
Proof.
  intros rho HS HSR HZ HP HV HDEC He0 He1 He2 HT HU HD HW H1 H2 H3 H4 H5 H6 H7.
  unfold rho in *. clear rho.
  assert (HR : (0 < R)%Q).
  { destruct (Qlt_le_dec 0 R) as [H | H]; [exact H|]. exfalso. nra. }
  assert (HST : (0 <= S * T)%Q) by (apply Qmult_le_0_compat; lra).
  rewrite (Qabs_pos (V - A)) in H1 by lra.
  rewrite (Qabs_pos (S * T)) in H2 by lra.
  rewrite (Qabs_pos (U + Z)) in H3 by lra.
  rewrite (Qabs_pos D) in H4 by lra.
  apply Qabs_bounds in H1, H2, H3, H4.
  assert (HL0 : (0 <= Lf)%Q) by lra.
  assert (Q5 : (Qabs (Lf - Z) <= Lf + Z)%Q) by (apply Qabs_upper; lra).
  apply Qabs_bounds in H5.
  (* in units of one code *)
  assert (Hc : (- 1 - (7 * (1 # 9007199254740992) * P + 2 * eta) <= X - S * T
               /\ X - S * T <= 7 * (1 # 9007199254740992) * P + 2 * eta)%Q)
    by (split; lra).
  assert (HX : (- (2 * P) <= X /\ X <= 2 * P)%Q) by (split; lra).
  (* in units of the value *)
  assert (HRST : (R * (S * T) == T)%Q).
  { transitivity (S * R * T)%Q; [ring | rewrite HSR; ring]. }
  pose proof (Qscale_le R _ _ (Qlt_le_weak _ _ HR) (proj1 Hc)) as Hc1.
  pose proof (Qscale_le R _ _ (Qlt_le_weak _ _ HR) (proj2 Hc)) as Hc2.
  pose proof (Qscale_le R _ _ (Qlt_le_weak _ _ HR) (proj1 HX)) as HX1.
  pose proof (Qscale_le R _ _ (Qlt_le_weak _ _ HR) (proj2 HX)) as HX2.
  pose proof (Qscale_le R _ _ (Qlt_le_weak _ _ HR) HP) as HRP.
  pose proof (Qscale_le R _ _ (Qlt_le_weak _ _ HR) He1) as HRe.
  assert (Q6 : (Qabs (R * X) <= 2 * (P * R))%Q) by (apply Qabs_upper; lra).
  apply Qabs_bounds in H6.
  pose proof (Qle_Qabs A) as HA1. pose proof (Qle_Qabs (- A)) as HA2.
  rewrite Qabs_opp in HA2.
  pose proof (Qle_Qabs B) as HB1. pose proof (Qle_Qabs (- B)) as HB2.
  rewrite Qabs_opp in HB2.
  assert (Q7 : (Qabs (Y + A) <= 2 * (Qabs A + Qabs B))%Q).
  { apply Qabs_bounds in H7.
    destruct (Qlt_le_dec (Y + A) 0)%Q as [Hs | Hs].
    - rewrite (Qabs_neg (Y + A)) in * by lra. lra.
    - rewrite (Qabs_pos (Y + A)) in * by lra. lra. }
  apply Qabs_bounds in H7.
  split; lra.
Qed.

(** [Decode] of the bytes of [val] never returns more than [val], but for
    the roundings of the float arithmetic: the code is cut down to an
    integer by [Floor], so the decoded value lies between [val - sR] and
    [val], each side widened by [2^-48 * (2^dPow * sR + |min| + |max|)]. *)
Theorem Decode_Encode_below (cvt : int_type -> float -> Z) (min max : float)
    (length : Z) (fpe : FPEncoder) (val : float) (bytes : list byte)
    (dec : float) :
  NewFPEncoderWithLength min max length = Ok fpe ->
  range_fits_field fpe = true -> reciprocal_scales fpe = true ->
  is_finite val = true ->
  (min <=? val)%float = true -> (val <=? max)%float = true ->
  Encode cvt fpe val = Ok bytes -> Decode fpe bytes = Ok dec ->
  is_finite dec = true
  /\ (F2Q val - roundtrip_bound fpe <= F2Q dec)%Q
  /\ (F2Q dec <= F2Q val + (roundtrip_bound fpe - F2Q (sR fpe)))%Q.
Proof.
  intros Hnew Hfit Hrec Fv Hlo Hhi He Hdec.
  destruct (constructed_codec _ _ _ _ Hnew Hfit)
    as (HL & Ea & Eb & Fa & Fb & Fz & Hz & _).
  pose proof (leb_Q _ _ Fa Fv Hlo) as Hlo'.
  pose proof (leb_Q _ _ Fv Fb Hhi) as Hhi'.
  rewrite <- Ea in Hlo'. rewrite <- Eb in Hhi'.
  destruct (Encode_in_range fpe Hfit HL Fz Hz cvt val Fv Hlo' Hhi')
    as (bytes' & D & He' & Hlen & Hv & Ht & HDr).
  assert (Eb' : bytes' = bytes) by congruence. subst bytes'.
  destruct (encode_steps fpe Hfit HL Fz Hz val Fv Hlo' Hhi')
    as (Ft & Fu & Fw & Rt & Ru & Rw & Ht0 & Hu0 & Hw0
        & D' & Ht' & Fd & Hd & HW1 & HW2 & _).
  assert (ED : D' = D) by congruence. subst D'.
  destruct (fits_fields fpe Hfit HL) as (_ & _ & Fs & Hs & _ & _).
  destruct (reverse_scale fpe Hfit HL Hrec) as (Fr & Hsr & Heta).
  pose proof (data_bits_range fpe HL) as HdP.
  destruct (data_span_split fpe HL) as (Hp1 & Hp6 & _).
  pose proof (code_limit_top fpe HL) as [_ Htop].
  assert (HD64 : 0 <= D < 2 ^ 64).
  { split; [lia|]. apply Z.le_lt_trans with (code_top fpe); [lia|].
    apply Z.lt_le_trans with (1 := Htop). apply Z.pow_le_mono_r; lia. }
  rewrite (Decode_code fpe bytes HL Hlen) in Hdec by (rewrite Hv; apply HDr).
  rewrite Hv in Hdec. cbv zeta in Hdec.
  destruct (decode_steps fpe Hfit HL Fz Hz Fr D HD64)
    as (Fl & Fx & Rl & Rx & Ry & Hok).
  destruct (_ || _) eqn:Hrange in Hdec; [discriminate|].
  injection Hdec as Edec.
  destruct (Hok Hrange) as (Fy & Fdec & Rdec & Hin).
  rewrite Edec in Fdec, Rdec, Hin.
  split; [exact Fdec|].
  assert (HD0 : (0 <= inject_Z D)%Q).
  { change 0%Q with (inject_Z 0). rewrite <- Zle_Qle. lia. }
  unfold roundtrip_bound.
  pose proof (roundtrip_arith_sided (F2Q val) (F2Q (a fpe)) (F2Q (b fpe))
           (F2Q (sF fpe)) (F2Q (sR fpe)) (F2Q (zOffset fpe))
           (F2Q (val - a fpe)) (F2Q (sF fpe * (val - a fpe)))
           (F2Q (sF fpe * (val - a fpe) + zOffset fpe)) (inject_Z D)
           (F2Q (float_of_Z D)) (F2Q (float_of_Z D - zOffset fpe))
           (F2Q (sR fpe * (float_of_Z D - zOffset fpe)))
           (F2Q dec) (inject_Z (2 ^ data_bits fpe)) (pow2 (-1075))) as H.
  cbv zeta in H.
  assert (HU : (0 <= F2Q (sF fpe * (val - a fpe))
                <= (3 # 2) * inject_Z (2 ^ data_bits fpe))%Q).
  { split; [apply Hu0|].
    assert (H2 : (inject_Z (2 * code_limit fpe)
                  == inject_Z (3 * 2 ^ data_bits fpe))%Q).
    { apply inject_Z_injective. unfold code_limit. lia. }
    rewrite !inject_Z_mult in H2.
    change (inject_Z 2) with 2%Q in H2. change (inject_Z 3) with 3%Q in H2.
    destruct Hu0 as [_ Hu1]. lra. }
  assert (HDP : (0 <= inject_Z D
                 <= (97 # 64) * inject_Z (2 ^ data_bits fpe))%Q).
  { split; [exact HD0|].
    assert (H2 : (inject_Z (64 * D) <= inject_Z (97 * 2 ^ data_bits fpe))%Q).
    { rewrite <- Zle_Qle. unfold code_top in HDr. lia. }
    rewrite !inject_Z_mult in H2.
    change (inject_Z 64) with 64%Q in H2. change (inject_Z 97) with 97%Q in H2.
    lra. }
  specialize (H Hs Hsr Hz (data_span_ge fpe HL) (conj Hlo' Hhi') Hin
                (Qlt_le_weak _ _ (pow2_gt0 _))
                ltac:(rewrite <- pow2_m53; apply pow2_le; lia)
                Heta Ht0 HU HDP (conj HW1 HW2)
                (FRounds_error_rho _ _ _ Rt Ft)
                (FRounds_error_rho _ _ _ Ru Fu)
                (FRounds_error_rho _ _ _ Rw Fw)
                (FRounds_error_rho _ _ _ Rl Fl)
                (FRounds_error_rho _ _ _ Rx Fx)
                (FRounds_error_rho _ _ _ Ry Fy)
                (FRounds_error_rho _ _ _ Rdec Fdec)).
  destruct H as [H1 H2]. split; lra.
Qed.

Lemma Decode_Encode_below_witness :
  is_finite 3.14154052734375 = true
  /\ (F2Q pi_5 - roundtrip_bound (preCompute newFPEncoder 0 100000 4)
      <= F2Q 3.14154052734375)%Q
  /\ (F2Q 3.14154052734375
      <= F2Q pi_5 + (roundtrip_bound (preCompute newFPEncoder 0 100000 4)
                     - F2Q (sR (preCompute newFPEncoder 0 100000 4))))%Q.
Proof.
  apply (Decode_Encode_below cvt_saturate 0 100000 4 _ pi_5
           [x00; x00; xc9; x0f]);
    vm_compute; reflexivity.
Defined.

(** ** Values that get different codes *)

(** Two values in exact arithmetic on their way to their codes [D1] and
    [D2]: at a scaled distance of one, and the roundings, the codes
    differ. *)
Lemma separation_arith (S A V1 V2 Z T1 U1 W1 D1 T2 U2 W2 D2 P eta : Q) :
  (let rho := 1 # 9007199254740992 in
   0 < S -> A <= V1 -> A <= V2 -> 0 <= Z <= 1 -> 128 <= P ->
   0 <= eta -> eta <= rho ->
   0 <= T1 -> 0 <= U1 <= (3 # 2) * P -> D1 <= W1 < D1 + 1 ->
   0 <= T2 -> 0 <= U2 <= (3 # 2) * P -> D2 <= W2 < D2 + 1 ->
   Qabs (T1 - (V1 - A)) <= Qabs (V1 - A) * rho + 0 ->
   Qabs (U1 - S * T1) <= Qabs (S * T1) * rho + eta ->
   Qabs (W1 - (U1 + Z)) <= Qabs (U1 + Z) * rho + 0 ->
   Qabs (T2 - (V2 - A)) <= Qabs (V2 - A) * rho + 0 ->
   Qabs (U2 - S * T2) <= Qabs (S * T2) * rho + eta ->
   Qabs (W2 - (U2 + Z)) <= Qabs (U2 + Z) * rho + 0 ->
   1 + (1 # 562949953421312) * P <= S * (V2 - V1) ->
   D1 < D2)%Q.
Proof.
  intros rho HS HV1 HV2 HZ HP He0 He1 HT1 HU1 HW1 HT2 HU2 HW2
    A1 B1 C1 A2 B2 C2 Hsep.
  unfold rho in *. clear rho.
  assert (HST1 : (0 <= S * T1)%Q) by (apply Qmult_le_0_compat; lra).
  assert (HST2 : (0 <= S * T2)%Q) by (apply Qmult_le_0_compat; lra).
  rewrite (Qabs_pos (V1 - A)) in A1 by lra.
  rewrite (Qabs_pos (V2 - A)) in A2 by lra.
  rewrite (Qabs_pos (S * T1)) in B1 by lra.
  rewrite (Qabs_pos (S * T2)) in B2 by lra.
  rewrite (Qabs_pos (U1 + Z)) in C1 by lra.
  rewrite (Qabs_pos (U2 + Z)) in C2 by lra.
  apply Qabs_bounds in A1, A2, B1, B2, C1, C2.
  pose proof (Qscale_le S _ _ (Qlt_le_weak _ _ HS) (proj1 A1)) as A1l.
  pose proof (Qscale_le S _ _ (Qlt_le_weak _ _ HS) (proj2 A1)) as A1u.
  pose proof (Qscale_le S _ _ (Qlt_le_weak _ _ HS) (proj1 A2)) as A2l.
  pose proof (Qscale_le S _ _ (Qlt_le_weak _ _ HS) (proj2 A2)) as A2u.
  lra.
Qed.

(** [Encode] tells apart two values in range whose scaled distance
    [sF * (x2 - x1)] is at least [1 + 2^(dPow - 49)]: the code of [x2] is
    then greater than the code of [x1].  For fields of 1, 2 and 4 bytes that
    is little more than one step [sR]; for 8 bytes the roundings of float64
    take the last 14 bits of the code. *)
Theorem Encode_separates (cvt : int_type -> float -> Z) (min max : float)
    (length : Z) (fpe : FPEncoder) (x1 x2 : float) :
  NewFPEncoderWithLength min max length = Ok fpe ->
  range_fits_field fpe = true ->
  is_finite x1 = true -> is_finite x2 = true ->
  (min <=? x1)%float = true -> (x2 <=? max)%float = true ->
  (1 + (1 # 562949953421312) * inject_Z (2 ^ data_bits fpe)
   <= F2Q (sF fpe) * (F2Q x2 - F2Q x1))%Q ->
  exists bs1 bs2 : list byte,
    Encode cvt fpe x1 = Ok bs1 /\ Encode cvt fpe x2 = Ok bs2
    /\ be_value bs1 < be_value bs2.
Proof.
  intros Hnew Hfit F1 F2 Hlo Hhi Hsep.
  destruct (constructed_codec _ _ _ _ Hnew Hfit)
    as (HL & Ea & Eb & Fa & Fb & Fz & Hz & _).
  pose proof (leb_Q _ _ Fa F1 Hlo) as Hlo1.
  pose proof (leb_Q _ _ F2 Fb Hhi) as Hhi2.
  rewrite <- Ea in Hlo1. rewrite <- Eb in Hhi2.
  destruct (fits_fields fpe Hfit HL) as (_ & _ & Fs & Hs & _ & _).
  pose proof (data_span_ge fpe HL) as HP.
  assert (H12 : (F2Q x1 <= F2Q x2)%Q).
  { destruct (Qlt_le_dec (F2Q x2) (F2Q x1)) as [H | H]; [exfalso | exact H].
    assert (F2Q (sF fpe) * (F2Q x2 - F2Q x1) <= F2Q (sF fpe) * 0)%Q
      by (apply Qscale_le; lra).
    lra. }
  destruct (Encode_in_range fpe Hfit HL Fz Hz cvt x1 F1 Hlo1 ltac:(lra))
    as (bs1 & D1 & He1 & _ & Hv1 & Ht1 & _).
  destruct (Encode_in_range fpe Hfit HL Fz Hz cvt x2 F2 ltac:(lra) Hhi2)
    as (bs2 & D2 & He2 & _ & Hv2 & Ht2 & _).
  destruct (encode_steps fpe Hfit HL Fz Hz x1 F1 Hlo1 ltac:(lra))
    as (Ft1 & Fu1 & Fw1 & Rt1 & Ru1 & Rw1 & Ht10 & Hu10 & _
        & D1' & Ht1' & _ & _ & HW11 & HW12 & _).
  destruct (encode_steps fpe Hfit HL Fz Hz x2 F2 ltac:(lra) Hhi2)
    as (Ft2 & Fu2 & Fw2 & Rt2 & Ru2 & Rw2 & Ht20 & Hu20 & _
        & D2' & Ht2' & _ & _ & HW21 & HW22 & _).
  assert (E1 : D1' = D1) by congruence. subst D1'.
  assert (E2 : D2' = D2) by congruence. subst D2'.
  assert (HU : forall u : Q,
            (0 <= u <= inject_Z (code_limit fpe))%Q ->
            (0 <= u <= (3 # 2) * inject_Z (2 ^ data_bits fpe))%Q).
  { intros u [Hu0 Hu1]. split; [exact Hu0|].
    destruct (data_span_split fpe HL) as (Hp1 & _ & _).
    assert (H2 : (inject_Z (2 * code_limit fpe)
                  == inject_Z (3 * 2 ^ data_bits fpe))%Q).
    { apply inject_Z_injective. unfold code_limit. lia. }
    rewrite !inject_Z_mult in H2.
    change (inject_Z 2) with 2%Q in H2. change (inject_Z 3) with 3%Q in H2.
    lra. }
  exists bs1, bs2. split; [exact He1|]. split; [exact He2|].
  rewrite Hv1, Hv2, Zlt_Qlt.
  apply (separation_arith (F2Q (sF fpe)) (F2Q (a fpe)) (F2Q x1) (F2Q x2)
           (F2Q (zOffset fpe))
           (F2Q (x1 - a fpe)) (F2Q (sF fpe * (x1 - a fpe)))
           (F2Q (sF fpe * (x1 - a fpe) + zOffset fpe)) (inject_Z D1)
           (F2Q (x2 - a fpe)) (F2Q (sF fpe * (x2 - a fpe)))
           (F2Q (sF fpe * (x2 - a fpe) + zOffset fpe)) (inject_Z D2)
           (inject_Z (2 ^ data_bits fpe)) (pow2 (-1075))).
  - exact Hs.
  - exact Hlo1.
  - lra.
  - exact Hz.
  - exact HP.
  - apply Qlt_le_weak, pow2_gt0.
  - rewrite <- pow2_m53. apply pow2_le. lia.
  - exact Ht10.
  - apply HU. exact Hu10.
  - split; assumption.
  - exact Ht20.
  - apply HU. exact Hu20.
  - split; assumption.
  - exact (FRounds_error_rho _ _ _ Rt1 Ft1).
  - exact (FRounds_error_rho _ _ _ Ru1 Fu1).
  - exact (FRounds_error_rho _ _ _ Rw1 Fw1).
  - exact (FRounds_error_rho _ _ _ Rt2 Ft2).
  - exact (FRounds_error_rho _ _ _ Ru2 Fu2).
  - exact (FRounds_error_rho _ _ _ Rw2 Fw2).
  - exact Hsep.
Qed.

Lemma Encode_separates_witness :
  exists bs1 bs2 : list byte,
    Encode cvt_saturate (preCompute newFPEncoder 0 100000 4) 1 = Ok bs1
    /\ Encode cvt_saturate (preCompute newFPEncoder 0 100000 4) 1.125
       = Ok bs2
    /\ be_value bs1 < be_value bs2.
Proof.
  apply (Encode_separates cvt_saturate 0 100000 4);
    vm_compute; try reflexivity; discriminate.
Defined.

(** ** The constructor by precision *)

Lemma is_nan_eq (x : float) : is_nan x = true -> x = nan.
Proof.
  intros H. apply Prim2SF_inj. rewrite is_nan_spec in H.
  destruct (Prim2SF x); try discriminate. reflexivity.
Qed.

Lemma Prim2SF_eq_infinity (x : float) :
  Prim2SF x = S754_infinity false -> x = infinity.
Proof. intros H. apply Prim2SF_inj. exact H. Qed.

Lemma negative_not_special (x : float) :
  (x <? 0)%float = true ->
  is_nan x = false /\ (x =? infinity)%float = false.
Proof.
  intros H. rewrite is_nan_spec, eqb_infinity_spec.
  rewrite ltb_spec in H.
  destruct (Prim2SF x) as [s | [|] | | s m e]; try discriminate; auto.
Qed.

(** [math.Log] of a negative number is a NaN. *)
Lemma Log_negative (x : float) : (x <? 0)%float = true -> GoMath.Log x = nan.
Proof.
  intros H. destruct (negative_not_special x H) as [Hn Hi].
  unfold GoMath.Log, GoMath.IsNaN, GoMath.IsInf. cbv zeta.
  rewrite Hn, Hi, H. reflexivity.
Qed.

(** The number of bytes the constructor computes from a ratio that is
    negative, a NaN or +Inf. *)
Lemma bytes_needed_special (r : float) :
  (r <? 0)%float = true \/ is_nan r = true \/ r = infinity ->
  let len := GoMath.Ceil (GoMath.Ceil (log2 r + 1) / 8) in
  len = nan \/ len = infinity.
Proof.
  intros [H | [H | H]]; cbv zeta.
  - left. unfold log2. rewrite (Log_negative r H). vm_compute. reflexivity.
  - left. rewrite (is_nan_eq r H). vm_compute. reflexivity.
  - right. rewrite H. vm_compute. reflexivity.
Qed.

Lemma bytes_needed_rejected (cvt : int_type -> float -> Z)
    (min max precision : float) :
  let len :=
    GoMath.Ceil (GoMath.Ceil (log2 ((max - min) / precision) + 1) / 8) in
  len = nan \/ len = infinity ->
  NewFPEncoderWithPrecision cvt min max precision = Err ErrPrecision.
Proof.
  intros len H. unfold NewFPEncoderWithPrecision. cbv zeta. fold len.
  destruct H as [-> | ->]; reflexivity.
Qed.

(** The constructor by precision rejects a ratio [(max - min) / precision]
    that is negative (a negative precision, bounds the wrong way round), a
    NaN or +Inf: the field length it computes is then a NaN or +Inf, which
    fails each of its three tests. *)
Theorem NewFPEncoderWithPrecision_rejects (cvt : int_type -> float -> Z)
    (min max precision : float) :
  ((max - min) / precision <? 0)%float = true
  \/ is_nan ((max - min) / precision) = true
  \/ ((max - min) / precision = infinity)%float ->
  NewFPEncoderWithPrecision cvt min max precision = Err ErrPrecision.
Proof.
  intros H. apply bytes_needed_rejected.
  apply (bytes_needed_special _ H).
Qed.

Lemma NewFPEncoderWithPrecision_rejects_witness :
  NewFPEncoderWithPrecision cvt_saturate 0 10 (-0.5) = Err ErrPrecision.
Proof.
  apply NewFPEncoderWithPrecision_rejects. left. reflexivity.
Defined.

Lemma positive_difference (x y : float) :
  is_finite x = true -> is_finite y = true -> (x <? y)%float = true ->
  (exists m e, Prim2SF (y - x) = S754_finite false m e)
  \/ Prim2SF (y - x) = S754_infinity false.
Proof.
  intros Fx Fy H.
  apply ltb_FX in H; auto using finite_notnan.
  rewrite !FX_finite in H by assumption.
  pose proof (sub_Rounds y x Fy Fx) as R.
  destruct (notnan_cases _ (FRounds_notnan _ _ _ R)) as [F | [F | F]].
  - left. pose proof (FRounds_error_rho _ _ _ R F) as He.
    rewrite (Qabs_pos (F2Q y - F2Q x)) in He by lra.
    apply Qabs_bounds in He.
    assert (Hp : (0 < F2Q (y - x))%Q) by lra.
    unfold F2Q in Hp.
    destruct (Prim2SF (y - x)) as [s | s | | [|] m e];
      try (cbn [SF2Q] in Hp; lra).
    + exfalso. rewrite SF2Q_finite in Hp. cbn [cond_Zopp] in Hp.
      change (Z.opp (Zpos m)) with (Zneg m) in Hp.
      pose proof (dval_neg m e). pose proof (dval_pos m e). lra.
    + eauto.
  - right. exact F.
  - exfalso. pose proof (FRounds_nonneg _ _ _ R ltac:(lra)) as H0.
    unfold FX in H0. rewrite F in H0. cbn [SFX] in H0.
    pose proof (pow2_gt0 1024). lra.
Qed.

Lemma eqb_zero (x : float) :
  (x =? 0)%float = true -> exists s, Prim2SF x = S754_zero s.
Proof.
  rewrite FloatAxioms.eqb_spec. change (Prim2SF 0) with (S754_zero false).
  destruct (Prim2SF x) as [s | [|] | | [|] m e]; intros H;
    try (vm_compute in H; discriminate); eauto.
Qed.

(** A precision of zero (of either sign) is rejected, whatever the finite
    bounds [min < max]: the ratio is an infinity. *)
Theorem NewFPEncoderWithPrecision_zero (cvt : int_type -> float -> Z)
    (min max precision : float) :
  is_finite min = true -> is_finite max = true ->
  (min <? max)%float = true -> (precision =? 0)%float = true ->
  NewFPEncoderWithPrecision cvt min max precision = Err ErrPrecision.
Proof.
  intros Fa Fb Hlt Hp.
  destruct (eqb_zero _ Hp) as [s Hs].
  assert (Hr : Prim2SF ((max - min) / precision) = S754_infinity s).
  { rewrite div_spec, Hs.
    destruct (positive_difference min max Fa Fb Hlt) as [(m & e & H) | H];
      rewrite H; reflexivity. }
  apply bytes_needed_rejected. apply bytes_needed_special.
  destruct s.
  - left. rewrite ltb_spec, Hr. reflexivity.
  - right; right. apply Prim2SF_eq_infinity. exact Hr.
Qed.

Lemma NewFPEncoderWithPrecision_zero_witness :
  NewFPEncoderWithPrecision cvt_saturate 0 10 0 = Err ErrPrecision.
Proof.
  apply NewFPEncoderWithPrecision_zero; reflexivity.
Defined.

Lemma Floor_not_finite (x : float) :
  is_finite x = false -> GoMath.Floor x = x.
Proof.
  intros H. unfold GoMath.Floor, GoMath.IsNaN. rewrite IsInf_0.
  rewrite is_finite_sentinels in H.
  destruct (x =? 0)%float; [reflexivity|].
  destruct (is_nan x); [reflexivity|].
  destruct (x =? infinity)%float; [reflexivity|].
  destruct (x =? neg_infinity)%float; [reflexivity | discriminate].
Qed.

(** A finite [Ceil] is an integer. *)
Lemma Ceil_integer (x : float) :
  is_finite (GoMath.Ceil x) = true ->
  exists z : Z,
    (F2Q (GoMath.Ceil x) == inject_Z z)%Q /\ Ztrunc (GoMath.Ceil x) = Some z.
Proof.
  unfold GoMath.Ceil. intros F. pose proof F as F'.
  rewrite is_finite_opp in F'.
  destruct (is_finite (- x)) eqn:Fx.
  - destruct (Floor_finite (- x)%float Fx) as (z & _ & Hz & _ & _ & _).
    exists (- z).
    assert (Hv : (F2Q (- GoMath.Floor (- x)) == inject_Z (- z))%Q).
    { rewrite F2Q_opp, Hz, inject_Z_opp. reflexivity. }
    split; [exact Hv|]. apply Ztrunc_integer; assumption.
  - rewrite (Floor_not_finite _ Fx) in F'. congruence.
Qed.

Lemma leb_integer (x k : float) (z n : Z) :
  is_finite x = true -> is_finite k = true ->
  (F2Q x == inject_Z z)%Q -> (F2Q k == inject_Z n)%Q ->
  (x <=? k)%float = (z <=? n)%Z /\ (k <=? x)%float = (n <=? z)%Z.
Proof.
  intros Fx Fk Hx Hk.
  pose proof (leb_FX x k (finite_notnan _ Fx) (finite_notnan _ Fk)) as H1.
  pose proof (leb_FX k x (finite_notnan _ Fk) (finite_notnan _ Fx)) as H2.
  rewrite !FX_finite, Hx, Hk, <- Zle_Qle in H1, H2 by assumption.
  split.
  - destruct (Z.leb_spec z n) as [H | H].
    + apply H1. exact H.
    + destruct (x <=? k)%float; [|reflexivity].
      pose proof (proj1 H1 eq_refl). lia.
  - destruct (Z.leb_spec n z) as [H | H].
    + apply H2. exact H.
    + destruct (k <=? x)%float; [|reflexivity].
      pose proof (proj1 H2 eq_refl). lia.
Qed.

(** When the number of bytes it computes is between 1 and 8, the constructor
    by precision returns what the constructor by length returns for the
    least of the lengths 1, 2, 4, 8 that holds that many bytes. *)
Theorem NewFPEncoderWithPrecision_ladder (cvt : int_type -> float -> Z)
    (min max precision : float) :
  let bytes_needed :=
    GoMath.Ceil (GoMath.Ceil (log2 ((max - min) / precision) + 1) / 8) in
  (1 <=? bytes_needed)%float = true -> (bytes_needed <=? 8)%float = true ->
  NewFPEncoderWithPrecision cvt min max precision
  = NewFPEncoderWithLength min max
      (if (bytes_needed <=? 1)%float then 1
       else if (bytes_needed <=? 2)%float then 2
       else if (bytes_needed <=? 4)%float then 4 else 8).
Proof.
  intros len H1 H8. unfold NewFPEncoderWithPrecision. cbv zeta. fold len.
  assert (F : is_finite len = true).
  { destruct (leb_notnan _ _ H1) as [_ N].
    apply (finite_between 1%float len 8%float); try reflexivity;
      try assumption; apply leb_FX; auto. }
  destruct (Ceil_integer _ F) as (z & Hz & Ht). fold len in Hz, Ht.
  assert (E : forall (k : float) (n : Z),
            is_finite k = true -> (F2Q k == inject_Z n)%Q ->
            (len <=? k)%float = (z <=? n)%Z /\ (k <=? len)%float = (n <=? z)%Z).
  { intros k n Fk Hk. apply leb_integer; assumption. }
  destruct (E 1%float 1 eq_refl ltac:(vm_compute; reflexivity)) as [L1 G1].
  destruct (E 2%float 2 eq_refl ltac:(vm_compute; reflexivity)) as [L2 _].
  destruct (E 4%float 4 eq_refl ltac:(vm_compute; reflexivity)) as [L4 _].
  destruct (E 8%float 8 eq_refl ltac:(vm_compute; reflexivity)) as [L8 _].
  rewrite G1 in H1. rewrite L8 in H8. rewrite L1, L2, L4, L8.
  apply Z.leb_le in H1, H8.
  destruct (Z.leb_spec z 2) as [H2 | H2].
  - rewrite (float_to_exact cvt Int len z Ht)
      by (unfold in_range; cbn [int_min int_max]; apply andb_true_iff;
          split; apply Z.leb_le; lia).
    assert (Hz' : z = 1 \/ z = 2) by lia.
    destruct Hz' as [-> | ->]; reflexivity.
  - destruct (Z.leb_spec z 1) as [H | _]; [lia|].
    destruct (Z.leb_spec z 4) as [H4 | H4]; [reflexivity|].
    destruct (Z.leb_spec z 8) as [_ | H]; [reflexivity | lia].
Qed.

Lemma NewFPEncoderWithPrecision_ladder_witness :
  NewFPEncoderWithPrecision cvt_saturate 0 2000000000 1
  = NewFPEncoderWithLength 0 2000000000 4.
Proof.
  apply (NewFPEncoderWithPrecision_ladder cvt_saturate 0 2000000000 1);
    vm_compute; reflexivity.
Defined.
